(** * AutoSyncService: periodic checking of git-backed context projects

    A shallow embedding of the [AutoSyncService] class of
    [src/extension.ts] (start, stop, checkForUpdates,
    checkProjectForUpdates, pullProject, updateStatusBar,
    notifyUpdatesAvailable, getProjectsWithUpdates) as a machine that takes
    one event-loop turn per input.

    The class runs on a single-threaded event loop.  Every [await] on a git
    child process (or on [contextManager.updateGitProject]) is a suspension
    point; everything between two suspension points runs without
    interruption.  A turn of the machine is therefore either an outside call
    of a public method, a timer callback, or the settlement of one awaited
    operation together with the synchronous code that this settlement
    resumes (the continuations of [await] and of [Promise.all] are
    microtasks: they run before the next timer or process callback).  Calls
    from outside are taken one per turn.

    What git, the registry, the file system and the configuration do is not
    modelled: the outcome of every awaited operation is an input of the
    machine, and the theorems hold for all outcomes and all orders in which
    the operations of a cycle can settle.  Nothing keeps a second cycle from
    starting while one is in flight: the cycles of a run can overlap, and
    they share the set of pending projects.  [manualCheck()], which wraps
    [checkForUpdates()] in a progress notification, and the reactions to
    clicks on notifications are left out. *)

From stdpp Require Import gmap strings list pretty.
From Stdlib Require Import ZArith Ascii.

Local Open Scope string_scope.
Local Open Scope list_scope.

(** ** Configuration, registry, environment *)

(** [interface AutoSyncConfig].  The settings are taken to hold values of
    the types that the interface declares, and the number
    [intervalMinutes] to be an integer. *)
Record AutoSyncConfig := {
  cfg_enabled : bool;
  intervalMinutes : Z;
  autoMerge : bool;
  notifyOnUpdates : bool;
  runOnStartup : bool
}.

(** The fields of an entry of [contextManager.getProjects()] that the
    service reads. *)
Record Project := {
  name : string;
  folderPath : string;
  enabled : bool
}.

(** What the service reads from its surroundings: the workspace
    configuration ([getConfig]), the registry ([getProjects]), the file
    system ([gitMarker p] is [fs.existsSync(path.join(p, '.git'))]) and the
    clock ([new Date()]). *)
Record Env := {
  config : AutoSyncConfig;
  projects : list Project;
  gitMarker : string → bool;
  now : Z
}.

(** ** Values of the host language *)

(** What a rejected promise carries: an [Error] object with its message,
    or some other value. *)
Inductive Thrown :=
| ErrorObject (message : string)
| OtherValue (shown : string).

(** [error instanceof Error ? error.message : 'Unknown error']. *)
Definition errorMessage (error : Thrown) : string :=
  match error with
  | ErrorObject message => message
  | OtherValue _ => "Unknown error"
  end.

(** A promise that has settled: a git process ended with exit status 0
    and printed [value], or it failed; a call of the registry returned or
    threw. *)
Inductive Settled :=
| Fulfilled (value : string)
| Rejected (reason : Thrown).

(** A string of the model is the UTF-8 text of a string of the program:
    the characters of ASCII are one byte each, the others two bytes or
    more.

    The white space of the language (WhiteSpace and LineTerminator) is
    TAB, LF, VT, FF, CR and SP, one byte each; U+00A0, two bytes; and
    U+1680, U+2000 to U+200A, U+2028, U+2029, U+202F, U+205F, U+3000 and
    U+FEFF, three bytes each. *)
Definition isSpace2 (a b : ascii) : bool :=
  (N_of_ascii a =? 194)%N && (N_of_ascii b =? 160)%N.

Definition isSpace3 (a b c : ascii) : bool :=
  let x := N_of_ascii a in
  let y := N_of_ascii b in
  let z := N_of_ascii c in
  ((x =? 225) && (y =? 154) && (z =? 128))%N
  || ((x =? 226) && (y =? 128)
      && ((128 <=? z) && (z <=? 138) || (z =? 168) || (z =? 169)
          || (z =? 175)))%N
  || ((x =? 226) && (y =? 129) && (z =? 159))%N
  || ((x =? 227) && (y =? 128) && (z =? 128))%N
  || ((x =? 239) && (y =? 187) && (z =? 191))%N.

(** [String.prototype.trimStart]. *)
Fixpoint trimStart (s : string) : string :=
  match s with
  | String a r =>
      if Ascii.is_space a then trimStart r else
      match r with
      | String b r2 =>
          if isSpace2 a b then trimStart r2 else
          match r2 with
          | String c r3 => if isSpace3 a b c then trimStart r3 else s
          | EmptyString => s
          end
      | EmptyString => s
      end
  | EmptyString => s
  end.

(** The string is made of white space. *)
Fixpoint allSpace (s : string) : bool :=
  match s with
  | String a r =>
      if Ascii.is_space a then allSpace r else
      match r with
      | String b r2 =>
          if isSpace2 a b then allSpace r2 else
          match r2 with
          | String c r3 => isSpace3 a b c && allSpace r3
          | EmptyString => false
          end
      | EmptyString => false
      end
  | EmptyString => true
  end.

(** [String.prototype.trimEnd]. *)
Fixpoint trimEnd (s : string) : string :=
  match s with
  | String a r => if allSpace s then "" else String a (trimEnd r)
  | EmptyString => s
  end.

(** [String.prototype.trim]. *)
Definition trim (s : string) : string := trimEnd (trimStart s).

(** The leading decimal digits of a string; [None] when there is none. *)
Fixpoint leadingDigits (acc : option Z) (s : string) : option Z :=
  match s with
  | String c r =>
      match Ascii.is_nat c with
      | Some d => leadingDigits (Some (10 * default 0 acc + Z.of_nat d)%Z) r
      | None => acc
      end
  | EmptyString => acc
  end.

(** [parseInt(s, 10)]; [None] stands for NaN. *)
Definition parseInt (s : string) : option Z :=
  match trimStart s with
  | String "-"%char r => Z.opp <$> leadingDigits None r
  | String "+"%char r => leadingDigits None r
  | r => leadingDigits None r
  end.

(** [commitsBehind > 0], which is false for NaN. *)
Definition isBehind (stdout : string) : bool :=
  match parseInt (trim stdout) with
  | Some commitsBehind => (0 <? commitsBehind)%Z
  | None => false
  end.

(** A [Set<string>]: its elements in insertion order, without duplicates. *)
Definition setAdd (x : string) (elems : list string) : list string :=
  if decide (x ∈ elems) then elems else elems ++ [x].

(** [Array.prototype.join]. *)
Fixpoint join (sep : string) (xs : list string) : string :=
  match xs with
  | [] => ""
  | [x] => x
  | x :: rest => x +:+ sep +:+ join sep rest
  end.

(** Objects that the service creates and hands out live in a heap, so that
    a caller that mutates the array it was given mutates that heap cell. *)
Inductive JSObject :=
| JSSet (elems : list string)
| JSArray (elems : list string).

(** ** Observable effects *)

Definition fetchArgs : list string := ["fetch"; "origin"].
Definition revListArgs : list string := ["rev-list"; "HEAD..origin/HEAD"; "--count"].
Definition pullArgs : list string := ["pull"; "origin"].

(** Lines written with [console.log] (the [Log] ones) and [console.error]
    (the [Err] ones): 'Auto-sync is disabled', 'Starting auto-sync service
    (interval: ... minutes)', 'Auto-sync service started', 'Auto-sync
    service stopped', 'No Git projects to check', 'Checking ... Git projects
    for updates...', 'Auto-pulling updates for ...', 'Failed to check ...:',
    'Error checking for updates: ...', 'Failed to pull ...:'. *)
Inductive LogLine :=
| LogDisabled
| LogStarting (minutes : Z)
| LogStarted
| LogStopped
| LogNoGitProjects
| LogChecking (n : nat)
| LogAutoPulling (projectName : string)
| ErrFailedToCheck (projectName : string) (reason : Thrown)
| ErrCheckingForUpdates (reason : Thrown)
| ErrFailedToPull (projectName : string) (reason : Thrown).

(** Texts of the notifications: 'Auto-synced: name', 'Failed to auto-sync
    name: reason', 'Auto-synced count project(s): list', and 'count
    project(s) have updates: list'. *)
Inductive Message :=
| MsgAutoSyncedProject (projectName : string)
| MsgFailedToAutoSync (projectName reason : string)
| MsgAutoSynced (count : nat) (projectsList : string)
| MsgHaveUpdates (count : nat) (projectsList : string).

Inductive Event :=
| ExecGit (args : list string) (cwd : string)
| UpdateGitProject (projectName : string)
| ShowInformationMessage (message : Message) (actions : list string)
| ShowErrorMessage (message : Message)
| Console (line : LogLine).

Global Instance Thrown_eq_dec : EqDecision Thrown.
Proof. solve_decision. Defined.
Global Instance Settled_eq_dec : EqDecision Settled.
Proof. solve_decision. Defined.
Global Instance LogLine_eq_dec : EqDecision LogLine.
Proof. solve_decision. Defined.
Global Instance Message_eq_dec : EqDecision Message.
Proof. solve_decision. Defined.
Global Instance Event_eq_dec : EqDecision Event.
Proof. solve_decision. Defined.

(** ** The status bar item *)

Inductive StatusText :=
| TextUnset
| TextUpdates (n : nat)
| TextSynced.

Inductive Tooltip :=
| TipUnset
| TipUpdates (n : nat) (projectsList : string)
| TipLastChecked (time : Z) (minutes : Z)
| TipEnabled.

Record StatusBarItem := {
  visible : bool;
  text : StatusText;
  warningBackground : bool;
  tooltip : Tooltip
}.

Definition hide (item : StatusBarItem) : StatusBarItem :=
  {| visible := false; text := text item;
     warningBackground := warningBackground item; tooltip := tooltip item |}.

(** ** One check cycle *)

(** Where the per-project callback of [gitProjects.map] is suspended. *)
Inductive Stage :=
| AwaitFetch
| AwaitRevList
| AwaitPull
| AwaitUpdateGitProject
| Finished.

Global Instance Stage_eq_dec : EqDecision Stage.
Proof. solve_decision. Defined.

Definition isFinished (st : Stage) : bool :=
  match st with Finished => true | _ => false end.

(** Who awaits the promise of a [checkForUpdates()] call: [start()], which
    resumes after its [await this.checkForUpdates()], or nobody (a timer
    callback or an outside call). *)
Inductive Awaiter :=
| Detached
| AwaitedByStart (startConfig : AutoSyncConfig).

(** The frame of one [checkForUpdates()] call that reached its [await]:
    the [config] constant read at its start, the callbacks of
    [updatePromises] with their projects, the local counter [updatesFound],
    and who awaits the call. *)
Record Cycle := {
  cyc_config : AutoSyncConfig;
  tasks : list (Project * Stage);
  updatesFound : nat;
  awaiter : Awaiter
}.

Definition allFinished (ts : list (Project * Stage)) : bool :=
  forallb (λ ps, isFinished ps.2) ts.

Definition inFlight (cyc : Cycle) : bool := negb (allFinished (tasks cyc)).

(** [checkProjectForUpdates(projectPath)], resumed when the git process
    that it awaits settles.  After the fetch it spawns the rev-list and
    awaits again ([inl], the next stage); after the rev-list it returns
    [commitsBehind > 0] ([inr]).  Both awaits are inside its [try]: when
    the process fails, the [catch] logs the error and returns false. *)
Definition checkProjectForUpdates (projectPath : string) (st : Stage)
    (r : Settled) : (Stage + bool) * list Event :=
  match st, r with
  | AwaitFetch, Fulfilled _ =>
      (inl AwaitRevList, [ExecGit revListArgs projectPath])
  | AwaitRevList, Fulfilled result => (inr (isBehind result), [])
  | _, Rejected error => (inr false, [Console (ErrCheckingForUpdates error)])
  | _, Fulfilled _ => (inr false, [])
  end.

(** [pullProject(projectPath, projectName)] up to its first [await]: it
    logs and spawns the pull. *)
Definition pullProject_start (projectPath projectName : string)
    : Stage * list Event :=
  (AwaitPull,
   [Console (LogAutoPulling projectName); ExecGit pullArgs projectPath]).

(** [pullProject(projectPath, projectName)], resumed when what it awaits
    settles: after the pull it calls [contextManager.updateGitProject] and
    awaits that; after that it shows the success message and returns.  Both
    awaits are inside its [try]: on a failure the [catch] logs the error,
    shows the error message, and the method returns normally. *)
Definition pullProject (projectPath projectName : string) (st : Stage)
    (r : Settled) : Stage * list Event :=
  match st, r with
  | AwaitPull, Fulfilled _ =>
      (AwaitUpdateGitProject, [UpdateGitProject projectName])
  | AwaitUpdateGitProject, Fulfilled _ =>
      (Finished,
       [ShowInformationMessage (MsgAutoSyncedProject projectName)
          ["Show Changes"]])
  | _, Rejected error =>
      (Finished,
       [Console (ErrFailedToPull projectName error);
        ShowErrorMessage
          (MsgFailedToAutoSync projectName (errorMessage error))])
  | _, Fulfilled _ => (Finished, [])
  end.

(** One resumption of the callback of [gitProjects.map] for [project]: the
    stage it is suspended at and how the awaited operation settled give the
    next stage, whether the project was found behind in this resumption
    (then the callback does [projectsWithUpdates.add(project.name)] and
    [updatesFound++]), and the effects of the code that ran.  The [catch]
    of the callback itself is never entered, because neither
    [checkProjectForUpdates] nor [pullProject] lets a failure out. *)
Definition taskStep (autoMerge : bool) (project : Project) (st : Stage)
    (r : Settled) : Stage * bool * list Event :=
  match st with
  | AwaitFetch | AwaitRevList =>
      match checkProjectForUpdates (folderPath project) st r with
      | (inl st', evs) => (st', false, evs)
      | (inr hasUpdates, evs) =>
          if hasUpdates then
            if autoMerge then
              let '(st', evs') :=
                pullProject_start (folderPath project) (name project) in
              (st', true, evs ++ evs')
            else (Finished, true, evs)
          else (Finished, false, evs)
      end
  | AwaitPull | AwaitUpdateGitProject =>
      let '(st', evs) :=
        pullProject (folderPath project) (name project) st r in
      (st', false, evs)
  | Finished => (Finished, false, [])
  end.

(** ** The service and its host *)

(** The instance fields of [AutoSyncService] ([intervalId],
    [statusBarItem], [lastCheckTime], and [projectsWithUpdates], a reference
    to a [Set] in the heap), what it reads from outside ([env]), and the
    state of the host: the heap, the interval timers that are armed (with
    their periods in milliseconds), the cycles started so far, in flight or
    ended, in the order of their start, and the effects so far. *)
Record State := {
  env : Env;
  intervalId : option nat;
  statusBarItem : StatusBarItem;
  lastCheckTime : option Z;
  projectsWithUpdates : nat;
  heap : gmap nat JSObject;
  timers : list (nat * Z);
  nextTimer : nat;
  cycles : list Cycle;
  trace : list Event
}.

Definition set_env (e : Env) (s : State) : State :=
  {| env := e; intervalId := intervalId s; statusBarItem := statusBarItem s;
     lastCheckTime := lastCheckTime s;
     projectsWithUpdates := projectsWithUpdates s; heap := heap s;
     timers := timers s; nextTimer := nextTimer s; cycles := cycles s;
     trace := trace s |}.

Definition set_intervalId (i : option nat) (s : State) : State :=
  {| env := env s; intervalId := i; statusBarItem := statusBarItem s;
     lastCheckTime := lastCheckTime s;
     projectsWithUpdates := projectsWithUpdates s; heap := heap s;
     timers := timers s; nextTimer := nextTimer s; cycles := cycles s;
     trace := trace s |}.

Definition set_statusBarItem (b : StatusBarItem) (s : State) : State :=
  {| env := env s; intervalId := intervalId s; statusBarItem := b;
     lastCheckTime := lastCheckTime s;
     projectsWithUpdates := projectsWithUpdates s; heap := heap s;
     timers := timers s; nextTimer := nextTimer s; cycles := cycles s;
     trace := trace s |}.

Definition set_lastCheckTime (t : option Z) (s : State) : State :=
  {| env := env s; intervalId := intervalId s; statusBarItem := statusBarItem s;
     lastCheckTime := t;
     projectsWithUpdates := projectsWithUpdates s; heap := heap s;
     timers := timers s; nextTimer := nextTimer s; cycles := cycles s;
     trace := trace s |}.

Definition set_heap (h : gmap nat JSObject) (s : State) : State :=
  {| env := env s; intervalId := intervalId s; statusBarItem := statusBarItem s;
     lastCheckTime := lastCheckTime s;
     projectsWithUpdates := projectsWithUpdates s; heap := h;
     timers := timers s; nextTimer := nextTimer s; cycles := cycles s;
     trace := trace s |}.

Definition set_timers (ts : list (nat * Z)) (next : nat) (s : State) : State :=
  {| env := env s; intervalId := intervalId s; statusBarItem := statusBarItem s;
     lastCheckTime := lastCheckTime s;
     projectsWithUpdates := projectsWithUpdates s; heap := heap s;
     timers := ts; nextTimer := next; cycles := cycles s;
     trace := trace s |}.

Definition set_cycles (cs : list Cycle) (s : State) : State :=
  {| env := env s; intervalId := intervalId s; statusBarItem := statusBarItem s;
     lastCheckTime := lastCheckTime s;
     projectsWithUpdates := projectsWithUpdates s; heap := heap s;
     timers := timers s; nextTimer := nextTimer s; cycles := cs;
     trace := trace s |}.

(** The effects are recorded in the order in which they happen. *)
Definition emit (evs : list Event) (s : State) : State :=
  {| env := env s; intervalId := intervalId s; statusBarItem := statusBarItem s;
     lastCheckTime := lastCheckTime s;
     projectsWithUpdates := projectsWithUpdates s; heap := heap s;
     timers := timers s; nextTimer := nextTimer s; cycles := cycles s;
     trace := trace s ++ evs |}.

(** [new AutoSyncService(contextManager, context)]: the status bar item is
    created hidden, the [Set] is allocated empty. *)
Definition newAutoSyncService (e : Env) : State :=
  {| env := e; intervalId := None;
     statusBarItem := {| visible := false; text := TextUnset;
                         warningBackground := false; tooltip := TipUnset |};
     lastCheckTime := None;
     projectsWithUpdates := 0; heap := {[ 0 := JSSet [] ]};
     timers := []; nextTimer := 0; cycles := []; trace := [] |}.

(** The elements of [this.projectsWithUpdates]. *)
Definition pending (s : State) : list string :=
  match heap s !! projectsWithUpdates s with
  | Some (JSSet elems) => elems
  | _ => []
  end.

Definition setPending (elems : list string) (s : State) : State :=
  set_heap (<[projectsWithUpdates s := JSSet elems]> (heap s)) s.

(** [getConfig()] reads the workspace configuration afresh. *)
Definition getConfig (s : State) : AutoSyncConfig := config (env s).

(** [updateStatusBar()]. *)
Definition updateStatusBar (s : State) : State :=
  let config := getConfig s in
  if negb (cfg_enabled config) then
    set_statusBarItem (hide (statusBarItem s)) s
  else if bool_decide (0 < length (pending s)) then
    set_statusBarItem
      {| visible := true; text := TextUpdates (length (pending s));
         warningBackground := true;
         tooltip := TipUpdates (length (pending s)) (join ", " (pending s)) |} s
  else
    set_statusBarItem
      {| visible := true; text := TextSynced; warningBackground := false;
         tooltip := match lastCheckTime s with
                    | Some t => TipLastChecked t (intervalMinutes config)
                    | None => TipEnabled
                    end |} s.

(** The notification built by [notifyUpdatesAvailable(count, autoMerged)]
    when the set holds [elems]. *)
Definition updatesNotification (count : nat) (autoMerged : bool)
    (elems : list string) : Event :=
  let projectsList := join ", " elems in
  let message := if autoMerged then MsgAutoSynced count projectsList
                 else MsgHaveUpdates count projectsList in
  let actions := if autoMerged then ["Show Changes"]
                 else ["Sync Now"; "Show Changes"; "Dismiss"] in
  ShowInformationMessage message actions.

(** [notifyUpdatesAvailable(count, autoMerged)]. *)
Definition notifyUpdatesAvailable (count : nat) (autoMerged : bool)
    (s : State) : State :=
  emit [updatesNotification count autoMerged (pending s)] s.

(** The period that a timer gets for the requested delay [ms]: a delay
    that is below 1 or above 2147483647 is set to 1. *)
Definition timerDelay (ms : Z) : Z :=
  if (1 <=? ms)%Z && (ms <=? 2147483647)%Z then ms else 1%Z.

(** [setInterval(callback, ms)] arms a new timer; the result is its
    handle.  The callback of every timer of the service is
    [() => { this.checkForUpdates(); }]. *)
Definition setInterval (ms : Z) (s : State) : nat * State :=
  (nextTimer s,
   set_timers (timers s ++ [(nextTimer s, timerDelay ms)]) (S (nextTimer s)) s).

(** The rest of [start()] from [const intervalMs] on. *)
Definition startArm (config : AutoSyncConfig) (s : State) : State :=
  let intervalMs := (intervalMinutes config * 60 * 1000)%Z in
  let '(id, s) := setInterval intervalMs s in
  let s := set_intervalId (Some id) s in
  let s := updateStatusBar s in
  emit [Console LogStarted] s.

(** The caller of a [checkForUpdates()] whose promise is fulfilled goes on. *)
Definition resume (aw : Awaiter) (s : State) : State :=
  match aw with
  | Detached => s
  | AwaitedByStart config => startArm config s
  end.

(** The eligible projects of a cycle. *)
Definition gitProjects (e : Env) : list Project :=
  List.filter (λ p, enabled p && gitMarker e (folderPath p)) (projects e).

(** [checkForUpdates()] up to its [await Promise.all(updatePromises)]: every
    callback of [gitProjects.map] runs up to its first [await], which is on
    the [git fetch] it has spawned, so the fetches are spawned in the order
    of the projects.  With no eligible project the method returns at once,
    and the caller [aw] that awaits it goes on. *)
Definition checkForUpdates (aw : Awaiter) (s : State) : State :=
  let config := getConfig s in
  let s := set_lastCheckTime (Some (now (env s))) s in
  let s := setPending [] s in
  let gitProjects := gitProjects (env s) in
  if bool_decide (length gitProjects = 0) then
    let s := emit [Console LogNoGitProjects] s in
    let s := updateStatusBar s in
    resume aw s
  else
    let s := emit [Console (LogChecking (length gitProjects))] s in
    let s := emit ((λ p, ExecGit fetchArgs (folderPath p)) <$> gitProjects) s in
    set_cycles (cycles s ++
      [{| cyc_config := config;
          tasks := (λ p, (p, AwaitFetch)) <$> gitProjects;
          updatesFound := 0; awaiter := aw |}]) s.

(** The code after [await Promise.all(updatePromises)]. *)
Definition finishCycle (cyc : Cycle) (s : State) : State :=
  let config := cyc_config cyc in
  let s := if bool_decide (0 < updatesFound cyc) && notifyOnUpdates config
           then notifyUpdatesAvailable (updatesFound cyc) (autoMerge config) s
           else s in
  let s := updateStatusBar s in
  resume (awaiter cyc) s.

(** The operation awaited by callback [t] of cycle [c] settles with [r]:
    the callback runs to its next [await] or to its end, and when it was the
    last one to end, [Promise.all] is fulfilled and the cycle goes on to its
    end.  A settlement for a callback that awaits nothing is ignored. *)
Definition settle (c t : nat) (r : Settled) (s : State) : State :=
  match cycles s !! c with
  | Some cyc =>
      match tasks cyc !! t with
      | Some (project, st) =>
          if isFinished st then s else
          let '(st', found, evs) :=
            taskStep (autoMerge (cyc_config cyc)) project st r in
          let s := if found then setPending (setAdd (name project) (pending s)) s
                   else s in
          let s := emit evs s in
          let cyc' := {| cyc_config := cyc_config cyc;
                         tasks := <[t := (project, st')]> (tasks cyc);
                         updatesFound := if found then S (updatesFound cyc)
                                         else updatesFound cyc;
                         awaiter := awaiter cyc |} in
          let s := set_cycles (<[c := cyc']> (cycles s)) s in
          if allFinished (tasks cyc') then finishCycle cyc' s else s
      | None => s
      end
  | None => s
  end.

(** [start()] up to its end or, with runOnStartup, up to its
    [await this.checkForUpdates()]. *)
Definition start (s : State) : State :=
  let config := getConfig s in
  if negb (cfg_enabled config) then
    let s := emit [Console LogDisabled] s in
    set_statusBarItem (hide (statusBarItem s)) s
  else
    let s := emit [Console (LogStarting (intervalMinutes config))] s in
    if runOnStartup config then checkForUpdates (AwaitedByStart config) s
    else startArm config s.

(** [clearInterval(id)]. *)
Definition clearInterval (id : nat) (s : State) : State :=
  set_timers (List.filter (λ tm, negb (Nat.eqb tm.1 id)) (timers s))
    (nextTimer s) s.

(** [stop()]. *)
Definition stop (s : State) : State :=
  let s := match intervalId s with
           | Some id => set_intervalId None (clearInterval id s)
           | None => s
           end in
  let s := set_statusBarItem (hide (statusBarItem s)) s in
  emit [Console LogStopped] s.

(** [getProjectsWithUpdates()]: [Array.from] allocates a new array that
    holds the elements of the set; the result is the reference to it. *)
Definition getProjectsWithUpdates (s : State) : nat * State :=
  let l := fresh (dom (heap s)) in
  (l, set_heap (<[l := JSArray (pending s)]> (heap s)) s).

(** A caller stores [elems] through the array reference [l]. *)
Definition arrayStore (l : nat) (elems : list string) (s : State) : State :=
  set_heap (<[l := JSArray elems]> (heap s)) s.

(** ** The machine *)

Inductive Input :=
| CallStart
| CallStop
| CallCheckForUpdates
| TimerFires (id : nat)
| Settle (c t : nat) (r : Settled)
| EnvChanges (e : Env).

Definition step (s : State) (i : Input) : State :=
  match i with
  | CallStart => start s
  | CallStop => stop s
  | CallCheckForUpdates => checkForUpdates Detached s
  | TimerFires id =>
      if bool_decide (id ∈ (timers s).*1) then checkForUpdates Detached s else s
  | Settle c t r => settle c t r s
  | EnvChanges e => set_env e s
  end.

Definition run (s : State) (inputs : list Input) : State :=
  fold_left step inputs s.

(** ** Runs of one cycle *)

(** A schedule lists, in the order in which they happen, the settlements of
    the operations that the callbacks of one cycle await: [(t, r)] says that
    the operation awaited by callback number [t] settles with [r]. *)
Definition settles (c : nat) (sched : list (nat * Settled)) : list Input :=
  map (λ tr, Settle c tr.1 tr.2) sched.

(** How the operations awaited by callback [t] settle, in order. *)
Definition outcomes (t : nat) (sched : list (nat * Settled)) : list Settled :=
  omap (λ tr, if decide (tr.1 = t) then Some tr.2 else None) sched.

(** A call of [checkForUpdates()] and then the settlements of [sched], all
    for the cycle that this call started. *)
Definition cycleRun (s : State) (sched : list (nat * Settled)) : State :=
  run s (CallCheckForUpdates :: settles (length (cycles s)) sched).

(** The effects that happened between [s] and a later state [s']. *)
Definition newEvents (s s' : State) : list Event :=
  drop (length (trace s)) (trace s').

(** How many of the effects [evs] are of the kind [f]. *)
Fixpoint countEv (f : Event → bool) (evs : list Event) : nat :=
  match evs with
  | [] => 0
  | e :: evs => (if f e then 1 else 0) + countEv f evs
  end.

(** [checkProjectForUpdates] returned true: the fetch was fulfilled and the
    rev-list printed a positive count. *)
Definition foundBehind (outs : list Settled) : bool :=
  match outs with
  | Fulfilled _ :: Fulfilled result :: _ => isBehind result
  | _ => false
  end.

(** The callback of one project seen alone: its stage after its awaited
    operations settled with [outs], how often it found the project behind,
    and its effects. *)
Fixpoint stageAfter (am : bool) (p : Project) (st : Stage)
    (outs : list Settled) : Stage :=
  match outs with
  | [] => st
  | r :: outs => stageAfter am p (taskStep am p st r).1.1 outs
  end.

(** How many resumptions of the callback found the project behind. *)
Fixpoint foundCount (am : bool) (p : Project) (st : Stage)
    (outs : list Settled) : nat :=
  match outs with
  | [] => 0
  | r :: outs =>
      (if (taskStep am p st r).1.2 then 1 else 0)
      + foundCount am p (taskStep am p st r).1.1 outs
  end.

Fixpoint eventsOf (am : bool) (p : Project) (st : Stage)
    (outs : list Settled) : list Event :=
  match outs with
  | [] => []
  | r :: outs =>
      (taskStep am p st r).2 ++ eventsOf am p (taskStep am p st r).1.1 outs
  end.

(** The effects of all callbacks, callback by callback; [k] is the number
    of the first one. *)
Fixpoint taskEvents (am : bool) (k : nat) (ts : list (Project * Stage))
    (sched : list (nat * Settled)) : list Event :=
  match ts with
  | [] => []
  | (p, st) :: ts =>
      eventsOf am p st (outcomes k sched) ++ taskEvents am (S k) ts sched
  end.

(** How many callbacks found their project behind. *)
Fixpoint taskFound (am : bool) (k : nat) (ts : list (Project * Stage))
    (sched : list (nat * Settled)) : nat :=
  match ts with
  | [] => 0
  | (p, st) :: ts =>
      foundCount am p st (outcomes k sched) + taskFound am (S k) ts sched
  end.

(** The stages of all callbacks. *)
Fixpoint stagesAfter (am : bool) (k : nat) (ts : list (Project * Stage))
    (sched : list (nat * Settled)) : list (Project * Stage) :=
  match ts with
  | [] => []
  | (p, st) :: ts =>
      (p, stageAfter am p st (outcomes k sched)) :: stagesAfter am (S k) ts sched
  end.

(** The cycle after the settlements of [sched]. *)
Definition cycleAfter (cyc : Cycle) (sched : list (nat * Settled)) : Cycle :=
  let am := autoMerge (cyc_config cyc) in
  {| cyc_config := cyc_config cyc;
     tasks := stagesAfter am 0 (tasks cyc) sched;
     updatesFound := updatesFound cyc + taskFound am 0 (tasks cyc) sched;
     awaiter := awaiter cyc |}.

(** What the caller that awaits the cycle does when it goes on. *)
Definition resumeEvents (aw : Awaiter) : list Event :=
  match aw with
  | Detached => []
  | AwaitedByStart _ => [Console LogStarted]
  end.

(** The effects of the code after [await Promise.all(updatePromises)] when
    the set holds [elems]. *)
Definition finishEvents (cyc : Cycle) (elems : list string) : list Event :=
  (if bool_decide (0 < updatesFound cyc) && notifyOnUpdates (cyc_config cyc)
   then [updatesNotification (updatesFound cyc) (autoMerge (cyc_config cyc)) elems]
   else [])
  ++ resumeEvents (awaiter cyc).

(** The cycle that [checkForUpdates()] starts in state [s] when some
    project is eligible. *)
Definition startedCycle (aw : Awaiter) (s : State) : Cycle :=
  {| cyc_config := getConfig s;
     tasks := (λ p, (p, AwaitFetch)) <$> gitProjects (env s);
     updatesFound := 0; awaiter := aw |}.

(** The effects of [checkForUpdates()] up to its [await] when some project
    is eligible. *)
Definition fanOutEvents (e : Env) : list Event :=
  Console (LogChecking (length (gitProjects e)))
  :: ((λ p, ExecGit fetchArgs (folderPath p)) <$> gitProjects e).

(** ** Runs in which cycles overlap *)

(** The settlements among the inputs that are for cycle [c]: its
    schedule. *)
Definition scheduleOf (c : nat) (inputs : list Input) : list (nat * Settled) :=
  omap (λ i, match i with
             | Settle c' t r => if decide (c' = c) then Some (t, r) else None
             | _ => None
             end) inputs.

(** The input makes the service call [checkForUpdates()] in state [s]:
    an outside call, a [start()] with auto-sync enabled and runOnStartup
    on, or the callback of an armed timer. *)
Definition callsCheckForUpdates (s : State) (i : Input) : bool :=
  match i with
  | CallCheckForUpdates => true
  | CallStart => cfg_enabled (getConfig s) && runOnStartup (getConfig s)
  | TimerFires id => bool_decide (id ∈ (timers s).*1)
  | CallStop | Settle _ _ _ | EnvChanges _ => false
  end.

(** In the run of [inputs] from [s], [checkForUpdates()] is not called. *)
Fixpoint noCheckForUpdates (s : State) (inputs : list Input) : bool :=
  match inputs with
  | [] => true
  | i :: inputs =>
      negb (callsCheckForUpdates s i) && noCheckForUpdates (step s i) inputs
  end.

(** Some callback for a project named [n], of a cycle of state [s], finds
    its project behind in the course of the inputs. *)
Definition foundDuring (s : State) (inputs : list Input) (n : string) : Prop :=
  ∃ c cyc t p st,
    cycles s !! c = Some cyc ∧ tasks cyc !! t = Some (p, st) ∧ name p = n
    ∧ 0 < foundCount (autoMerge (cyc_config cyc)) p st
            (outcomes t (scheduleOf c inputs)).

(** How many projects the cycles that read autoMerge on at their start
    have found behind so far. *)
Fixpoint mergedCount (cs : list Cycle) : nat :=
  match cs with
  | [] => 0
  | cyc :: cs =>
      (if autoMerge (cyc_config cyc) then updatesFound cyc else 0)
      + mergedCount cs
  end.

(** ** Kinds of effects *)

Definition isEvent (e0 e : Event) : bool := bool_decide (e = e0).

(** A git process run in the folder [cwd]. *)
Definition isGitIn (cwd : string) (e : Event) : bool :=
  match e with
  | ExecGit _ cwd' => bool_decide (cwd' = cwd)
  | _ => false
  end.

(** A call of [contextManager.updateGitProject] for the project [n]. *)
Definition isUpdateGitProject (n : string) (e : Event) : bool :=
  match e with
  | UpdateGitProject m => bool_decide (m = n)
  | _ => false
  end.

Definition isPull (e : Event) : bool :=
  match e with
  | ExecGit args _ => bool_decide (args = pullArgs)
  | _ => false
  end.

(** Notifications shown to the user. *)
Definition isNotification (e : Event) : bool :=
  match e with
  | ShowInformationMessage _ _ | ShowErrorMessage _ => true
  | _ => false
  end.

(** The notification of [notifyUpdatesAvailable], about all projects. *)
Definition isAggregate (e : Event) : bool :=
  match e with
  | ShowInformationMessage (MsgAutoSynced _ _) _
  | ShowInformationMessage (MsgHaveUpdates _ _) _ => true
  | _ => false
  end.

(** The notifications of [pullProject], about one project. *)
Definition isIndividual (e : Event) : bool :=
  match e with
  | ShowInformationMessage (MsgAutoSyncedProject _) _
  | ShowErrorMessage (MsgFailedToAutoSync _ _) => true
  | _ => false
  end.

(** Reports of a failure: [console.error] and [showErrorMessage]. *)
Definition isErrorReport (e : Event) : bool :=
  match e with
  | ShowErrorMessage _
  | Console (ErrFailedToCheck _ _)
  | Console (ErrCheckingForUpdates _)
  | Console (ErrFailedToPull _ _) => true
  | _ => false
  end.

Definition isSettle (i : Input) : Prop :=
  match i with Settle _ _ _ => True | _ => False end.

Global Instance isSettle_dec i : Decision (isSettle i).
Proof. destruct i; simpl; apply _. Defined.

(** The service holds a reference to its set. *)
Definition hasSet (s : State) : Prop :=
  ∃ elems, heap s !! projectsWithUpdates s = Some (JSSet elems).

(** ** A small workspace for examples *)

Module Scenario.

Definition notifyOnly : AutoSyncConfig :=
  {| cfg_enabled := true; intervalMinutes := 30; autoMerge := false;
     notifyOnUpdates := true; runOnStartup := false |}.

Definition autoMerging : AutoSyncConfig :=
  {| cfg_enabled := true; intervalMinutes := 30; autoMerge := true;
     notifyOnUpdates := true; runOnStartup := false |}.

Definition A : Project :=
  {| name := "A"; folderPath := "/contexts/A"; enabled := true |}.
Definition B : Project :=
  {| name := "B"; folderPath := "/contexts/B"; enabled := true |}.
(** [C] is a plain folder, [D] is a repository that is switched off. *)
Definition C : Project :=
  {| name := "C"; folderPath := "/contexts/C"; enabled := true |}.
Definition D : Project :=
  {| name := "D"; folderPath := "/contexts/D"; enabled := false |}.

Definition world (cfg : AutoSyncConfig) (ps : list Project) : Env :=
  {| config := cfg; projects := ps;
     gitMarker := λ path,
       bool_decide (path ∈ ["/contexts/A"; "/contexts/B"; "/contexts/D"]);
     now := 1000 |}.

(** What [git rev-list --count] prints: a number and a line feed. *)
Definition count (digits : string) : Settled :=
  Fulfilled (digits +:+ String "010"%char "").

Definition ok : Settled := Fulfilled "".

(** Like [notifyOnly], with the check at start-up. *)
Definition startupCheck : AutoSyncConfig :=
  {| cfg_enabled := true; intervalMinutes := 30; autoMerge := false;
     notifyOnUpdates := true; runOnStartup := true |}.

End Scenario.

(** The names of the projects, out of [ps] numbered from [k], for which
    [checkProjectForUpdates] returned true. *)
Fixpoint foundNames (k : nat) (ps : list Project)
    (sched : list (nat * Settled)) : list string :=
  match ps with
  | [] => []
  | p :: ps =>
      (if foundBehind (outcomes k sched) then [name p] else [])
      ++ foundNames (S k) ps sched
  end.

(** The cycle that was started in state [s] has ended in state [s']. *)
Definition cycleEnded (s s' : State) : Prop :=
  ∃ cyc, cycles s' !! length (cycles s) = Some cyc ∧ inFlight cyc = false.

(** In state [s'], callback [t] of the cycle that was started in state [s]
    is the one for project [p] and it has ended. *)
Definition callbackEnded (s s' : State) (t : nat) (p : Project) : Prop :=
  ∃ cyc, cycles s' !! length (cycles s) = Some cyc
         ∧ tasks cyc !! t = Some (p, Finished).



(** ** More on strings *)

(** [s] without the white space character that it starts with. *)
Definition whiteSpacePrefix (s : string) : option string :=
  match s with
  | String a r =>
      if Ascii.is_space a then Some r else
      match r with
      | String b r2 =>
          if isSpace2 a b then Some r2 else
          match r2 with
          | String c r3 => if isSpace3 a b c then Some r3 else None
          | EmptyString => None
          end
      | EmptyString => None
      end
  | EmptyString => None
  end.

(** The string starts with a decimal digit. *)
Definition startsWithDigit (s : string) : bool :=
  match s with
  | String c _ => bool_decide (is_Some (Ascii.is_nat c))
  | EmptyString => false
  end.

(** ** What the states that are reached have in common *)

(** The callback has got the answer of its rev-list. *)
Definition pastRevList (st : Stage) : bool :=
  match st with
  | AwaitFetch | AwaitRevList => false
  | _ => true
  end.

(** Every callback is for an enabled project, and every name in the set is
    the name of the project of a callback that has got the answer of its
    rev-list. *)
Definition pendingChecked (s : State) : Prop :=
  (∀ cyc p st, cyc ∈ cycles s → (p, st) ∈ tasks cyc → enabled p = true)
  ∧ (∀ n, n ∈ pending s →
       ∃ cyc p st, cyc ∈ cycles s ∧ (p, st) ∈ tasks cyc ∧ name p = n
                   ∧ pastRevList st = true).

(** ** Timers and their handles *)

(** A [start()] is suspended on the cycle: it awaits the check at
    start-up and will arm its timer when the cycle ends. *)
Definition startSuspended (cyc : Cycle) : bool :=
  inFlight cyc && match awaiter cyc with
                  | AwaitedByStart _ => true
                  | Detached => false
                  end.

(** Neither a timer handle is held nor a [start()] suspended. *)
Definition stopped (s : State) : bool :=
  bool_decide (intervalId s = None)
  && forallb (λ cyc, negb (startSuspended cyc)) (cycles s).

(** Every [start()] of the run is called in a stopped state. *)
Fixpoint startsWhenStopped (s : State) (inputs : list Input) : bool :=
  match inputs with
  | [] => true
  | i :: inputs =>
      match i with CallStart => stopped s | _ => true end
      && startsWhenStopped (step s i) inputs
  end.

(** The timers that the service can still cancel. *)
Definition handles (s : State) : list nat :=
  match intervalId s with
  | Some id => [id]
  | None => []
  end.

(** The armed timers are the ones the service holds a handle of, and at
    most one [start()] is suspended, and only while no handle is held. *)
Definition oneTimer (s : State) : Prop :=
  (timers s).*1 = handles s
  ∧ (length (List.filter startSuspended (cycles s)) = 0
     ∨ (length (List.filter startSuspended (cycles s)) = 1
        ∧ intervalId s = None)).

(** ** Runs with changes of the surroundings *)




(** ** The command [configureAutoSync] *)

(** The value of a hexadecimal digit. *)
Definition hexDigit (c : ascii) : option nat :=
  match Ascii.is_nat c with
  | Some d => Some d
  | None =>
      let n := nat_of_ascii c in
      if (97 <=? n)%nat && (n <=? 102)%nat then Some (n - 87)
      else if (65 <=? n)%nat && (n <=? 70)%nat then Some (n - 55)
      else None
  end.

Fixpoint leadingHexDigits (acc : option Z) (s : string) : option Z :=
  match s with
  | String c r =>
      match hexDigit c with
      | Some d => leadingHexDigits (Some (16 * default 0 acc + Z.of_nat d)%Z) r
      | None => acc
      end
  | EmptyString => acc
  end.

(** [parseInt(s)] without a radix: after the white space and the sign, the
    prefix [0x] or [0X] selects base 16, otherwise the base is 10. *)
Definition parseIntNoRadix (s : string) : option Z :=
  let unsigned r :=
    match r with
    | String "0"%char (String "x"%char h)
    | String "0"%char (String "X"%char h) => leadingHexDigits None h
    | _ => leadingDigits None r
    end in
  match trimStart s with
  | String "-"%char r => Z.opp <$> unsigned r
  | String "+"%char r => unsigned r
  | r => unsigned r
  end.

(** The [validateInput] of the input box for the interval: [None] stands
    for [null], the value is accepted. *)
Definition validateInterval (value : string) : option string :=
  match parseIntNoRadix value with
  | Some num =>
      if (num <? 5)%Z || (1440 <? num)%Z
      then Some "Enter a number between 5 and 1440"
      else None
  | None => Some "Enter a number between 5 and 1440"
  end.

(** [config.update('intervalMinutes', n, ...)]. *)
Definition updateIntervalMinutes (n : Z) (e : Env) : Env :=
  {| config := {| cfg_enabled := cfg_enabled (config e);
                  intervalMinutes := n;
                  autoMerge := autoMerge (config e);
                  notifyOnUpdates := notifyOnUpdates (config e);
                  runOnStartup := runOnStartup (config e) |};
     projects := projects e; gitMarker := gitMarker e; now := now e |}.

(** The case 'interval' of the command [configureAutoSync], from the
    answer [interval] of the input box on, up to the end of [start()] or to
    its [await]: the new interval is stored and the service is restarted.
    An empty answer is falsy; [None] is the case in which [parseInt] gives
    NaN.  Nothing else is taken to happen while the command awaits
    [config.update], and the message that follows the restart is left
    out. *)
Definition configureInterval (interval : string) (s : State) : option State :=
  match interval with
  | "" => Some s
  | _ =>
      n ← parseIntNoRadix interval;
      Some (start (stop (set_env (updateIntervalMinutes n (env s)) s)))
  end.

(** All characters are decimal digits. *)
Fixpoint allDigits (s : string) : bool :=
  match s with
  | String c r => bool_decide (is_Some (Ascii.is_nat c)) && allDigits r
  | EmptyString => true
  end.

(** ** The listener for changes of the settings *)

(** The listener that [activate] registers with
    [vscode.workspace.onDidChangeConfiguration], up to the end of
    [start()] or to its [await]; the two arguments say what
    [e.affectsConfiguration] answers for ['cursorContexts.autoSync.enabled']
    and for ['cursorContexts.autoSync']. *)
Definition onDidChangeConfiguration (affectsEnabled affectsAutoSync : bool)
    (s : State) : State :=
  if affectsEnabled then
    if cfg_enabled (getConfig s) then start s else stop s
  else if affectsAutoSync then start (stop s)
  else s.

(** ** The files of a project folder

    [getFileCount] and [getProjectFiles] of [src/extension.ts] read the
    file system with [fs.existsSync], [fs.readdirSync] and [fs.statSync].
    What they can see of a folder is a finite tree: [statSync] follows
    links, and says of a path that it is a regular file, a directory or
    something else, or it throws; [readdirSync] gives the names in a
    directory, in some order, or it throws. *)
#[warnings="-register-all"]
Inductive FsNode :=
| FsFile
| FsDir (entries : option (list (string * FsNode)))
| FsOther
| FsNoStat.

(** Induction on such trees. *)
Fixpoint FsNode_induction (P : FsNode → Prop)
    (Hfile : P FsFile) (Hother : P FsOther) (Hnostat : P FsNoStat)
    (Hunreadable : P (FsDir None))
    (Hdir : ∀ entries, Forall (λ e, P e.2) entries → P (FsDir (Some entries)))
    (node : FsNode) : P node :=
  match node as n return P n with
  | FsFile => Hfile
  | FsOther => Hother
  | FsNoStat => Hnostat
  | FsDir entries =>
      match entries as o return P (FsDir o) with
      | None => Hunreadable
      | Some entries =>
          Hdir entries
            ((fix all (l : list (string * FsNode)) : Forall (λ e, P e.2) l :=
                match l with
                | [] => @List.Forall_nil (string * FsNode) (λ e, P e.2)
                | (entry, child) :: l =>
                    @List.Forall_cons (string * FsNode) (λ e, P e.2) (entry, child) l
                      (FsNode_induction P Hfile Hother Hnostat Hunreadable
                         Hdir child)
                      (all l)
                end) entries)
      end
  end.

(** [fs.readdirSync(dir)]; [None] when it throws. *)
Definition readdirSync (dir : FsNode) : option (list (string * FsNode)) :=
  match dir with
  | FsDir entries => entries
  | _ => None
  end.

(** [fs.existsSync(path)]. *)
Definition existsSync (node : FsNode) : bool :=
  match node with
  | FsNoStat => false
  | _ => true
  end.

(** [s.startsWith(p)]. *)
Definition startsWith (s p : string) : bool := String.prefix p s.

(** [path.join(a, b)] for a relative path [a], empty at the top, and a
    name [b] out of a directory, with the separator of POSIX. *)
Definition pathJoin (a b : string) : string :=
  match a with
  | "" => b
  | _ => a +:+ "/" +:+ b
  end.

(** The text from the last dot of [s] on. *)
Fixpoint fromLastDot (s : string) : option string :=
  match s with
  | "" => None
  | String c r =>
      match fromLastDot r with
      | Some ext => Some ext
      | None => if decide (c = "."%char) then Some s else None
      end
  end.

(** [path.extname(name)] for a name out of a directory: the text from the
    last dot on, unless there is no dot, or the last dot is the first
    character, or the name is [..]. *)
Definition extname (name : string) : string :=
  match name with
  | "" => ""
  | String _ r =>
      match fromLastDot r with
      | Some ext => if decide (name = "..") then "" else ext
      | None => ""
      end
  end.

Definition ignoreDirs : list string :=
  [".git"; "node_modules"; ".vscode"; "dist"; "out"; "build"; ".contexts"].

(** The extensions of the files that [getProjectFiles] lists. *)
Definition listedExtensions : list string :=
  [".md"; ".ts"; ".js"; ".tsx"; ".jsx"; ".py"; ".java"; ".c"; ".cpp"; ".h"].

(** The body of the [for] loop of [scanDir] for the entries that are left;
    [files] is the array that all calls of [scanDir] share and [scan] is
    [scanDir] itself.  Whatever [statSync] says, the loop goes on. *)
Definition scanEntries (scan : FsNode → string → list string → list string)
    (maxFiles : Z) (relativePath : string)
    : list (string * FsNode) → list string → list string :=
  fix loop entries files :=
    match entries with
    | [] => files
    | (entry, child) :: entries =>
        if (maxFiles <=? Z.of_nat (length files))%Z then files else
        let relPath := pathJoin relativePath entry in
        let files :=
          match child with
          | FsDir _ =>
              if negb (bool_decide (entry ∈ ignoreDirs))
                 && negb (startsWith entry ".")
              then scan child relPath files else files
          | FsFile =>
              if bool_decide (extname entry ∈ listedExtensions)
              then files ++ [relPath] else files
          | FsOther | FsNoStat => files
          end in
        loop entries files
    end.

(** [scanDir(dir, relativePath)] of [getProjectFiles]; the result is the
    array [files] after the call. *)
Fixpoint scanDir (maxFiles : Z) (dir : FsNode) (relativePath : string)
    (files : list string) : list string :=
  if (maxFiles <=? Z.of_nat (length files))%Z then files else
  match dir with
  | FsDir (Some entries) =>
      scanEntries (scanDir maxFiles) maxFiles relativePath entries files
  | _ => files
  end.

(** [getProjectFiles(folderPath, maxFiles)]. *)
Definition getProjectFiles (folder : FsNode) (maxFiles : Z) : list string :=
  scanDir maxFiles folder "" [].

(** [Array.prototype.filter] with a callback that can throw. *)
Fixpoint filterThrowing {A} (f : A → option bool) (l : list A)
    : option (list A) :=
  match l with
  | [] => Some []
  | x :: l =>
      keep ← f x;
      rest ← filterThrowing f l;
      Some (if keep : bool then x :: rest else rest)
  end.

(** [statSync(filePath).isFile()]; [None] when [statSync] throws. *)
Definition isFile (node : FsNode) : option bool :=
  match node with
  | FsFile => Some true
  | FsNoStat => None
  | _ => Some false
  end.

(** [getFileCount(folderPath)]. *)
Definition getFileCount (folder : FsNode) : nat :=
  if negb (existsSync folder) then 0 else
  match readdirSync folder with
  | Some files =>
      match filterThrowing
              (λ file, regular ← isFile file.2;
                       Some (regular && negb (startsWith file.1 "."))) files
      with
      | Some kept => length kept
      | None => 0
      end
  | None => 0
  end.

(** The files that [getProjectFiles] is after, in the order of a walk
    without limit: first what the entries of a directory contribute, one
    after the other. *)
Definition listEntries (walk : FsNode → string → list string)
    (relativePath : string) : list (string * FsNode) → list string :=
  fix each entries :=
    match entries with
    | [] => []
    | (entry, child) :: entries =>
        match child with
        | FsDir _ =>
            if negb (bool_decide (entry ∈ ignoreDirs))
               && negb (startsWith entry ".")
            then walk child (pathJoin relativePath entry) else []
        | FsFile =>
            if bool_decide (extname entry ∈ listedExtensions)
            then [pathJoin relativePath entry] else []
        | FsOther | FsNoStat => []
        end ++ each entries
    end.

Fixpoint listing (dir : FsNode) (relativePath : string) : list string :=
  match dir with
  | FsDir (Some entries) => listEntries listing relativePath entries
  | _ => []
  end.

(** [Listed dir relativePath path]: [path] is [relativePath] followed by
    the names on the way from [dir] down to a regular file with a listed
    extension, through directories that are neither ignored nor hidden. *)
Inductive Listed : FsNode → string → string → Prop :=
| Listed_file entries relativePath entry :
    (entry, FsFile) ∈ entries →
    extname entry ∈ listedExtensions →
    Listed (FsDir (Some entries)) relativePath (pathJoin relativePath entry)
| Listed_below entries relativePath entry sub path :
    (entry, FsDir sub) ∈ entries →
    entry ∉ ignoreDirs → startsWith entry "." = false →
    Listed (FsDir sub) (pathJoin relativePath entry) path →
    Listed (FsDir (Some entries)) relativePath path.

Module Folder.

(** A project folder: two sources, notes, a picture, a hidden folder, the
    packages, and a link that points nowhere. *)
Definition src : FsNode :=
  FsDir (Some [("main.ts", FsFile); ("util.js", FsFile);
               ("logo.png", FsFile)]).

Definition project : FsNode :=
  FsDir (Some [("README.md", FsFile); ("src", src);
               (".git", FsDir (Some [("config.js", FsFile)]));
               ("node_modules", FsDir (Some [("x.js", FsFile)]));
               ("broken", FsNoStat); (".env.ts", FsFile);
               ("locked", FsDir None)]).

End Folder.

(** ** GitHub addresses

    [parseGitHubUrl] of [src/githubIntegration.ts], which the command
    [cloneFromGitHub] uses to check and to read the address that the user
    enters, matches the address against three regular expressions.  They
    are anchored at both ends and made of three kinds of pieces. *)
Inductive Token :=
| Literal (text : string)
| CaptureNoneOf (excluded : list ascii)
| OptionalGroup (text : string).

(** [s] without its prefix [p]; [None] when [p] is no prefix of [s]. *)
Fixpoint stripPrefix (p s : string) : option string :=
  match p, s with
  | "", _ => Some s
  | String a p, String b s => if decide (a = b) then stripPrefix p s else None
  | String _ _, "" => None
  end.

(** The capture group [([^...]+)] followed by the rest [k] of the
    expression: the group takes the longest run of characters that are not
    excluded, at least one, and gives characters back while the rest does
    not match.  [acc] is what the group has taken so far. *)
Fixpoint captureRun (k : string → option (list string))
    (excluded : list ascii) (input acc : string) : option (list string) :=
  match input with
  | String c rest =>
      if bool_decide (c ∈ excluded) then None else
      match captureRun k excluded rest (acc +:+ String c "") with
      | Some captures => Some captures
      | None => (λ captures, (acc +:+ String c "") :: captures) <$> k rest
      end
  | "" => None
  end.

(** [input.match(/^...$/)]: the captures of the groups [([^...]+)], in
    order, when the whole input matches. *)
Fixpoint matchTokens (tokens : list Token) (input : string)
    : option (list string) :=
  match tokens with
  | [] => if decide (input = "") then Some [] else None
  | Literal text :: tokens =>
      rest ← stripPrefix text input; matchTokens tokens rest
  | CaptureNoneOf excluded :: tokens =>
      captureRun (matchTokens tokens) excluded input ""
  | OptionalGroup text :: tokens =>
      match rest ← stripPrefix text input; matchTokens tokens rest with
      | Some captures => Some captures
      | None => matchTokens tokens input
      end
  end.

(** [/^prefix([^\/]+)\/([^\/\.]+)(\.git)?$/]. *)
Definition repositoryPattern (prefix : string) : list Token :=
  [Literal prefix; CaptureNoneOf ["/"%char]; Literal "/";
   CaptureNoneOf ["/"%char; "."%char]; OptionalGroup ".git"].

Definition patterns : list (list Token) :=
  [repositoryPattern "https://github.com/";
   repositoryPattern "git@github.com:";
   repositoryPattern "https://www.github.com/"].

Record RepoInfo := {
  owner : string;
  repo : string;
  fullName : string
}.

(** The loop over the patterns. *)
Fixpoint firstMatch (patterns : list (list Token)) (url : string)
    : option RepoInfo :=
  match patterns with
  | [] => None
  | pattern :: patterns =>
      match matchTokens pattern url with
      | Some [owner; repo] =>
          Some {| owner := owner; repo := repo;
                  fullName := owner +:+ "/" +:+ repo |}
      | _ => firstMatch patterns url
      end
  end.

(** [parseGitHubUrl(url)]; [None] stands for [null]. *)
Definition parseGitHubUrl (url : string) : option RepoInfo :=
  firstMatch patterns url.

(** No character of [s] is among [excluded]. *)
Fixpoint noneOf (excluded : list ascii) (s : string) : bool :=
  match s with
  | String c r => negb (bool_decide (c ∈ excluded)) && noneOf excluded r
  | "" => true
  end.

(** * Properties *)

(** Closed goals about concrete runs are settled by evaluation. *)
Ltac by_evaluation :=
  vm_compute; first [reflexivity | discriminate | exact I].

(** ** What the pieces of the service change *)

Lemma pending_setPending elems s : pending (setPending elems s) = elems.
Proof. unfold pending, setPending; simpl. by rewrite lookup_insert_eq. Qed.

Lemma pending_emit evs s : pending (emit evs s) = pending s.
Proof. reflexivity. Qed.

Lemma pending_set_cycles cs s : pending (set_cycles cs s) = pending s.
Proof. reflexivity. Qed.

Lemma pending_updateStatusBar s : pending (updateStatusBar s) = pending s.
Proof. unfold updateStatusBar. by repeat case_match. Qed.

Lemma trace_updateStatusBar s : trace (updateStatusBar s) = trace s.
Proof. unfold updateStatusBar. by repeat case_match. Qed.

Lemma cycles_updateStatusBar s : cycles (updateStatusBar s) = cycles s.
Proof. unfold updateStatusBar. by repeat case_match. Qed.

Lemma heap_updateStatusBar s : heap (updateStatusBar s) = heap s.
Proof. unfold updateStatusBar. by repeat case_match. Qed.

Lemma env_updateStatusBar s : env (updateStatusBar s) = env s.
Proof. unfold updateStatusBar. by repeat case_match. Qed.

Lemma resume_frame aw s :
  heap (resume aw s) = heap s ∧ cycles (resume aw s) = cycles s
  ∧ env (resume aw s) = env s ∧ lastCheckTime (resume aw s) = lastCheckTime s
  ∧ projectsWithUpdates (resume aw s) = projectsWithUpdates s
  ∧ trace (resume aw s) = trace s ++ resumeEvents aw.
Proof.
  destruct aw as [|cfg]; simpl; [by rewrite app_nil_r|].
  unfold startArm, updateStatusBar; simpl. by repeat case_match.
Qed.

Lemma finishCycle_frame cyc s :
  heap (finishCycle cyc s) = heap s ∧ cycles (finishCycle cyc s) = cycles s
  ∧ env (finishCycle cyc s) = env s
  ∧ lastCheckTime (finishCycle cyc s) = lastCheckTime s
  ∧ projectsWithUpdates (finishCycle cyc s) = projectsWithUpdates s
  ∧ trace (finishCycle cyc s) = trace s ++ finishEvents cyc (pending s).
Proof.
  unfold finishCycle, finishEvents.
  set (s1 := if _ && _ then _ else s).
  assert (heap s1 = heap s ∧ cycles s1 = cycles s ∧ env s1 = env s
          ∧ lastCheckTime s1 = lastCheckTime s
          ∧ projectsWithUpdates s1 = projectsWithUpdates s
          ∧ trace s1 = trace s ++
              (if bool_decide (0 < updatesFound cyc) && notifyOnUpdates (cyc_config cyc)
               then [updatesNotification (updatesFound cyc)
                       (autoMerge (cyc_config cyc)) (pending s)] else []))
    as (Hh & Hc & He & Hl & Hp & Ht).
  { subst s1. case_match; simpl; [done|by rewrite app_nil_r]. }
  destruct (resume_frame (awaiter cyc) (updateStatusBar s1))
    as (Hh' & Hc' & He' & Hl' & Hp' & Ht').
  rewrite Hh', Hc', He', Hl', Hp', Ht'.
  rewrite heap_updateStatusBar, cycles_updateStatusBar, env_updateStatusBar,
    trace_updateStatusBar, Ht, <- (assoc_L (++)).
  repeat split; try done.
  - unfold updateStatusBar. by repeat case_match.
  - unfold updateStatusBar. by repeat case_match.
Qed.

Lemma pending_heap s s' :
  heap s' = heap s → projectsWithUpdates s' = projectsWithUpdates s →
  pending s' = pending s.
Proof. unfold pending. by intros -> ->. Qed.

Lemma allFinished_lookup ts t p st :
  allFinished ts = true → ts !! t = Some (p, st) → st = Finished.
Proof.
  unfold allFinished. rewrite forallb_forall. intros Hall Ht.
  apply list_elem_of_lookup_2, list_elem_of_In, Hall in Ht. by destruct st.
Qed.

Lemma allFinished_active ts t p st :
  ts !! t = Some (p, st) → isFinished st = false → allFinished ts = false.
Proof.
  intros Ht Hst. destruct (allFinished ts) eqn:Hall; [|done].
  by rewrite (allFinished_lookup _ _ _ _ Hall Ht) in Hst.
Qed.

(** A settlement for a callback that does not exist or has ended changes
    nothing. *)
Lemma settle_idle s c t r cyc :
  cycles s !! c = Some cyc →
  (tasks cyc !! t = None ∨ ∃ p, tasks cyc !! t = Some (p, Finished)) →
  settle c t r s = s.
Proof.
  intros Hc [Ht|[p Ht]]; unfold settle; by rewrite Hc, Ht.
Qed.

(** A settlement for a suspended callback. *)
Lemma settle_active s c t r cyc p st :
  cycles s !! c = Some cyc → tasks cyc !! t = Some (p, st) →
  isFinished st = false →
  let am := autoMerge (cyc_config cyc) in
  let st' := (taskStep am p st r).1.1 in
  let found := (taskStep am p st r).1.2 in
  let evs := (taskStep am p st r).2 in
  let cyc' := {| cyc_config := cyc_config cyc;
                 tasks := <[t := (p, st')]> (tasks cyc);
                 updatesFound := if found then S (updatesFound cyc)
                                 else updatesFound cyc;
                 awaiter := awaiter cyc |} in
  let s' := settle c t r s in
  cycles s' = <[c := cyc']> (cycles s)
  ∧ pending s' = (if found then setAdd (name p) (pending s) else pending s)
  ∧ trace s' = trace s ++ evs ++
      (if allFinished (tasks cyc') then finishEvents cyc' (pending s') else [])
  ∧ env s' = env s ∧ lastCheckTime s' = lastCheckTime s
  ∧ projectsWithUpdates s' = projectsWithUpdates s.
Proof.
  intros Hc Ht Hst am st' found evs cyc' s'.
  subst s'. unfold settle. rewrite Hc, Ht, Hst. fold am.
  destruct (taskStep am p st r) as [[st1 f1] evs1] eqn:Hstep.
  subst st' found evs cyc'. simpl.
  set (s1 := if f1 then setPending _ s else s).
  set (cyc' := Build_Cycle _ _ _ _).
  assert (pending s1 = (if f1 then setAdd (name p) (pending s) else pending s)
          ∧ cycles s1 = cycles s ∧ trace s1 = trace s ∧ env s1 = env s
          ∧ lastCheckTime s1 = lastCheckTime s
          ∧ projectsWithUpdates s1 = projectsWithUpdates s)
    as (Hp1 & Hc1 & Ht1 & He1 & Hl1 & Hw1).
  { subst s1. destruct f1; [|done]. by rewrite pending_setPending. }
  destruct (allFinished (<[t:=(p, st1)]> (tasks cyc))) eqn:Hall.
  - match goal with |- context [finishCycle cyc' ?x] => set (s2 := x) end.
    destruct (finishCycle_frame cyc' s2) as (Hh & Hcy & He & Hl & Hw & Htr).
    rewrite Hcy, Htr, He, Hl, Hw, (pending_heap _ _ Hh Hw).
    subst s2; simpl. rewrite pending_set_cycles, pending_emit, Hp1.
    by rewrite Hc1, Ht1, He1, Hl1, Hw1, <- (assoc_L (++)).
  - simpl. rewrite pending_set_cycles, pending_emit, Hp1.
    by rewrite Hc1, Ht1, He1, Hl1, Hw1, app_nil_r.
Qed.

(** ** Counting effects *)

Lemma countEv_app f evs1 evs2 :
  countEv f (evs1 ++ evs2) = countEv f evs1 + countEv f evs2.
Proof. induction evs1 as [|e evs1 IH]; simpl; [done|]. rewrite IH. lia. Qed.

Lemma countEv_Permutation f evs1 evs2 :
  evs1 ≡ₚ evs2 → countEv f evs1 = countEv f evs2.
Proof. induction 1; simpl; lia. Qed.

Lemma countEv_elem f evs e : e ∈ evs → f e = true → 0 < countEv f evs.
Proof.
  induction 1 as [e evs|e e' evs _ IH]; simpl; intros He.
  - rewrite He. lia.
  - specialize (IH He). lia.
Qed.

(** ** The callbacks of a cycle, one settlement at a time *)

Lemma outcomes_here t r sched :
  outcomes t ((t, r) :: sched) = r :: outcomes t sched.
Proof. unfold outcomes; simpl. by rewrite decide_True. Qed.

Lemma outcomes_other t t' r sched :
  t' ≠ t → outcomes t ((t', r) :: sched) = outcomes t sched.
Proof. intros Hne. unfold outcomes; simpl. by rewrite decide_False. Qed.

Local Arguments outcomes : simpl never.

Lemma stagesAfter_other am k ts t r sched :
  t < k → stagesAfter am k ts ((t, r) :: sched) = stagesAfter am k ts sched.
Proof.
  revert k. induction ts as [|[p st] ts IH]; intros k Hk; simpl; [done|].
  rewrite outcomes_other by lia. by rewrite IH by lia.
Qed.

Lemma taskFound_other am k ts t r sched :
  t < k → taskFound am k ts ((t, r) :: sched) = taskFound am k ts sched.
Proof.
  revert k. induction ts as [|[p st] ts IH]; intros k Hk; simpl; [done|].
  rewrite outcomes_other by lia. by rewrite IH by lia.
Qed.

Lemma taskEvents_other am k ts t r sched :
  t < k → taskEvents am k ts ((t, r) :: sched) = taskEvents am k ts sched.
Proof.
  revert k. induction ts as [|[p st] ts IH]; intros k Hk; simpl; [done|].
  rewrite outcomes_other by lia. by rewrite IH by lia.
Qed.

Lemma stagesAfter_miss am k ts t r sched :
  ts !! t = None →
  stagesAfter am k ts ((k + t, r) :: sched) = stagesAfter am k ts sched.
Proof.
  revert k t. induction ts as [|[p st] ts IH]; intros k t Ht; simpl; [done|].
  destruct t as [|t]; [done|]. simpl in Ht.
  rewrite outcomes_other by lia.
  replace (k + S t) with (S k + t) by lia. by rewrite IH.
Qed.

Lemma taskFound_miss am k ts t r sched :
  ts !! t = None →
  taskFound am k ts ((k + t, r) :: sched) = taskFound am k ts sched.
Proof.
  revert k t. induction ts as [|[p st] ts IH]; intros k t Ht; simpl; [done|].
  destruct t as [|t]; [done|]. simpl in Ht.
  rewrite outcomes_other by lia.
  replace (k + S t) with (S k + t) by lia. by rewrite IH.
Qed.

Lemma taskEvents_miss am k ts t r sched :
  ts !! t = None →
  taskEvents am k ts ((k + t, r) :: sched) = taskEvents am k ts sched.
Proof.
  revert k t. induction ts as [|[p st] ts IH]; intros k t Ht; simpl; [done|].
  destruct t as [|t]; [done|]. simpl in Ht.
  rewrite outcomes_other by lia.
  replace (k + S t) with (S k + t) by lia. by rewrite IH.
Qed.

(** One settlement moves one callback and leaves the others alone. *)
Lemma stagesAfter_step am k ts t p st r sched :
  ts !! t = Some (p, st) →
  stagesAfter am k ts ((k + t, r) :: sched)
  = stagesAfter am k (<[t := (p, (taskStep am p st r).1.1)]> ts) sched.
Proof.
  revert k t. induction ts as [|[q sq] ts IH]; intros k t Ht; [done|].
  destruct t as [|t]; simpl in *.
  - injection Ht as -> ->. rewrite Nat.add_0_r, outcomes_here; simpl.
    by rewrite stagesAfter_other by lia.
  - rewrite outcomes_other by lia.
    replace (k + S t) with (S k + t) by lia. by rewrite (IH _ _ Ht).
Qed.

Lemma taskFound_step am k ts t p st r sched :
  ts !! t = Some (p, st) →
  taskFound am k ts ((k + t, r) :: sched)
  = (if (taskStep am p st r).1.2 then 1 else 0)
    + taskFound am k (<[t := (p, (taskStep am p st r).1.1)]> ts) sched.
Proof.
  revert k t. induction ts as [|[q sq] ts IH]; intros k t Ht; [done|].
  destruct t as [|t]; simpl in *.
  - injection Ht as -> ->. rewrite Nat.add_0_r, outcomes_here; simpl.
    rewrite taskFound_other by lia. lia.
  - rewrite outcomes_other by lia.
    replace (k + S t) with (S k + t) by lia. rewrite (IH _ _ Ht). lia.
Qed.

Lemma taskEvents_step am k ts t p st r sched :
  ts !! t = Some (p, st) →
  taskEvents am k ts ((k + t, r) :: sched)
  ≡ₚ (taskStep am p st r).2
     ++ taskEvents am k (<[t := (p, (taskStep am p st r).1.1)]> ts) sched.
Proof.
  revert k t. induction ts as [|[q sq] ts IH]; intros k t Ht; [done|].
  destruct t as [|t]; simpl in *.
  - injection Ht as -> ->. rewrite Nat.add_0_r, outcomes_here; simpl.
    rewrite taskEvents_other by lia. by rewrite (assoc_L (++)).
  - rewrite outcomes_other by lia.
    replace (k + S t) with (S k + t) by lia. rewrite (IH _ _ Ht).
    by rewrite !(assoc_L (++)), (comm (++) (eventsOf _ _ _ _)).
Qed.

(** Callbacks that have ended stay as they are. *)
Lemma stageAfter_Finished am p outs : stageAfter am p Finished outs = Finished.
Proof. induction outs; simpl; auto. Qed.

Lemma foundCount_Finished am p outs : foundCount am p Finished outs = 0.
Proof. induction outs; simpl; auto. Qed.

Lemma eventsOf_Finished am p outs : eventsOf am p Finished outs = [].
Proof. induction outs; simpl; auto. Qed.

Lemma allFinished_cons p st ts :
  allFinished ((p, st) :: ts) = true → st = Finished ∧ allFinished ts = true.
Proof.
  unfold allFinished; simpl. intros [Hst Hts]%andb_true_iff.
  by destruct st.
Qed.

Lemma stagesAfter_allFinished am k ts sched :
  allFinished ts = true → stagesAfter am k ts sched = ts.
Proof.
  revert k. induction ts as [|[p st] ts IH]; intros k Hall; simpl; [done|].
  apply allFinished_cons in Hall as [-> Hall].
  by rewrite stageAfter_Finished, IH.
Qed.

Lemma taskFound_allFinished am k ts sched :
  allFinished ts = true → taskFound am k ts sched = 0.
Proof.
  revert k. induction ts as [|[p st] ts IH]; intros k Hall; simpl; [done|].
  apply allFinished_cons in Hall as [-> Hall].
  by rewrite foundCount_Finished, IH.
Qed.

Lemma taskEvents_allFinished am k ts sched :
  allFinished ts = true → taskEvents am k ts sched = [].
Proof.
  revert k. induction ts as [|[p st] ts IH]; intros k Hall; simpl; [done|].
  apply allFinished_cons in Hall as [-> Hall].
  by rewrite eventsOf_Finished, IH.
Qed.

(** ** A cycle under an arbitrary schedule *)

Lemma stagesAfter_nil am k ts : stagesAfter am k ts [] = ts.
Proof.
  revert k. induction ts as [|[p st] ts IH]; intros k; simpl; [done|].
  by rewrite IH.
Qed.

Lemma taskFound_nil am k ts : taskFound am k ts [] = 0.
Proof.
  revert k. induction ts as [|[p st] ts IH]; intros k; simpl; [done|].
  by rewrite IH.
Qed.

Lemma taskEvents_nil am k ts : taskEvents am k ts [] = [].
Proof.
  revert k. induction ts as [|[p st] ts IH]; intros k; simpl; [done|].
  by rewrite IH.
Qed.

Lemma cycleAfter_nil cyc : cycleAfter cyc [] = cyc.
Proof.
  destruct cyc as [cfg ts u aw]. unfold cycleAfter; simpl.
  by rewrite stagesAfter_nil, taskFound_nil, Nat.add_0_r.
Qed.

Lemma cycleAfter_allFinished cyc sched :
  allFinished (tasks cyc) = true → cycleAfter cyc sched = cyc.
Proof.
  intros Hall. destruct cyc as [cfg ts u aw]. unfold cycleAfter; simpl in *.
  by rewrite stagesAfter_allFinished, taskFound_allFinished, Nat.add_0_r.
Qed.

(** Settlements for a cycle that has ended change nothing. *)
Lemma run_settles_finished s c cyc sched :
  cycles s !! c = Some cyc → allFinished (tasks cyc) = true →
  run s (settles c sched) = s.
Proof.
  intros Hc Hall. unfold run.
  induction sched as [|[t r] sched IH]; simpl; [done|].
  rewrite (settle_idle _ _ _ _ _ Hc); [done|].
  destruct (tasks cyc !! t) as [[p st]|] eqn:Ht; [right|by left].
  exists p. by rewrite <- (allFinished_lookup _ _ _ _ Hall Ht).
Qed.

(** The cycle record after one settlement for a suspended callback. *)
Lemma cycleAfter_step cyc t p st r sched :
  tasks cyc !! t = Some (p, st) →
  let am := autoMerge (cyc_config cyc) in
  cycleAfter
    {| cyc_config := cyc_config cyc;
       tasks := <[t := (p, (taskStep am p st r).1.1)]> (tasks cyc);
       updatesFound := if (taskStep am p st r).1.2 then S (updatesFound cyc)
                       else updatesFound cyc;
       awaiter := awaiter cyc |} sched
  = cycleAfter cyc ((t, r) :: sched).
Proof.
  intros Ht am. unfold cycleAfter; simpl. fold am.
  pose proof (stagesAfter_step am 0 _ _ _ _ r sched Ht) as Hst.
  pose proof (taskFound_step am 0 _ _ _ _ r sched Ht) as Hfd.
  change (0 + t) with t in Hst, Hfd. rewrite <- Hst, Hfd.
  f_equal. destruct (taskStep am p st r).1.2; lia.
Qed.

(** The main lemma about one cycle: whatever the order in which the awaited
    operations settle, every callback ends up where it would alone, the
    counter holds the number of callbacks that found their project behind,
    and the effects are an interleaving of the effects of the callbacks,
    followed, when the cycle ends, by those of the end of the cycle. *)
Lemma cycle_run sched : ∀ s c cyc,
  cycles s !! c = Some cyc →
  let s' := run s (settles c sched) in
  let cyc' := cycleAfter cyc sched in
  cycles s' = <[c := cyc']> (cycles s)
  ∧ (∃ evs, trace s' = trace s ++ evs
      ∧ evs ≡ₚ taskEvents (autoMerge (cyc_config cyc)) 0 (tasks cyc) sched
               ++ (if inFlight cyc && allFinished (tasks cyc')
                   then finishEvents cyc' (pending s') else []))
  ∧ env s' = env s ∧ lastCheckTime s' = lastCheckTime s
  ∧ projectsWithUpdates s' = projectsWithUpdates s.
Proof.
  induction sched as [|[t r] sched IH]; intros s c cyc Hc s' cyc';
    subst s' cyc'.
  - change (run s (settles c [])) with s.
    rewrite cycleAfter_nil, taskEvents_nil, list_insert_id by done.
    repeat split; try done. exists []. rewrite app_nil_r. split; [done|].
    unfold inFlight. by destruct (allFinished (tasks cyc)).
  - change (run s (settles c ((t, r) :: sched)))
      with (run (settle c t r s) (settles c sched)).
    destruct (tasks cyc !! t) as [[p st]|] eqn:Ht;
      [destruct (isFinished st) eqn:Hst|].
    + (* the callback has ended *)
      destruct st; try done.
      rewrite (settle_idle _ _ _ _ _ Hc) by eauto.
      destruct (IH s c cyc Hc) as (Hcy & (evs & Htr & Hperm) & Hrest).
      pose proof (cycleAfter_step cyc t p Finished r sched Ht) as Hstep.
      simpl in Hstep. rewrite list_insert_id in Hstep by done.
      assert (cycleAfter cyc sched = cycleAfter cyc ((t, r) :: sched)) as <-.
      { rewrite <- Hstep. by destruct cyc. }
      split; [done|]. split; [|done]. exists evs. split; [done|].
      rewrite Hperm. f_equiv.
      pose proof (taskEvents_step (autoMerge (cyc_config cyc)) 0 _ _ _ _ r
                    sched Ht) as Hev.
      change (0 + t) with t in Hev. simpl in Hev.
      rewrite list_insert_id in Hev by done. by rewrite Hev.
    + (* a suspended callback is resumed *)
      destruct (settle_active s c t r cyc p st Hc Ht Hst)
        as (Hcy1 & Hp1 & Htr1 & He1 & Hl1 & Hw1).
      set (am := autoMerge (cyc_config cyc)) in *.
      set (cyc1 := Build_Cycle _ _ _ _) in *.
      set (s1 := settle c t r s) in *.
      assert (cycles s1 !! c = Some cyc1) as Hc1.
      { rewrite Hcy1. apply list_lookup_insert_eq. by eapply lookup_lt_Some. }
      destruct (IH s1 c cyc1 Hc1) as (Hcy & (evs & Htr & Hperm) & He & Hl & Hw).
      pose proof (cycleAfter_step cyc t p st r sched Ht) as Hstep.
      change (cycleAfter cyc1 sched = cycleAfter cyc ((t, r) :: sched)) in Hstep.
      rewrite <- Hstep.
      rewrite Hcy, Hcy1, list_insert_insert_eq, He, Hl, Hw.
      repeat split; try done.
      pose proof (allFinished_active _ _ _ _ Ht Hst) as Hfl.
      pose proof (taskEvents_step am 0 _ _ _ _ r sched Ht) as Hev.
      change (0 + t) with t in Hev.
      destruct (allFinished (tasks cyc1)) eqn:Hall.
      * (* it was the last one: the cycle ends *)
        rewrite (run_settles_finished _ _ _ _ Hc1 Hall) in *.
        rewrite (cycleAfter_allFinished _ _ Hall) in *.
        rewrite (taskEvents_allFinished _ _ _ _ Hall) in Hperm.
        unfold inFlight in *. rewrite Hall in Hperm. rewrite Hfl, Hall.
        simpl in Hperm. apply Permutation_nil_r in Hperm as ->.
        eexists. split; [by rewrite Htr, Htr1, <- !(assoc_L (++))|].
        rewrite !app_nil_r, Hev. simpl.
        by rewrite (taskEvents_allFinished _ _ _ _ Hall), app_nil_r.
      * unfold inFlight in *. rewrite Hall in Hperm. rewrite Hfl.
        simpl in Hperm. simpl negb. rewrite app_nil_r in Htr1.
        eexists. split; [by rewrite Htr, Htr1, <- !(assoc_L (++))|].
        by rewrite Hperm, Hev, (assoc_L (++)).
    + (* no such callback *)
      rewrite (settle_idle _ _ _ _ _ Hc) by eauto.
      destruct (IH s c cyc Hc) as (Hcy & (evs & Htr & Hperm) & Hrest).
      assert (cycleAfter cyc sched = cycleAfter cyc ((t, r) :: sched)) as <-.
      { unfold cycleAfter.
        by rewrite (stagesAfter_miss _ 0 _ _ r sched Ht),
          (taskFound_miss _ 0 _ _ r sched Ht). }
      split; [done|]. split; [|done]. exists evs. split; [done|].
      by rewrite (taskEvents_miss _ 0 _ _ r sched Ht).
Qed.

(** ** The set of pending projects under an arbitrary schedule *)

Lemma elem_of_setAdd n x l : n ∈ setAdd x l ↔ n = x ∨ n ∈ l.
Proof.
  unfold setAdd. case_decide as Hx.
  - split; [by right|]. by intros [->|?].
  - rewrite elem_of_app, list_elem_of_singleton. tauto.
Qed.

Lemma NoDup_setAdd x l : NoDup l → NoDup (setAdd x l).
Proof.
  intros Hl. unfold setAdd. case_decide; [done|].
  apply NoDup_app. split_and!; [done| |apply NoDup_singleton].
  intros y Hy ->%list_elem_of_singleton. done.
Qed.

Lemma foundCount_cons am p st r outs :
  foundCount am p st (r :: outs)
  = (if (taskStep am p st r).1.2 then 1 else 0)
    + foundCount am p (taskStep am p st r).1.1 outs.
Proof. reflexivity. Qed.

(** A name is in the set after the settlements exactly when it was there
    before or some callback for a project of that name found it behind. *)
Lemma cycle_run_pending sched : ∀ s c cyc n,
  cycles s !! c = Some cyc →
  n ∈ pending (run s (settles c sched))
  ↔ n ∈ pending s
    ∨ ∃ t p st, tasks cyc !! t = Some (p, st) ∧ name p = n
        ∧ 0 < foundCount (autoMerge (cyc_config cyc)) p st (outcomes t sched).
Proof.
  induction sched as [|[t r] sched IH]; intros s c cyc n Hc.
  - change (run s (settles c [])) with s. split; [auto|].
    intros [?|(t & p & st & _ & _ & Hf)]; [done|]. simpl in Hf. lia.
  - change (run s (settles c ((t, r) :: sched)))
      with (run (settle c t r s) (settles c sched)).
    destruct (tasks cyc !! t) as [[p st]|] eqn:Ht;
      [destruct (isFinished st) eqn:Hst|].
    + destruct st; try done.
      rewrite (settle_idle _ _ _ _ _ Hc) by eauto.
      rewrite (IH s c cyc n Hc). apply or_iff_compat_l.
      split; intros (t' & p' & st' & Ht' & Hn & Hf); exists t', p', st';
        (split_and!; [done..|]); destruct (decide (t = t')) as [<-|Hne].
      * rewrite Ht in Ht'. injection Ht' as <- <-.
        rewrite foundCount_Finished in Hf. lia.
      * by rewrite outcomes_other.
      * rewrite Ht in Ht'. injection Ht' as <- <-.
        rewrite foundCount_Finished in Hf. lia.
      * by rewrite outcomes_other in Hf.
    + destruct (settle_active s c t r cyc p st Hc Ht Hst)
        as (Hcy1 & Hp1 & _).
      set (am := autoMerge (cyc_config cyc)) in *.
      set (cyc1 := Build_Cycle _ _ _ _) in *.
      set (s1 := settle c t r s) in *.
      assert (cycles s1 !! c = Some cyc1) as Hc1.
      { rewrite Hcy1. apply list_lookup_insert_eq. by eapply lookup_lt_Some. }
      assert (t < length (tasks cyc)) as Hlen by by eapply lookup_lt_Some.
      rewrite (IH s1 c cyc1 n Hc1), Hp1.
      change (autoMerge (cyc_config cyc1)) with am.
      change (tasks cyc1) with (<[t:=(p, (taskStep am p st r).1.1)]> (tasks cyc)).
      split.
      * intros [Hn|(t' & p' & st' & Ht' & Hn & Hf)].
        -- destruct (taskStep am p st r).1.2 eqn:Hfd; [|by left].
           apply elem_of_setAdd in Hn as [->|Hn]; [right|by left].
           exists t, p, st. split_and!; [done..|].
           rewrite outcomes_here, foundCount_cons, Hfd. lia.
        -- right. destruct (decide (t = t')) as [<-|Hne].
           ++ rewrite list_lookup_insert_eq in Ht' by done.
              injection Ht' as <- <-. exists t, p, st. split_and!; [done..|].
              rewrite outcomes_here, foundCount_cons. lia.
           ++ rewrite list_lookup_insert_ne in Ht' by done.
              exists t', p', st'. by rewrite outcomes_other.
      * intros [Hn|(t' & p' & st' & Ht' & Hn & Hf)].
        -- left. destruct (taskStep am p st r).1.2; [|done].
           apply elem_of_setAdd. by right.
        -- destruct (decide (t = t')) as [<-|Hne].
           ++ rewrite Ht in Ht'. injection Ht' as <- <-.
              rewrite outcomes_here, foundCount_cons in Hf.
              destruct (taskStep am p st r).1.2 eqn:Hfd.
              ** left. apply elem_of_setAdd. by left.
              ** right. exists t, p, (taskStep am p st r).1.1.
                 rewrite list_lookup_insert_eq by done. split_and!; [done..|].
                 lia.
           ++ right. exists t', p', st'.
              rewrite list_lookup_insert_ne by done.
              by rewrite outcomes_other in Hf.
    + rewrite (settle_idle _ _ _ _ _ Hc) by eauto.
      rewrite (IH s c cyc n Hc). apply or_iff_compat_l.
      split; intros (t' & p' & st' & Ht' & Hn & Hf); exists t', p', st';
        (split_and!; [done..|]); destruct (decide (t = t')) as [<-|Hne];
        try congruence.
      * by rewrite outcomes_other.
      * by rewrite outcomes_other in Hf.
Qed.

Lemma settle_NoDup c t r s :
  NoDup (pending s) → NoDup (pending (settle c t r s)).
Proof.
  intros Hnd.
  destruct (cycles s !! c) as [cyc|] eqn:Hc;
    [|by unfold settle; rewrite Hc].
  destruct (tasks cyc !! t) as [[p st]|] eqn:Ht;
    [destruct (isFinished st) eqn:Hst|].
  - destruct st; try done. by rewrite (settle_idle _ _ _ _ _ Hc) by eauto.
  - destruct (settle_active s c t r cyc p st Hc Ht Hst) as (_ & -> & _).
    case_match; [by apply NoDup_setAdd|done].
  - by rewrite (settle_idle _ _ _ _ _ Hc) by eauto.
Qed.

Lemma cycle_run_NoDup sched : ∀ s c,
  NoDup (pending s) → NoDup (pending (run s (settles c sched))).
Proof.
  induction sched as [|[t r] sched IH]; intros s c Hnd; [done|].
  apply (IH (settle c t r s)). by apply settle_NoDup.
Qed.

(** ** The start of a cycle *)

Lemma checkForUpdates_none aw s :
  gitProjects (env s) = [] →
  let s' := checkForUpdates aw s in
  pending s' = [] ∧ cycles s' = cycles s
  ∧ trace s' = trace s ++ Console LogNoGitProjects :: resumeEvents aw
  ∧ env s' = env s ∧ lastCheckTime s' = Some (now (env s)).
Proof.
  intros Hnone. unfold checkForUpdates; simpl. rewrite Hnone; simpl.
  match goal with |- context [resume aw ?x] => set (s1 := x) end.
  destruct (resume_frame aw s1) as (Hh & Hc & He & Hl & Hw & Htr).
  rewrite (pending_heap _ _ Hh Hw), Hc, Htr, He, Hl. subst s1.
  rewrite pending_updateStatusBar, cycles_updateStatusBar,
    trace_updateStatusBar, env_updateStatusBar; simpl.
  rewrite <- (assoc_L (++)). split_and!; try done.
  - apply (pending_setPending [] (set_lastCheckTime (Some (now (env s))) s)).
  - unfold updateStatusBar. by repeat case_match.
Qed.

Lemma checkForUpdates_some aw s :
  gitProjects (env s) ≠ [] →
  let s' := checkForUpdates aw s in
  pending s' = [] ∧ cycles s' = cycles s ++ [startedCycle aw s]
  ∧ trace s' = trace s ++ fanOutEvents (env s)
  ∧ env s' = env s ∧ lastCheckTime s' = Some (now (env s))
  ∧ intervalId s' = intervalId s ∧ timers s' = timers s.
Proof.
  intros Hsome. unfold checkForUpdates; simpl.
  rewrite bool_decide_eq_false_2
    by (by destruct (gitProjects (env s))).
  simpl. rewrite <- (assoc_L (++)). split_and!; try done.
  apply (pending_setPending [] (set_lastCheckTime (Some (now (env s))) s)).
Qed.

Lemma settle_no_cycle s c t r : cycles s !! c = None → settle c t r s = s.
Proof. intros Hc. unfold settle. by rewrite Hc. Qed.

Lemma run_settles_no_cycle s c sched :
  cycles s !! c = None → run s (settles c sched) = s.
Proof.
  intros Hc. unfold run.
  induction sched as [|[t r] sched IH]; simpl; [done|].
  by rewrite settle_no_cycle.
Qed.

Lemma newEvents_app s s' evs : trace s' = trace s ++ evs → newEvents s s' = evs.
Proof. intros Htr. unfold newEvents. rewrite Htr. apply drop_app_length. Qed.

(** A callback that starts at the fetch finds its project behind at most
    once, and exactly when [checkProjectForUpdates] returns true. *)
Lemma foundCount_AwaitFetch am p outs :
  foundCount am p AwaitFetch outs = if foundBehind outs then 1 else 0.
Proof.
  destruct outs as [|[o1|e1] [|[o2|e2] outs]]; simpl;
    rewrite ?foundCount_Finished; try done.
  destruct (isBehind o2), am; simpl; rewrite ?foundCount_Finished; try done.
  destruct outs as [|[o3|e3] [|[o4|e4] outs]]; simpl;
    by rewrite ?foundCount_Finished.
Qed.

(** One cycle from its start, under an arbitrary schedule. *)
Lemma cycleRun_some s sched :
  gitProjects (env s) ≠ [] →
  let s' := cycleRun s sched in
  let cyc' := cycleAfter (startedCycle Detached s) sched in
  cycles s' = cycles s ++ [cyc']
  ∧ newEvents s s'
    ≡ₚ fanOutEvents (env s)
       ++ taskEvents (autoMerge (getConfig s)) 0
            (tasks (startedCycle Detached s)) sched
       ++ (if allFinished (tasks cyc') then finishEvents cyc' (pending s')
           else [])
  ∧ env s' = env s.
Proof.
  intros Hsome s' cyc'. subst s'. unfold cycleRun.
  change (run s (CallCheckForUpdates :: ?l))
    with (run (checkForUpdates Detached s) l).
  destruct (checkForUpdates_some Detached s Hsome)
    as (Hp & Hc & Htr & He & _).
  set (s1 := checkForUpdates Detached s) in *.
  assert (cycles s1 !! length (cycles s) = Some (startedCycle Detached s))
    as Hc1.
  { rewrite Hc. by apply list_lookup_middle. }
  destruct (cycle_run sched s1 _ _ Hc1) as (Hcy & (evs & Htr' & Hperm) & He' & _).
  split_and!.
  - rewrite Hcy, Hc. by rewrite insert_app_r_alt, Nat.sub_diag by done.
  - rewrite (newEvents_app s _ (fanOutEvents (env s) ++ evs))
      by (by rewrite Htr', Htr, <- (assoc_L (++))).
    rewrite Hperm.
    assert (inFlight (startedCycle Detached s) = true) as ->; [|done].
    unfold inFlight; simpl. by destruct (gitProjects (env s)).
  - by rewrite He'.
Qed.

(** What is in the set after one cycle: the names of the eligible projects
    for which [checkProjectForUpdates] returned true. *)
Lemma cycleRun_pending s sched n :
  n ∈ pending (cycleRun s sched)
  ↔ ∃ t p, gitProjects (env s) !! t = Some p ∧ name p = n
      ∧ foundBehind (outcomes t sched) = true.
Proof.
  unfold cycleRun.
  change (run s (CallCheckForUpdates :: ?l))
    with (run (checkForUpdates Detached s) l).
  destruct (decide (gitProjects (env s) = [])) as [Hnone|Hsome].
  - destruct (checkForUpdates_none Detached s Hnone) as (Hp & Hc & _).
    rewrite run_settles_no_cycle
      by (rewrite Hc; by apply lookup_ge_None_2).
    rewrite Hp, Hnone. split; [by intros ?%elem_of_nil|].
    by intros (t & p & Ht & _).
  - destruct (checkForUpdates_some Detached s Hsome) as (Hp & Hc & _).
    set (s1 := checkForUpdates Detached s) in *.
    assert (cycles s1 !! length (cycles s) = Some (startedCycle Detached s))
      as Hc1.
    { rewrite Hc. by apply list_lookup_middle. }
    rewrite (cycle_run_pending sched s1 _ _ n Hc1), Hp. simpl.
    split.
    + intros [?%elem_of_nil|(t & p & st & Ht & Hn & Hf)]; [done|].
      apply list_lookup_fmap_Some in Ht as (q & [= -> ->] & Hq).
      exists t, q. split_and!; [done..|].
      rewrite foundCount_AwaitFetch in Hf. destruct (foundBehind _); [done|lia].
    + intros (t & p & Ht & Hn & Hf). right. exists t, p, AwaitFetch.
      split_and!; [|done|].
      * rewrite list_lookup_fmap, Ht. done.
      * rewrite foundCount_AwaitFetch, Hf. lia.
Qed.

Lemma cycleRun_NoDup s sched : NoDup (pending (cycleRun s sched)).
Proof.
  unfold cycleRun.
  change (run s (CallCheckForUpdates :: ?l))
    with (run (checkForUpdates Detached s) l).
  apply cycle_run_NoDup.
  destruct (decide (gitProjects (env s) = [])) as [Hnone|Hsome].
  - destruct (checkForUpdates_none Detached s Hnone) as (-> & _).
    apply NoDup_nil_2.
  - destruct (checkForUpdates_some Detached s Hsome) as (-> & _).
    apply NoDup_nil_2.
Qed.

(** ** The scenario with three projects *)

Lemma NoDup_only {A} (l : list A) (a : A) :
  NoDup l → (∀ x, x ∈ l ↔ x = a) → l = [a].
Proof.
  intros Hnd Hl. destruct l as [|x l].
  - by pose proof (proj2 (Hl a) eq_refl) as ?%elem_of_nil.
  - pose proof (proj1 (Hl x) (list_elem_of_here _ _)) as ->.
    apply NoDup_cons in Hnd as [Hx _]. f_equal.
    destruct l as [|y l]; [done|].
    pose proof (proj1 (Hl y) (list_elem_of_further _ _ _ (list_elem_of_here _ _))) as ->.
    destruct Hx. apply list_elem_of_here.
Qed.

Lemma isBehind_parseInt stdout n :
  parseInt (trim stdout) = Some n → isBehind stdout = bool_decide (0 < n)%Z.
Proof.
  intros Hn. unfold isBehind. rewrite Hn.
  destruct (Z.ltb_spec 0 n);
    [by rewrite bool_decide_eq_true_2|by rewrite bool_decide_eq_false_2 by lia].
Qed.

(** C6. Three projects: A is a repository 2 commits behind, B is a
    repository that is up to date, C is not a repository.  One cycle with
    autoMerge off and notifyOnUpdates on, in which the fetches succeed and
    the rev-lists print 2 and 0, whatever the order in which the git
    processes end: the cycle ends with the set of pending projects equal to
    {A}, it shows exactly one notification, the aggregated one with count 1,
    and it runs no pull. *)
Theorem C6_scenario_three_projects
    (s : State) (A B C : Project) (sched : list (nat * Settled))
    (fetchA revA fetchB revB : string) :
  projects (env s) = [A; B; C] →
  enabled A = true → gitMarker (env s) (folderPath A) = true →
  enabled B = true → gitMarker (env s) (folderPath B) = true →
  gitMarker (env s) (folderPath C) = false →
  autoMerge (getConfig s) = false → notifyOnUpdates (getConfig s) = true →
  outcomes 0 sched = [Fulfilled fetchA; Fulfilled revA] →
  parseInt (trim revA) = Some 2%Z →
  outcomes 1 sched = [Fulfilled fetchB; Fulfilled revB] →
  parseInt (trim revB) = Some 0%Z →
  let s' := cycleRun s sched in
  pending s' = [name A]
  ∧ (∃ cyc, cycles s' = cycles s ++ [cyc] ∧ inFlight cyc = false)
  ∧ countEv isNotification (newEvents s s') = 1
  ∧ ShowInformationMessage (MsgHaveUpdates 1 (name A))
      ["Sync Now"; "Show Changes"; "Dismiss"] ∈ newEvents s s'
  ∧ countEv isPull (newEvents s s') = 0.
Proof.
  intros Hps HeA HgA HeB HgB HgC Ham Hnotify HoA HrA HoB HrB s'.
  assert (gitProjects (env s) = [A; B]) as Hgit.
  { unfold gitProjects. rewrite Hps; simpl.
    by rewrite HeA, HgA, HeB, HgB, HgC, andb_false_r. }
  assert (isBehind revA = true) as HbA.
  { by rewrite (isBehind_parseInt _ _ HrA). }
  assert (isBehind revB = false) as HbB.
  { by rewrite (isBehind_parseInt _ _ HrB). }
  assert (pending s' = [name A]) as Hpending.
  { apply NoDup_only; [apply cycleRun_NoDup|]. intros n. subst s'.
    rewrite cycleRun_pending, Hgit. split.
    - intros (t & p & Ht & <- & Hf).
      destruct t as [|[|t]]; simpl in Ht; simplify_eq; [done|].
      by rewrite HoB in Hf; simpl in Hf; rewrite HbB in Hf.
    - intros ->. exists 0, A. split_and!; [done..|].
      by rewrite HoA; simpl. }
  destruct (cycleRun_some s sched) as (Hcy & Hperm & _);
    [by rewrite Hgit|].
  fold s' in Hcy, Hperm. revert Hcy Hperm.
  unfold fanOutEvents, startedCycle, cycleAfter, finishEvents.
  rewrite Hgit, Hpending; simpl. rewrite HoA, HoB, Ham, Hnotify; simpl.
  rewrite HbA, HbB; simpl.
  intros Hcy Hperm. split_and!; [done|by eexists| | |].
  - by rewrite (countEv_Permutation _ _ _ Hperm).
  - rewrite Hperm. apply list_elem_of_In. simpl. tauto.
  - by rewrite (countEv_Permutation _ _ _ Hperm).
Qed.

(** The scenario in the example workspace, with the git processes of the
    two repositories ending in turns. *)
Lemma C6_scenario_witness :
  let s := newAutoSyncService
             (Scenario.world Scenario.notifyOnly
                [Scenario.A; Scenario.B; Scenario.C]) in
  let sched := [(1, Scenario.ok); (0, Scenario.ok);
                (0, Scenario.count "2"); (1, Scenario.count "0")] in
  pending (cycleRun s sched) = ["A"]
  ∧ countEv isPull (newEvents s (cycleRun s sched)) = 0.
Proof.
  intros s sched.
  destruct (C6_scenario_three_projects s Scenario.A Scenario.B Scenario.C
              sched "" ("2" +:+ String "010"%char "") ""
              ("0" +:+ String "010"%char ""))
    as (Hp & _ & _ & _ & Hpull); [by_evaluation..|].
  split; [exact Hp|exact Hpull].
Defined.

(** ** The callback alone *)

(** The [catch] of the callback of [gitProjects.map] is never entered: no
    resumption logs 'Failed to check'. *)
Lemma taskStep_outer_catch_unreachable am p st r projectName reason :
  Console (ErrFailedToCheck projectName reason) ∉ (taskStep am p st r).2.
Proof.
  destruct st, r; simpl; repeat case_match; simpl; intros Hin;
    repeat (apply elem_of_cons in Hin as [Hin|Hin]; [discriminate Hin|]);
    by apply elem_of_nil in Hin.
Qed.

(** ** Projects that are not eligible *)

Lemma cycleRun_none s sched :
  gitProjects (env s) = [] →
  let s' := cycleRun s sched in
  pending s' = [] ∧ cycles s' = cycles s
  ∧ newEvents s s' = [Console LogNoGitProjects] ∧ env s' = env s.
Proof.
  intros Hnone. unfold cycleRun.
  change (run s (CallCheckForUpdates :: ?l))
    with (run (checkForUpdates Detached s) l).
  destruct (checkForUpdates_none Detached s Hnone) as (Hp & Hc & Htr & He & _).
  rewrite run_settles_no_cycle by (rewrite Hc; by apply lookup_ge_None_2).
  by rewrite (newEvents_app _ _ _ Htr).
Qed.

Lemma stagesAfter_projects am k ts sched :
  (stagesAfter am k ts sched).*1 = ts.*1.
Proof.
  revert k. induction ts as [|[p st] ts IH]; intros k; simpl; [done|].
  by rewrite IH.
Qed.

Lemma elem_of_gitProjects e p :
  p ∈ gitProjects e
  ↔ p ∈ projects e ∧ enabled p = true ∧ gitMarker e (folderPath p) = true.
Proof.
  unfold gitProjects. rewrite !list_elem_of_In, filter_In, andb_true_iff.
  tauto.
Qed.

Lemma NoDup_fmap_eq {A B} (f : A → B) (l : list A) (x y : A) :
  NoDup (f <$> l) → x ∈ l → y ∈ l → f x = f y → x = y.
Proof.
  intros Hnd [i Hi]%list_elem_of_lookup [j Hj]%list_elem_of_lookup Hf.
  assert (i = j) as ->; [|congruence].
  eapply NoDup_lookup; [done| |].
  - by rewrite list_lookup_fmap, Hi.
  - by rewrite list_lookup_fmap, Hj, Hf.
Qed.

Lemma countEv_eventsOf_none f am p outs :
  (∀ st r, countEv f (taskStep am p st r).2 = 0) →
  ∀ st, countEv f (eventsOf am p st outs) = 0.
Proof.
  intros Hstep. induction outs as [|r outs IH]; intros st; simpl; [done|].
  by rewrite countEv_app, Hstep, IH.
Qed.

Lemma countEv_taskEvents_none f am ts sched :
  (∀ p st outs, (p, st) ∈ ts → countEv f (eventsOf am p st outs) = 0) →
  ∀ k, countEv f (taskEvents am k ts sched) = 0.
Proof.
  induction ts as [|[p st] ts IH]; intros Hts k; simpl; [done|].
  rewrite countEv_app, Hts, IH; [done| |apply list_elem_of_here].
  intros q sq outs Hq. apply Hts. by apply list_elem_of_further.
Qed.

(** The git processes of a callback run in the folder of its project. *)
Lemma countEv_isGitIn_eventsOf cwd am p st outs :
  folderPath p ≠ cwd → countEv (isGitIn cwd) (eventsOf am p st outs) = 0.
Proof.
  intros Hne. apply countEv_eventsOf_none. clear st.
  intros st r. destruct st, r; simpl;
    repeat (case_match; simpl; try done);
    repeat match goal with
           | H : bool_decide _ = true |- _ => apply bool_decide_eq_true in H
           end; done.
Qed.

Lemma countEv_isGitIn_finishEvents cwd cyc elems :
  countEv (isGitIn cwd) (finishEvents cyc elems) = 0.
Proof.
  unfold finishEvents, updatesNotification, resumeEvents.
  by repeat case_match.
Qed.

Lemma countEv_fmap_none {A} f (g : A → Event) (l : list A) :
  (∀ x, x ∈ l → f (g x) = false) → countEv f (g <$> l) = 0.
Proof.
  induction l as [|x l IH]; intros Hl; csimpl; [done|].
  rewrite Hl, IH; [done| |apply list_elem_of_here].
  intros y Hy. apply Hl. by apply list_elem_of_further.
Qed.

(** In a run of one cycle, a project that is not eligible when the cycle
    starts has no callback, no git process is run in its folder, and its
    name is not in the set (names identify projects, and no other project
    shares its folder). *)
Lemma cycleRun_ineligible
    (s : State) (p : Project) (sched : list (nat * Settled)) :
  p ∈ projects (env s) →
  NoDup (name <$> projects (env s)) →
  (∀ q, q ∈ projects (env s) → q ≠ p → folderPath q ≠ folderPath p) →
  enabled p = false ∨ gitMarker (env s) (folderPath p) = false →
  let s' := cycleRun s sched in
  (∀ cyc, cycles s' !! length (cycles s) = Some cyc → p ∉ (tasks cyc).*1)
  ∧ countEv (isGitIn (folderPath p)) (newEvents s s') = 0
  ∧ name p ∉ pending s'.
Proof.
  intros Hp Hnd Hfolder Hoff s'.
  assert (p ∉ gitProjects (env s)) as Hnot.
  { rewrite elem_of_gitProjects. intros (_ & He & Hg).
    destruct Hoff; congruence. }
  assert (∀ q, q ∈ gitProjects (env s) → folderPath q ≠ folderPath p) as Hpath.
  { intros q Hq. apply Hfolder; [by apply elem_of_gitProjects in Hq as [? _]|].
    by intros ->. }
  split_and!.
  - intros cyc Hcyc. subst s'.
    destruct (decide (gitProjects (env s) = [])) as [Hnone|Hsome].
    + destruct (cycleRun_none s sched Hnone) as (_ & Hc & _).
      rewrite Hc in Hcyc. by apply lookup_lt_Some, Nat.lt_irrefl in Hcyc.
    + destruct (cycleRun_some s sched Hsome) as (Hc & _).
      rewrite Hc, list_lookup_middle in Hcyc by done. injection Hcyc as <-.
      simpl. rewrite stagesAfter_projects, <- list_fmap_compose.
      by rewrite list_fmap_id.
  - subst s'.
    destruct (decide (gitProjects (env s) = [])) as [Hnone|Hsome].
    + by destruct (cycleRun_none s sched Hnone) as (_ & _ & -> & _).
    + destruct (cycleRun_some s sched Hsome) as (_ & Hperm & _).
      rewrite (countEv_Permutation _ _ _ Hperm), !countEv_app.
      match goal with
      | |- context [countEv ?f (if ?b then ?x else [])] =>
          assert (countEv f (if b then x else []) = 0) as ->
            by (destruct b; [apply countEv_isGitIn_finishEvents|done])
      end.
      rewrite countEv_taskEvents_none.
      * unfold fanOutEvents; simpl. rewrite countEv_fmap_none; [by case_match|].
        intros q Hq; simpl. by rewrite bool_decide_eq_false_2 by by apply Hpath.
      * intros q st outs [q' [[= -> ->] Hq']]%list_elem_of_fmap.
        apply countEv_isGitIn_eventsOf. by apply Hpath.
  - subst s'. rewrite cycleRun_pending. intros (t & q & Ht & Hn & _).
    apply list_elem_of_lookup_2 in Ht.
    assert (q = p) as ->; [|done].
    apply (NoDup_fmap_eq name (projects (env s))); try done.
    by apply elem_of_gitProjects in Ht as [? _].
Qed.

(** ** Auto-merge *)

Lemma countEv_taskEvents_one f am ts sched : ∀ k t p st,
  ts !! t = Some (p, st) →
  (∀ t' q sq outs, t' ≠ t → ts !! t' = Some (q, sq) →
     countEv f (eventsOf am q sq outs) = 0) →
  countEv f (taskEvents am k ts sched)
  = countEv f (eventsOf am p st (outcomes (k + t) sched)).
Proof.
  induction ts as [|[q sq] ts IH]; intros k t p st Ht Hothers; [done|].
  simpl. rewrite countEv_app. destruct t as [|t]; simpl in Ht.
  - injection Ht as -> ->. rewrite Nat.add_0_r.
    rewrite countEv_taskEvents_none; [lia|].
    intros q' sq' outs [i Hi]%list_elem_of_lookup.
    by apply (Hothers (S i)).
  - rewrite (Hothers 0 q sq) by done.
    rewrite (IH (S k) t p st Ht).
    + by replace (S k + t) with (k + S t) by lia.
    + intros t' q' sq' outs Hne. apply (Hothers (S t')). lia.
Qed.

(** A callback calls [updateGitProject] with the name of its project. *)
Lemma countEv_isUpdateGitProject_eventsOf n am p st outs :
  name p ≠ n → countEv (isUpdateGitProject n) (eventsOf am p st outs) = 0.
Proof.
  intros Hne. apply countEv_eventsOf_none. clear st.
  intros st r. destruct st, r; simpl;
    repeat (case_match; simpl; try done);
    repeat match goal with
           | H : bool_decide _ = true |- _ => apply bool_decide_eq_true in H
           end; done.
Qed.

Lemma countEv_isUpdateGitProject_fanOut n e :
  countEv (isUpdateGitProject n) (fanOutEvents e) = 0.
Proof. unfold fanOutEvents; simpl. by apply countEv_fmap_none. Qed.

Lemma countEv_isUpdateGitProject_finish n b cyc elems :
  countEv (isUpdateGitProject n)
    (if b : bool then finishEvents cyc elems else []) = 0.
Proof.
  destruct b; [|done].
  unfold finishEvents, updatesNotification, resumeEvents.
  by repeat case_match.
Qed.

(** In a run of one cycle with autoMerge on, a project that is found
    behind and whose pull succeeds is in the set afterwards, and the
    registry gets exactly one [updateGitProject] call for it. *)
Lemma cycleRun_auto_merged
    (s : State) (sched : list (nat * Settled)) (t : nat) (p : Project)
    (fetchOut revOut pullOut : string) (rest : list Settled) :
  autoMerge (getConfig s) = true →
  NoDup (name <$> gitProjects (env s)) →
  gitProjects (env s) !! t = Some p →
  outcomes t sched
  = Fulfilled fetchOut :: Fulfilled revOut :: Fulfilled pullOut :: rest →
  isBehind revOut = true →
  let s' := cycleRun s sched in
  name p ∈ pending s'
  ∧ countEv (isUpdateGitProject (name p)) (newEvents s s') = 1.
Proof.
  intros Ham Hnd Ht Hout Hbehind s'. subst s'. split.
  - rewrite cycleRun_pending. exists t, p. split_and!; [done..|].
    by rewrite Hout.
  - destruct (cycleRun_some s sched) as (_ & Hperm & _);
      [by intros Hnil; rewrite Hnil in Ht|].
    rewrite (countEv_Permutation _ _ _ Hperm), !countEv_app.
    rewrite countEv_isUpdateGitProject_fanOut,
      countEv_isUpdateGitProject_finish, Nat.add_0_r.
    rewrite (countEv_taskEvents_one _ _ _ _ 0 t p AwaitFetch).
    + rewrite Ham. change (0 + t) with t. rewrite Hout; simpl.
      rewrite Hbehind; simpl. rewrite bool_decide_eq_true_2 by done.
      destruct rest as [|[o|e] rest]; simpl;
        by rewrite ?eventsOf_Finished.
    + simpl. by rewrite list_lookup_fmap, Ht.
    + intros t' q sq outs Hne Hq. simpl in Hq.
      apply list_lookup_fmap_Some in Hq as (q' & [= -> ->] & Hq).
      apply countEv_isUpdateGitProject_eventsOf. intros Hname.
      apply Hne. eapply NoDup_lookup; [done| |].
      * by rewrite list_lookup_fmap, Hq; simpl; rewrite Hname.
      * by rewrite list_lookup_fmap, Ht.
Qed.

(** C2, as the spec states it, fails: a project 3 commits behind whose
    automatic pull succeeded is in the set of pending projects when the
    cycle has ended. *)
Lemma C2_absent_after_merge_counterexample :
  let s := newAutoSyncService
             (Scenario.world Scenario.autoMerging [Scenario.A]) in
  let sched := [(0, Scenario.ok); (0, Scenario.count "3");
                (0, Scenario.ok); (0, Scenario.ok)] in
  let s' := cycleRun s sched in
  inFlight <$> cycles s' = [false]
  ∧ countEv isPull (newEvents s s') = 1
  ∧ countEv (isUpdateGitProject "A") (newEvents s s') = 1
  ∧ pending s' = ["A"]
  ∧ ¬ ("A" ∉ pending s').
Proof.
  intros s sched s'.
  assert (pending s' = ["A"]) as Hp by by_evaluation.
  split_and!; try by_evaluation.
  intros Hnot. apply Hnot. rewrite Hp. apply list_elem_of_here.
Qed.

(** ** Notifications *)

Lemma length_foundNames am k ps sched :
  length (foundNames k ps sched)
  = taskFound am k ((λ p, (p, AwaitFetch)) <$> ps) sched.
Proof.
  revert k. induction ps as [|p ps IH]; intros k; csimpl; [done|].
  rewrite length_app, IH, foundCount_AwaitFetch.
  by destruct (foundBehind _).
Qed.

Lemma elem_of_foundNames n ps sched : ∀ k,
  n ∈ foundNames k ps sched
  ↔ ∃ t p, ps !! t = Some p ∧ name p = n
      ∧ foundBehind (outcomes (k + t) sched) = true.
Proof.
  induction ps as [|p ps IH]; intros k; simpl.
  - split; [by intros ?%elem_of_nil|]. by intros (t & p & Ht & _).
  - rewrite elem_of_app, IH. split.
    + intros [Hn|(t & q & Ht & Hn & Hf)].
      * destruct (foundBehind (outcomes k sched)) eqn:Hf;
          [|by apply elem_of_nil in Hn].
        apply list_elem_of_singleton in Hn as ->.
        exists 0, p. by rewrite Nat.add_0_r.
      * exists (S t), q. by replace (k + S t) with (S k + t) by lia.
    + intros ([|t] & q & Ht & Hn & Hf); simpl in Ht.
      * injection Ht as ->. rewrite Nat.add_0_r in Hf. rewrite Hf.
        left. subst n. apply list_elem_of_here.
      * right. exists t, q. by replace (S k + t) with (k + S t) by lia.
Qed.

Lemma foundNames_sublist k ps sched :
  foundNames k ps sched `sublist_of` name <$> ps.
Proof.
  revert k. induction ps as [|p ps IH]; intros k; csimpl; [done|].
  destruct (foundBehind _); simpl; [by apply sublist_skip|by apply sublist_cons].
Qed.

(** With names that identify projects, the set of pending projects after a
    cycle has as many elements as callbacks found their project behind. *)
Lemma cycleRun_pending_length s sched :
  NoDup (name <$> gitProjects (env s)) →
  length (pending (cycleRun s sched))
  = taskFound (autoMerge (getConfig s)) 0
      ((λ p, (p, AwaitFetch)) <$> gitProjects (env s)) sched.
Proof.
  intros Hnd. rewrite <- length_foundNames. apply Permutation_length.
  apply NoDup_Permutation; [apply cycleRun_NoDup| |].
  - eapply sublist_NoDup; [done|apply foundNames_sublist].
  - intros n. by rewrite cycleRun_pending, elem_of_foundNames.
Qed.

(** When all callbacks have ended, an effect that every callback causes
    once per project found behind is caused as often as the counter says. *)
Lemma countEv_taskEvents_found f am ts sched : ∀ k,
  allFinished (stagesAfter am k ts sched) = true →
  (∀ p st outs, (p, st) ∈ ts → stageAfter am p st outs = Finished →
     countEv f (eventsOf am p st outs) = foundCount am p st outs) →
  countEv f (taskEvents am k ts sched) = taskFound am k ts sched.
Proof.
  induction ts as [|[q sq] ts IH]; intros k Hall Hts; [done|].
  simpl in *. apply (allFinished_cons q) in Hall as [Hq Hall].
  rewrite countEv_app, Hts, IH; [done|done| |apply list_elem_of_here|done].
  intros p st outs Hp. apply Hts. by apply list_elem_of_further.
Qed.

Lemma countEv_isAggregate_eventsOf am p st outs :
  countEv isAggregate (eventsOf am p st outs) = 0.
Proof.
  apply countEv_eventsOf_none. clear st.
  intros st r. destruct st, r; simpl; by repeat case_match.
Qed.

(** Without autoMerge a callback shows no notification. *)
Lemma countEv_isNotification_notifyOnly p outs :
  countEv isNotification (eventsOf false p AwaitFetch outs) = 0.
Proof.
  destruct outs as [|[o1|e1] [|[o2|e2] outs]]; simpl;
    rewrite ?eventsOf_Finished; try done.
  destruct (isBehind o2); simpl; by rewrite ?eventsOf_Finished.
Qed.

(** With autoMerge a callback that has ended has shown one notification of
    its own if it found its project behind, and none otherwise. *)
Lemma countEv_isIndividual_autoMerge p outs :
  stageAfter true p AwaitFetch outs = Finished →
  countEv isIndividual (eventsOf true p AwaitFetch outs)
  = foundCount true p AwaitFetch outs.
Proof.
  destruct outs as [|[o1|e1] [|[o2|e2] outs]]; simpl;
    rewrite ?eventsOf_Finished, ?foundCount_Finished; try done.
  destruct (isBehind o2); simpl;
    rewrite ?eventsOf_Finished, ?foundCount_Finished; try done.
  destruct outs as [|[o3|e3] [|[o4|e4] outs]]; simpl;
    by rewrite ?eventsOf_Finished, ?foundCount_Finished.
Qed.

Lemma cycleEnded_some s sched :
  cycleEnded s (cycleRun s sched) →
  gitProjects (env s) ≠ []
  ∧ allFinished (tasks (cycleAfter (startedCycle Detached s) sched)) = true.
Proof.
  intros (cyc & Hcyc & Hfl).
  destruct (decide (gitProjects (env s) = [])) as [Hnone|Hsome].
  - destruct (cycleRun_none s sched Hnone) as (_ & Hc & _).
    rewrite Hc in Hcyc. by apply lookup_lt_Some, Nat.lt_irrefl in Hcyc.
  - split; [done|].
    destruct (cycleRun_some s sched Hsome) as (Hc & _).
    rewrite Hc, list_lookup_middle in Hcyc by done. injection Hcyc as <-.
    unfold inFlight in Hfl. by apply negb_false_iff in Hfl.
Qed.

(** A run of one cycle with notifyOnUpdates on that has ended with a
    non-empty set has shown exactly one aggregated notification, which
    names the number of pending projects and lists them.  Without autoMerge
    this is the only notification; with autoMerge, [pullProject] has shown
    one more for every project found behind. *)
Lemma cycleRun_one_aggregated
    (s : State) (sched : list (nat * Settled)) :
  notifyOnUpdates (getConfig s) = true →
  NoDup (name <$> gitProjects (env s)) →
  let s' := cycleRun s sched in
  cycleEnded s s' →
  pending s' ≠ [] →
  let n := length (pending s') in
  let projectsList := join ", " (pending s') in
  countEv isAggregate (newEvents s s') = 1
  ∧ (if autoMerge (getConfig s)
     then ShowInformationMessage (MsgAutoSynced n projectsList)
            ["Show Changes"] ∈ newEvents s s'
          ∧ countEv isIndividual (newEvents s s') = n
     else ShowInformationMessage (MsgHaveUpdates n projectsList)
            ["Sync Now"; "Show Changes"; "Dismiss"] ∈ newEvents s s'
          ∧ countEv isNotification (newEvents s s') = 1).
Proof.
  intros Hnotify Hnd s' Hended Hnonempty n projectsList.
  destruct (cycleEnded_some s sched Hended) as [Hsome Hall].
  destruct (cycleRun_some s sched Hsome) as (_ & Hperm & _).
  fold s' in Hperm. rewrite Hall in Hperm.
  pose proof (cycleRun_pending_length s sched Hnd) as Hlen.
  fold s' n in Hlen.
  assert (0 < n) as Hpos.
  { subst n. destruct (pending s'); [done|simpl; lia]. }
  revert Hperm. unfold finishEvents, cycleAfter, fanOutEvents; simpl.
  rewrite <- Hlen, Hnotify, (bool_decide_eq_true_2 _ Hpos); simpl.
  fold projectsList. intros Hperm.
  split.
  - rewrite (countEv_Permutation _ _ _ Hperm); simpl. rewrite !countEv_app.
    rewrite countEv_taskEvents_none
      by (intros; apply countEv_isAggregate_eventsOf).
    unfold updatesNotification; simpl.
    rewrite countEv_fmap_none by done. by destruct (autoMerge _).
  - unfold updatesNotification in Hperm.
    unfold cycleAfter in Hall; simpl in Hall. revert Hlen. unfold getConfig in *.
    destruct (autoMerge (config (env s))) eqn:Ham; intros Hlen; split.
    + rewrite Hperm, elem_of_cons, !elem_of_app.
      do 3 right. apply list_elem_of_here.
    + rewrite (countEv_Permutation _ _ _ Hperm); simpl. rewrite !countEv_app.
      rewrite (countEv_taskEvents_found isIndividual _ _ _ 0 Hall), <- Hlen.
      * rewrite countEv_fmap_none by done. simpl. lia.
      * intros p st outs [q [[= -> ->] _]]%list_elem_of_fmap.
        apply countEv_isIndividual_autoMerge.
    + rewrite Hperm, elem_of_cons, !elem_of_app.
      do 3 right. apply list_elem_of_here.
    + rewrite (countEv_Permutation _ _ _ Hperm); simpl. rewrite !countEv_app.
      rewrite countEv_taskEvents_none.
      * by rewrite countEv_fmap_none by done.
      * intros p st outs [q [[= -> ->] _]]%list_elem_of_fmap.
        apply countEv_isNotification_notifyOnly.
Qed.

(** C7, as the spec states it, fails under autoMerge: the cycle below shows
    one notification for each of its two projects, and the aggregated one
    on top. *)
Lemma C7_one_per_project_counterexample :
  let s := newAutoSyncService
             (Scenario.world Scenario.autoMerging [Scenario.A; Scenario.B]) in
  let sched := [(0, Scenario.ok); (1, Scenario.ok); (1, Scenario.count "1");
                (0, Scenario.count "3"); (0, Scenario.ok); (1, Scenario.ok);
                (1, Scenario.ok); (0, Scenario.ok)] in
  let s' := cycleRun s sched in
  notifyOnUpdates (getConfig s) = true
  ∧ pending s' = ["B"; "A"]
  ∧ inFlight <$> cycles s' = [false]
  ∧ countEv isNotification (newEvents s s') = 3
  ∧ List.filter isNotification (newEvents s s')
    = [ShowInformationMessage (MsgAutoSyncedProject "B") ["Show Changes"];
       ShowInformationMessage (MsgAutoSyncedProject "A") ["Show Changes"];
       ShowInformationMessage (MsgAutoSynced 2 "B, A") ["Show Changes"]].
Proof. intros s sched s'. split_and!; by_evaluation. Qed.

(** ** Failures of git *)

Lemma stagesAfter_lookup am ts sched : ∀ k t p st,
  ts !! t = Some (p, st) →
  stagesAfter am k ts sched !! t
  = Some (p, stageAfter am p st (outcomes (k + t) sched)).
Proof.
  induction ts as [|[q sq] ts IH]; intros k t p st Ht; [done|].
  destruct t as [|t]; simpl in *.
  - injection Ht as -> ->. by rewrite Nat.add_0_r.
  - replace (k + S t) with (S k + t) by lia. by apply IH.
Qed.

Lemma allFinished_stagesAfter am ts sched : ∀ k,
  (∀ t p st, ts !! t = Some (p, st) →
     stageAfter am p st (outcomes (k + t) sched) = Finished) →
  allFinished (stagesAfter am k ts sched) = true.
Proof.
  induction ts as [|[q sq] ts IH]; intros k Hts; [done|].
  simpl. unfold allFinished; simpl. apply andb_true_iff. split.
  - specialize (Hts 0 q sq eq_refl). rewrite Nat.add_0_r in Hts.
    by rewrite Hts.
  - apply IH. intros t p st Ht. specialize (Hts (S t) p st Ht).
    by replace (k + S t) with (S k + t) in Hts by lia.
Qed.

Lemma elem_of_taskEvents e am ts sched : ∀ k t p st,
  ts !! t = Some (p, st) →
  e ∈ eventsOf am p st (outcomes (k + t) sched) →
  e ∈ taskEvents am k ts sched.
Proof.
  induction ts as [|[q sq] ts IH]; intros k t p st Ht He; [done|].
  simpl. apply elem_of_app. destruct t as [|t]; simpl in Ht.
  - injection Ht as -> ->. rewrite Nat.add_0_r in He. by left.
  - right. apply (IH (S k) t p st Ht).
    by replace (S k + t) with (k + S t) by lia.
Qed.

(** A callback awaits at most four operations. *)
Lemma stageAfter_enough am p outs :
  (4 ≤ length outs)%nat → stageAfter am p AwaitFetch outs = Finished.
Proof.
  destruct outs as [|[o1|e1] [|[o2|e2] [|[o3|e3] [|[o4|e4] outs]]]];
    simpl; intros Hlen; try lia; rewrite ?stageAfter_Finished; try done;
    destruct (isBehind o2), am; simpl; by rewrite ?stageAfter_Finished.
Qed.

Lemma cycleRun_callback s sched t p :
  gitProjects (env s) !! t = Some p →
  let s' := cycleRun s sched in
  let am := autoMerge (getConfig s) in
  (stageAfter am p AwaitFetch (outcomes t sched) = Finished →
   callbackEnded s s' t p)
  ∧ (∀ e, e ∈ eventsOf am p AwaitFetch (outcomes t sched) →
          e ∈ newEvents s s').
Proof.
  intros Ht s' am.
  assert (gitProjects (env s) ≠ []) as Hsome.
  { intros Hnil. by rewrite Hnil in Ht. }
  destruct (cycleRun_some s sched Hsome) as (Hc & Hperm & _).
  fold s' in Hc, Hperm.
  assert (tasks (startedCycle Detached s) !! t = Some (p, AwaitFetch)) as Ht'.
  { simpl. by rewrite list_lookup_fmap, Ht. }
  split.
  - intros Hst. eexists. split; [by rewrite Hc, list_lookup_middle|].
    simpl. rewrite (stagesAfter_lookup _ _ _ 0 t p AwaitFetch Ht').
    by rewrite <- Hst.
  - intros e He. rewrite Hperm, !elem_of_app. right; left.
    by apply (elem_of_taskEvents _ _ _ _ 0 t p AwaitFetch Ht').
Qed.

(** A run of one cycle: a failed fetch or rev-list is logged and the
    project is not pending; a failed pull is logged and shown, and the
    project stays pending; the callbacks end, and so does the cycle. *)
Lemma cycleRun_git_failures
    (s : State) (sched : list (nat * Settled)) :
  NoDup (name <$> gitProjects (env s)) →
  let s' := cycleRun s sched in
  (∀ t p e,
     gitProjects (env s) !! t = Some p →
     (∃ rest, outcomes t sched = Rejected e :: rest)
     ∨ (∃ o rest, outcomes t sched = Fulfilled o :: Rejected e :: rest) →
     (name p ∉ pending s')
     ∧ Console (ErrCheckingForUpdates e) ∈ newEvents s s'
     ∧ callbackEnded s s' t p)
  ∧ (∀ t p o1 o2 e rest,
       gitProjects (env s) !! t = Some p →
       autoMerge (getConfig s) = true →
       outcomes t sched = Fulfilled o1 :: Fulfilled o2 :: Rejected e :: rest →
       isBehind o2 = true →
       name p ∈ pending s'
       ∧ Console (ErrFailedToPull (name p) e) ∈ newEvents s s'
       ∧ ShowErrorMessage (MsgFailedToAutoSync (name p) (errorMessage e))
         ∈ newEvents s s'
       ∧ callbackEnded s s' t p)
  ∧ (∀ n, n ∈ pending s'
          ↔ ∃ t p, gitProjects (env s) !! t = Some p ∧ name p = n
                   ∧ foundBehind (outcomes t sched) = true)
  ∧ (gitProjects (env s) ≠ [] →
     (∀ t, t < length (gitProjects (env s)) →
           (4 ≤ length (outcomes t sched))%nat) →
     cycleEnded s s').
Proof.
  intros Hnd s'. split_and!.
  - intros t p e Ht Hfail.
    destruct (cycleRun_callback s sched t p Ht) as [Hend Hev].
    fold s' in Hend, Hev. split_and!.
    + subst s'. rewrite cycleRun_pending. intros (t' & q & Hq & Hn & Hf).
      assert (t' = t) as ->.
      { eapply NoDup_lookup; [done| |].
        - by rewrite list_lookup_fmap, Hq; simpl; rewrite Hn.
        - by rewrite list_lookup_fmap, Ht. }
      by destruct Hfail as [(rest & Ho)|(o & rest & Ho)];
        rewrite Ho in Hf.
    + apply Hev.
      destruct Hfail as [(rest & ->)|(o & rest & ->)]; simpl.
      * apply list_elem_of_here.
      * apply list_elem_of_further, list_elem_of_here.
    + apply Hend.
      destruct Hfail as [(rest & ->)|(o & rest & ->)]; simpl;
        by rewrite stageAfter_Finished.
  - intros t p o1 o2 e rest Ht Ham Ho Hbehind.
    destruct (cycleRun_callback s sched t p Ht) as [Hend Hev].
    fold s' in Hend, Hev. rewrite Ham, Ho in Hend, Hev.
    simpl in Hend, Hev. rewrite Hbehind in Hend, Hev. simpl in Hend, Hev.
    split_and!.
    + subst s'. rewrite cycleRun_pending. exists t, p.
      split_and!; [done..|]. by rewrite Ho.
    + apply Hev. do 3 apply list_elem_of_further. apply list_elem_of_here.
    + apply Hev. do 4 apply list_elem_of_further. apply list_elem_of_here.
    + apply Hend. by rewrite stageAfter_Finished.
  - intros n. apply cycleRun_pending.
  - intros Hsome Hall.
    destruct (cycleRun_some s sched Hsome) as (Hc & _). fold s' in Hc.
    eexists. split; [by rewrite Hc, list_lookup_middle|].
    unfold inFlight. apply negb_false_iff. simpl.
    apply allFinished_stagesAfter.
    intros t p st [q [[= -> ->] Hq]]%list_lookup_fmap_Some.
    apply stageAfter_enough, Hall. by eapply lookup_lt_Some.
Qed.

(** C5, as the spec states it, fails for pull: the pull of the project
    below is rejected, yet the project counts as having an update: it is
    pending, and the counter of the cycle, shown in the notification, is 1. *)
Lemma C5_failed_pull_counterexample :
  let s := newAutoSyncService
             (Scenario.world Scenario.autoMerging [Scenario.A]) in
  let sched := [(0, Scenario.ok); (0, Scenario.count "2");
                (0, Rejected (ErrorObject "conflict"))] in
  let s' := cycleRun s sched in
  foundBehind (outcomes 0 sched) = true
  ∧ pending s' = ["A"]
  ∧ updatesFound <$> cycles s' = [1]
  ∧ inFlight <$> cycles s' = [false]
  ∧ newEvents s s'
    = [Console (LogChecking 1);
       ExecGit fetchArgs "/contexts/A";
       ExecGit revListArgs "/contexts/A";
       Console (LogAutoPulling "A");
       ExecGit pullArgs "/contexts/A";
       Console (ErrFailedToPull "A" (ErrorObject "conflict"));
       ShowErrorMessage (MsgFailedToAutoSync "A" "conflict");
       ShowInformationMessage (MsgAutoSynced 1 "A") ["Show Changes"]].
Proof. intros s sched s'. split_and!; by_evaluation. Qed.

(** ** Calls while a cycle is in flight *)

Lemma startedCycle_inFlight aw s :
  gitProjects (env s) ≠ [] → inFlight (startedCycle aw s) = true.
Proof. intros Hsome. unfold inFlight; simpl. by destruct (gitProjects (env s)). Qed.

(** The resumption of a callback that awaits its fetch, in a cycle where
    it is not the only thing left to do. *)
Lemma settle_fetch s c t o cyc p :
  cycles s !! c = Some cyc → tasks cyc !! t = Some (p, AwaitFetch) →
  let cyc' := {| cyc_config := cyc_config cyc;
                 tasks := <[t := (p, AwaitRevList)]> (tasks cyc);
                 updatesFound := updatesFound cyc; awaiter := awaiter cyc |} in
  cycles (settle c t (Fulfilled o) s) = <[c := cyc']> (cycles s)
  ∧ trace (settle c t (Fulfilled o) s)
    = trace s ++ [ExecGit revListArgs (folderPath p)].
Proof.
  intros Hc Ht cyc'.
  destruct (settle_active s c t (Fulfilled o) cyc p AwaitFetch Hc Ht eq_refl)
    as (Hcy & _ & Htr & _).
  simpl in Hcy, Htr. fold cyc' in Hcy, Htr. split; [done|].
  rewrite Htr. f_equal.
  rewrite (allFinished_active _ t p AwaitRevList); [done| |done].
  apply list_lookup_insert_eq. by eapply lookup_lt_Some.
Qed.

(** C1, as the code has it.  [checkForUpdates()] has no re-entry guard:
    every call starts a cycle of its own.  Two calls in a row, the second
    while the first cycle is in flight, leave two cycles in flight and run
    the fan-out twice, hence two [git fetch] per eligible project; and when
    the two fetches of a project succeed, each cycle runs its own rev-list
    for it. *)
Theorem C1_every_call_starts_a_cycle (s : State) :
  gitProjects (env s) ≠ [] →
  let s2 := run s [CallCheckForUpdates; CallCheckForUpdates] in
  let c := length (cycles s) in
  cycles s2 = cycles s ++ [startedCycle Detached s; startedCycle Detached s]
  ∧ inFlight (startedCycle Detached s) = true
  ∧ newEvents s s2 = fanOutEvents (env s) ++ fanOutEvents (env s)
  ∧ (∀ p, p ∈ gitProjects (env s) →
       2 ≤ countEv (isEvent (ExecGit fetchArgs (folderPath p)))
             (newEvents s s2))%nat
  ∧ (∀ t p o1 o2, gitProjects (env s) !! t = Some p →
       newEvents s2
         (run s2 [Settle c t (Fulfilled o1); Settle (S c) t (Fulfilled o2)])
       = [ExecGit revListArgs (folderPath p);
          ExecGit revListArgs (folderPath p)]).
Proof.
  intros Hsome s2 c.
  destruct (checkForUpdates_some Detached s Hsome)
    as (_ & Hc1 & Htr1 & He1 & _).
  set (s1 := checkForUpdates Detached s) in *.
  assert (gitProjects (env s1) ≠ []) as Hsome1 by by rewrite He1.
  destruct (checkForUpdates_some Detached s1 Hsome1)
    as (_ & Hc2 & Htr2 & _).
  change (checkForUpdates Detached s1) with s2 in Hc2, Htr2.
  assert (startedCycle Detached s1 = startedCycle Detached s) as Hsame.
  { unfold startedCycle, getConfig. by rewrite He1. }
  rewrite Hsame, Hc1, <- (assoc_L (++)) in Hc2. simpl in Hc2.
  rewrite He1, Htr1, <- (assoc_L (++)) in Htr2.
  pose proof (newEvents_app _ _ _ Htr2) as Hnew.
  split_and!; [done|by apply startedCycle_inFlight|done| |].
  - intros p Hp. rewrite Hnew, countEv_app.
    assert (0 < countEv (isEvent (ExecGit fetchArgs (folderPath p)))
                  (fanOutEvents (env s))); [|lia].
    eapply countEv_elem; [|by apply bool_decide_eq_true_2].
    unfold fanOutEvents. apply list_elem_of_further.
    apply list_elem_of_fmap. by exists p.
  - intros t p o1 o2 Ht.
    assert (tasks (startedCycle Detached s) !! t = Some (p, AwaitFetch)) as Ht'.
    { simpl. by rewrite list_lookup_fmap, Ht. }
    assert (cycles s2 !! c = Some (startedCycle Detached s)) as Hc.
    { rewrite Hc2. by apply list_lookup_middle. }
    destruct (settle_fetch s2 c t o1 _ p Hc Ht') as (Hcy3 & Htr3).
    set (s3 := settle c t (Fulfilled o1) s2) in *.
    assert (cycles s3 !! S c = Some (startedCycle Detached s)) as Hc'.
    { rewrite Hcy3, list_lookup_insert_ne by lia. rewrite Hc2.
      subst c. rewrite lookup_app_r by lia.
      by replace (S (length (cycles s)) - length (cycles s)) with 1 by lia. }
    destruct (settle_fetch s3 (S c) t o2 _ p Hc' Ht') as (_ & Htr4).
    apply newEvents_app.
    change (run s2 [Settle c t (Fulfilled o1); Settle (S c) t (Fulfilled o2)])
      with (settle (S c) t (Fulfilled o2) s3).
    by rewrite Htr4, Htr3, <- (assoc_L (++)).
Qed.

(** Two calls in a row with two eligible projects: four fetches. *)
Lemma C1_every_call_witness :
  let s := newAutoSyncService
             (Scenario.world Scenario.notifyOnly [Scenario.A; Scenario.B]) in
  newEvents s (run s [CallCheckForUpdates; CallCheckForUpdates])
  = [Console (LogChecking 2);
     ExecGit fetchArgs "/contexts/A"; ExecGit fetchArgs "/contexts/B";
     Console (LogChecking 2);
     ExecGit fetchArgs "/contexts/A"; ExecGit fetchArgs "/contexts/B"].
Proof.
  intros s.
  refine (proj1 (proj2 (proj2 (C1_every_call_starts_a_cycle s _)))).
  by_evaluation.
Defined.

(** C1, as the spec states it, fails: two calls in a row on one instance
    start two cycles, and the one eligible project gets two fetches, two
    rev-lists and, under autoMerge, two pulls. *)
Lemma C1_reentry_counterexample :
  let s := newAutoSyncService
             (Scenario.world Scenario.autoMerging [Scenario.A]) in
  let s2 := run s [CallCheckForUpdates; CallCheckForUpdates] in
  let s' := run s2 [Settle 0 0 Scenario.ok; Settle 1 0 Scenario.ok;
                    Settle 0 0 (Scenario.count "1");
                    Settle 1 0 (Scenario.count "1");
                    Settle 0 0 Scenario.ok; Settle 1 0 Scenario.ok;
                    Settle 0 0 Scenario.ok; Settle 1 0 Scenario.ok] in
  inFlight <$> cycles s2 = [true; true]
  ∧ countEv (isEvent (ExecGit fetchArgs "/contexts/A")) (trace s') = 2
  ∧ countEv (isEvent (ExecGit revListArgs "/contexts/A")) (trace s') = 2
  ∧ countEv isPull (trace s') = 2
  ∧ countEv (isEvent (ExecGit fetchArgs "/contexts/A")) (trace s') ≠ 1.
Proof. intros s s2 s'. split_and!; by_evaluation. Qed.

(** ** Stopping *)

(** A settlement looks at the cycles and at the set only: two states that
    agree on them take the same step. *)
Lemma settle_sim s1 s2 c t r :
  pending s1 = pending s2 → cycles s1 = cycles s2 →
  pending (settle c t r s1) = pending (settle c t r s2)
  ∧ cycles (settle c t r s1) = cycles (settle c t r s2)
  ∧ ∃ evs, trace (settle c t r s1) = trace s1 ++ evs
           ∧ trace (settle c t r s2) = trace s2 ++ evs.
Proof.
  intros Hp Hc.
  destruct (cycles s1 !! c) as [cyc|] eqn:Hc1.
  - assert (cycles s2 !! c = Some cyc) as Hc2 by by rewrite <- Hc.
    destruct (tasks cyc !! t) as [[p st]|] eqn:Ht;
      [destruct (isFinished st) eqn:Hst|].
    + destruct st; try done.
      rewrite !(settle_idle _ _ _ _ _ Hc1), !(settle_idle _ _ _ _ _ Hc2)
        by eauto.
      split_and!; [done..|]. exists []. by rewrite !app_nil_r.
    + destruct (settle_active s1 c t r cyc p st Hc1 Ht Hst)
        as (Hcy1 & Hp1 & Htr1 & _).
      destruct (settle_active s2 c t r cyc p st Hc2 Ht Hst)
        as (Hcy2 & Hp2 & Htr2 & _).
      assert (pending (settle c t r s1) = pending (settle c t r s2)) as Hp'.
      { by rewrite Hp1, Hp2, Hp. }
      split_and!; [done|by rewrite Hcy1, Hcy2, Hc|].
      eexists. split; [done|]. by rewrite Htr2, Hp'.
    + rewrite !(settle_idle _ _ _ _ _ Hc1), !(settle_idle _ _ _ _ _ Hc2)
        by eauto.
      split_and!; [done..|]. exists []. by rewrite !app_nil_r.
  - assert (cycles s2 !! c = None) as Hc2 by by rewrite <- Hc.
    rewrite !settle_no_cycle by done.
    split_and!; [done..|]. exists []. by rewrite !app_nil_r.
Qed.




Lemma stop_frame s :
  intervalId (stop s) = None
  ∧ pending (stop s) = pending s ∧ lastCheckTime (stop s) = lastCheckTime s
  ∧ cycles (stop s) = cycles s ∧ env (stop s) = env s
  ∧ trace (stop s) = trace s ++ [Console LogStopped].
Proof.
  unfold stop. destruct (intervalId s) eqn:Hid; simpl; rewrite ?Hid;
    split_and!; reflexivity.
Qed.




(** C4, as the code has it.  After [stop()] the handle is absent and the
    timer it referred to is no longer armed; the set of pending projects,
    the time of the last check and the cycles in flight are as they were:
    [stop()] resets none of them. *)
Theorem C4_stop_cancels_timer_only (s : State) :
  intervalId (stop s) = None
  ∧ match intervalId s with
    | Some id => id ∉ (timers (stop s)).*1
    | None => timers (stop s) = timers s
    end
  ∧ pending (stop s) = pending s
  ∧ lastCheckTime (stop s) = lastCheckTime s
  ∧ cycles (stop s) = cycles s.
Proof.
  destruct (stop_frame s) as (Hid & Hp & Hl & Hc & _).
  split_and!; [done| |done..].
  unfold stop. destruct (intervalId s) as [id|]; simpl; [|done].
  intros [[id' ms] [Heq Hin]]%list_elem_of_fmap. simpl in Heq. subst id'.
  apply list_elem_of_In, filter_In in Hin as [_ Hne]. simpl in Hne.
  by rewrite Nat.eqb_refl in Hne.
Qed.

(** C4, as the spec states it, fails: after a cycle found project A behind,
    [stop()] leaves A in the set and leaves the time of the last check. *)
Lemma C4_stop_resets_counterexample :
  let s := run (newAutoSyncService
                  (Scenario.world Scenario.notifyOnly [Scenario.A]))
             [CallStart; CallCheckForUpdates;
              Settle 0 0 Scenario.ok; Settle 0 0 (Scenario.count "2")] in
  intervalId s = Some 0 ∧ timers s = [(0, 1800000%Z)]
  ∧ intervalId (stop s) = None ∧ timers (stop s) = []
  ∧ pending (stop s) = ["A"] ∧ pending (stop s) ≠ []
  ∧ lastCheckTime (stop s) = Some 1000%Z ∧ lastCheckTime (stop s) ≠ None.
Proof. intros s. split_and!; by_evaluation. Qed.

(** ** Starting twice *)

Lemma checkForUpdates_trace aw s :
  ∃ evs, trace (checkForUpdates aw s) = trace s ++ evs
         ∧ countEv isErrorReport evs = 0.
Proof.
  destruct (decide (gitProjects (env s) = [])) as [Hnone|Hsome].
  - destruct (checkForUpdates_none aw s Hnone) as (_ & _ & Htr & _).
    eexists. split; [done|]. by destruct aw.
  - destruct (checkForUpdates_some aw s Hsome) as (_ & _ & Htr & _).
    eexists. split; [done|]. unfold fanOutEvents; simpl.
    by apply countEv_fmap_none.
Qed.

Lemma start_trace s :
  ∃ evs, trace (start s) = trace s ++ evs ∧ countEv isErrorReport evs = 0.
Proof.
  unfold start. destruct (cfg_enabled (getConfig s)); simpl;
    [|by eexists].
  destruct (runOnStartup (getConfig s)).
  - destruct (checkForUpdates_trace
                (AwaitedByStart (getConfig s))
                (emit [Console (LogStarting (intervalMinutes (getConfig s)))] s))
      as (evs & -> & Hevs).
    simpl. eexists. split; [by rewrite <- (assoc_L (++))|]. done.
  - exists [Console (LogStarting (intervalMinutes (getConfig s)));
            Console LogStarted].
    split; [|done]. unfold startArm. simpl.
    by rewrite trace_updateStatusBar; simpl; rewrite <- (assoc_L (++)).
Qed.

(** C9, as the code has it.  [start()] and [stop()] check nothing and
    report nothing: neither logs or shows an error in any state, and
    [start()] does the same whether or not a timer handle is already stored
    (the same effects, the same new timer, the same new cycle). *)
Theorem C9_start_and_stop_report_no_misuse
    (s : State) (handle : option nat) :
  let s1 := start s in
  let s2 := start (set_intervalId handle s) in
  trace s2 = trace s1 ∧ timers s2 = timers s1
  ∧ nextTimer s2 = nextTimer s1 ∧ cycles s2 = cycles s1
  ∧ countEv isErrorReport (newEvents s s1) = 0
  ∧ countEv isErrorReport (newEvents s (stop s)) = 0.
Proof.
  intros s1 s2.
  assert (trace s2 = trace s1 ∧ timers s2 = timers s1
          ∧ nextTimer s2 = nextTimer s1 ∧ cycles s2 = cycles s1)
    as (Htr & Htm & Hnt & Hcy).
  { subst s1 s2.
    unfold start, checkForUpdates, resume, startArm, updateStatusBar,
      getConfig, setPending, pending; simpl.
    repeat (case_match; simpl; try done). }
  subst s1 s2. split_and!; [done..| |].
  - destruct (start_trace s) as (evs & Hevs & Hnone).
    by rewrite (newEvents_app _ _ _ Hevs).
  - destruct (stop_frame s) as (_ & _ & _ & _ & _ & Hstop).
    by rewrite (newEvents_app _ _ _ Hstop).
Qed.

(** C9, as the spec states it, fails: a second [start()] on a started
    service is not reported; it arms a second timer and stores its handle
    over the first, which [stop()] then cannot cancel: the first timer goes
    on starting cycles. *)
Lemma C9_double_start_counterexample :
  let s := newAutoSyncService
             (Scenario.world Scenario.notifyOnly [Scenario.A]) in
  let s2 := run s [CallStart; CallStart] in
  let s3 := run s2 [CallStop] in
  countEv isErrorReport (trace s2) = 0
  ∧ trace s2 = [Console (LogStarting 30); Console LogStarted;
                Console (LogStarting 30); Console LogStarted]
  ∧ timers s2 = [(0, 1800000%Z); (1, 1800000%Z)]
  ∧ intervalId s2 = Some 1
  ∧ intervalId s3 = None ∧ timers s3 = [(0, 1800000%Z)]
  ∧ length (cycles (run s3 [TimerFires 0])) = 1.
Proof. intros s s2 s3. split_and!; by_evaluation. Qed.

(** ** Reading the set *)

Lemma hasSet_newAutoSyncService e : hasSet (newAutoSyncService e).
Proof. by exists []. Qed.

Lemma hasSet_setPending elems s : hasSet (setPending elems s).
Proof. exists elems. unfold setPending; simpl. apply lookup_insert_eq. Qed.

Lemma hasSet_frame s s' :
  heap s' = heap s → projectsWithUpdates s' = projectsWithUpdates s →
  hasSet s → hasSet s'.
Proof. unfold hasSet. by intros -> ->. Qed.

Lemma hasSet_checkForUpdates aw s : hasSet (checkForUpdates aw s).
Proof.
  unfold checkForUpdates. case_match.
  - match goal with |- hasSet (resume aw ?x) =>
      destruct (resume_frame aw x) as (Hh & _ & _ & _ & Hw & _)
    end.
    eapply hasSet_frame; [done..|].
    eapply hasSet_frame;
      [apply heap_updateStatusBar|
       by unfold updateStatusBar; repeat case_match|].
    apply (hasSet_setPending [] (set_lastCheckTime (Some (now (env s))) s)).
  - apply (hasSet_setPending [] (set_lastCheckTime (Some (now (env s))) s)).
Qed.

Lemma hasSet_settle c t r s : hasSet s → hasSet (settle c t r s).
Proof.
  intros Hs.
  destruct (cycles s !! c) as [cyc|] eqn:Hc; [|by rewrite settle_no_cycle].
  destruct (tasks cyc !! t) as [[p st]|] eqn:Ht;
    [destruct (isFinished st) eqn:Hst|].
  - destruct st; try done. by rewrite (settle_idle _ _ _ _ _ Hc) by eauto.
  - unfold settle. rewrite Hc, Ht, Hst.
    destruct (taskStep _ p st r) as [[st' found] evs].
    set (s1 := if found then setPending _ s else s).
    assert (hasSet s1) as Hs1.
    { subst s1. destruct found; [apply hasSet_setPending|done]. }
    simpl.
    match goal with
    | |- hasSet (if ?b then finishCycle ?cyc ?x else _) =>
        destruct b; [|exact Hs1];
        destruct (finishCycle_frame cyc x) as (Hh & _ & _ & _ & Hw & _);
        eapply hasSet_frame; [exact Hh|exact Hw|exact Hs1]
    end.
  - by rewrite (settle_idle _ _ _ _ _ Hc) by eauto.
Qed.

(** Every state that the service reaches holds its set. *)
Lemma hasSet_step s i : hasSet s → hasSet (step s i).
Proof.
  intros Hs. destruct i as [| | |id|c t r|e]; simpl.
  - unfold start. repeat case_match; try done.
    + apply hasSet_checkForUpdates.
    + unfold startArm, setInterval, updateStatusBar; simpl.
      by repeat case_match.
  - unfold stop, clearInterval. by repeat case_match.
  - apply hasSet_checkForUpdates.
  - case_match; [apply hasSet_checkForUpdates|done].
  - by apply hasSet_settle.
  - done.
Qed.

Lemma hasSet_run inputs : ∀ s, hasSet s → hasSet (run s inputs).
Proof.
  induction inputs as [|i inputs IH]; intros s Hs; [done|].
  apply (IH (step s i)). by apply hasSet_step.
Qed.

(** C10. [getProjectsWithUpdates()] only reads: it returns a reference to
    a new array that holds the elements of the set, and leaves every field
    of the service, the timers, the cycles, the effects and every object
    that existed as they were, so it starts no cycle.  The array is not the
    set: whatever a caller stores through the reference afterwards, the set
    is unchanged and a later call returns its elements again. *)
Theorem C10_getProjectsWithUpdates_is_a_pure_read (s : State) :
  hasSet s →
  let l := (getProjectsWithUpdates s).1 in
  let s' := (getProjectsWithUpdates s).2 in
  heap s' !! l = Some (JSArray (pending s))
  ∧ heap s !! l = None
  ∧ (∀ l', l' ≠ l → heap s' !! l' = heap s !! l')
  ∧ pending s' = pending s
  ∧ (env s' = env s ∧ intervalId s' = intervalId s
     ∧ statusBarItem s' = statusBarItem s
     ∧ lastCheckTime s' = lastCheckTime s
     ∧ projectsWithUpdates s' = projectsWithUpdates s
     ∧ timers s' = timers s ∧ nextTimer s' = nextTimer s
     ∧ cycles s' = cycles s ∧ trace s' = trace s)
  ∧ (∀ elems,
       let s'' := arrayStore l elems s' in
       pending s'' = pending s
       ∧ heap (getProjectsWithUpdates s'').2 !! (getProjectsWithUpdates s'').1
         = Some (JSArray (pending s))
       ∧ (getProjectsWithUpdates s'').1 ≠ l).
Proof.
  intros [set Hset] l s'.
  assert (heap s !! l = None) as Hfresh.
  { apply not_elem_of_dom. apply is_fresh. }
  assert (l ≠ projectsWithUpdates s) as Hne.
  { intros Heq. by rewrite Heq, Hset in Hfresh. }
  assert (pending s' = pending s) as Hp.
  { unfold pending; simpl. by rewrite lookup_insert_ne. }
  split_and!; try done.
  - apply lookup_insert_eq.
  - intros l' Hl'. simpl. by rewrite lookup_insert_ne.
  - intros elems s''.
    assert (pending s'' = pending s) as Hp''.
    { unfold pending; simpl. by rewrite !lookup_insert_ne. }
    split_and!; [done| |].
    + simpl. rewrite lookup_insert_eq. f_equal. f_equal. apply Hp''.
    + intros Heq. pose proof (is_fresh (dom (heap s''))) as Hnew.
      change (fresh (dom (heap s''))) with (getProjectsWithUpdates s'').1
        in Hnew.
      rewrite Heq in Hnew. apply Hnew. unfold s'', arrayStore; simpl.
      rewrite dom_insert. apply elem_of_union_l. by apply elem_of_singleton.
Qed.

(** After a cycle that found A behind: the array holds A, and storing
    other elements in it leaves the set alone. *)
Lemma C10_getProjectsWithUpdates_witness :
  let s := cycleRun (newAutoSyncService
                       (Scenario.world Scenario.notifyOnly [Scenario.A]))
             [(0, Scenario.ok); (0, Scenario.count "2")] in
  let l := (getProjectsWithUpdates s).1 in
  let s' := (getProjectsWithUpdates s).2 in
  heap s' !! l = Some (JSArray ["A"])
  ∧ pending (arrayStore l ["X"; "Y"] s') = ["A"].
Proof.
  intros s l s'.
  assert (hasSet s) as Hs.
  { exists ["A"]. by_evaluation. }
  destruct (C10_getProjectsWithUpdates_is_a_pure_read s Hs)
    as (Hget & _ & _ & _ & _ & Hstore).
  assert (pending s = ["A"]) as Hp by by_evaluation.
  fold l s' in Hget, Hstore. rewrite Hp in Hget, Hstore.
  split; [exact Hget|exact (proj1 (Hstore ["X"; "Y"]))].
Defined.

(** ** Cycles that overlap *)

Local Arguments scheduleOf : simpl never.

Lemma scheduleOf_nil c : scheduleOf c [] = [].
Proof. reflexivity. Qed.

Lemma scheduleOf_here c t r inputs :
  scheduleOf c (Settle c t r :: inputs) = (t, r) :: scheduleOf c inputs.
Proof. unfold scheduleOf. simpl. by rewrite decide_True. Qed.

Lemma scheduleOf_other c c' t r inputs :
  c' ≠ c → scheduleOf c (Settle c' t r :: inputs) = scheduleOf c inputs.
Proof. intros Hne. unfold scheduleOf. simpl. by rewrite decide_False. Qed.

Lemma scheduleOf_skip c i inputs :
  ¬ isSettle i → scheduleOf c (i :: inputs) = scheduleOf c inputs.
Proof. intros Hi. by destruct i. Qed.

Lemma scheduleOf_settles c sched : scheduleOf c (settles c sched) = sched.
Proof.
  induction sched as [|[t r] sched IH]; [done|].
  change (settles c ((t, r) :: sched)) with (Settle c t r :: settles c sched).
  by rewrite scheduleOf_here, IH.
Qed.

Lemma outcomes_app t sched1 sched2 :
  outcomes t (sched1 ++ sched2) = outcomes t sched1 ++ outcomes t sched2.
Proof. unfold outcomes. apply omap_app. Qed.

Lemma stageAfter_app am p st outs1 outs2 :
  stageAfter am p st (outs1 ++ outs2)
  = stageAfter am p (stageAfter am p st outs1) outs2.
Proof.
  revert st. induction outs1 as [|r outs1 IH]; intros st; simpl; [done|].
  apply IH.
Qed.

Lemma foundCount_app am p st outs1 outs2 :
  foundCount am p st (outs1 ++ outs2)
  = foundCount am p st outs1
    + foundCount am p (stageAfter am p st outs1) outs2.
Proof.
  revert st. induction outs1 as [|r outs1 IH]; intros st; simpl; [done|].
  rewrite IH. lia.
Qed.

Lemma eventsOf_app am p st outs1 outs2 :
  eventsOf am p st (outs1 ++ outs2)
  = eventsOf am p st outs1
    ++ eventsOf am p (stageAfter am p st outs1) outs2.
Proof.
  revert st. induction outs1 as [|r outs1 IH]; intros st; simpl; [done|].
  by rewrite IH, (assoc_L (++)).
Qed.

Lemma stagesAfter_app am ts sched1 sched2 : ∀ k,
  stagesAfter am k ts (sched1 ++ sched2)
  = stagesAfter am k (stagesAfter am k ts sched1) sched2.
Proof.
  induction ts as [|[p st] ts IH]; intros k; simpl; [done|].
  by rewrite outcomes_app, stageAfter_app, IH.
Qed.

Lemma taskFound_app am ts sched1 sched2 : ∀ k,
  taskFound am k ts (sched1 ++ sched2)
  = taskFound am k ts sched1
    + taskFound am k (stagesAfter am k ts sched1) sched2.
Proof.
  induction ts as [|[p st] ts IH]; intros k; simpl; [done|].
  rewrite outcomes_app, foundCount_app, IH. lia.
Qed.

Lemma cycleAfter_app cyc sched1 sched2 :
  cycleAfter (cycleAfter cyc sched1) sched2 = cycleAfter cyc (sched1 ++ sched2).
Proof.
  unfold cycleAfter. simpl.
  rewrite stagesAfter_app, taskFound_app. f_equal. lia.
Qed.

Lemma stagesAfter_length am ts sched : ∀ k,
  length (stagesAfter am k ts sched) = length ts.
Proof.
  induction ts as [|[p st] ts IH]; intros k; simpl; [done|]. by rewrite IH.
Qed.

(** The callbacks of a cycle after a schedule, and before it. *)
Lemma cycleAfter_lookup cyc sched t p st' :
  tasks (cycleAfter cyc sched) !! t = Some (p, st')
  ↔ ∃ st, tasks cyc !! t = Some (p, st)
          ∧ st' = stageAfter (autoMerge (cyc_config cyc)) p st
                    (outcomes t sched).
Proof.
  unfold cycleAfter. simpl. split.
  - intros Ht.
    destruct (tasks cyc !! t) as [[q st]|] eqn:Hq.
    + rewrite (stagesAfter_lookup _ _ _ 0 t q st Hq) in Ht.
      injection Ht as <- <-. by exists st.
    + apply lookup_lt_Some in Ht. rewrite stagesAfter_length in Ht.
      apply lookup_ge_None in Hq. lia.
  - intros (st & Ht & ->). by rewrite (stagesAfter_lookup _ _ _ 0 t p st Ht).
Qed.

(** ** One turn *)

(** A turn that is no settlement leaves the cycles alone or adds one. *)
Lemma step_cycles s i :
  ¬ isSettle i → ∃ new, cycles (step s i) = cycles s ++ new.
Proof.
  assert (∀ aw x, cycles x = cycles s →
            ∃ new, cycles (checkForUpdates aw x) = cycles s ++ new) as Hcheck.
  { intros aw x Hx.
    destruct (decide (gitProjects (env x) = [])) as [Hnone|Hsome].
    - destruct (checkForUpdates_none aw x Hnone) as (_ & -> & _).
      exists []. by rewrite app_nil_r.
    - destruct (checkForUpdates_some aw x Hsome) as (_ & -> & _).
      rewrite Hx. by eexists. }
  destruct i as [| | |id|c t r|e]; cbn [step]; intros Hi;
    [| | | |by destruct Hi|].
  - unfold start. destruct (cfg_enabled (getConfig s)); simpl;
      [|exists []; by rewrite app_nil_r].
    destruct (runOnStartup (getConfig s)); [by apply Hcheck|].
    match goal with |- context [startArm ?cfg ?x] =>
      destruct (resume_frame (AwaitedByStart cfg) x) as (_ & Hc & _)
    end.
    exists []. by rewrite app_nil_r.
  - destruct (stop_frame s) as (_ & _ & _ & -> & _).
    exists []. by rewrite app_nil_r.
  - by apply Hcheck.
  - case_match; [by apply Hcheck|]. exists []. by rewrite app_nil_r.
  - exists []. by rewrite app_nil_r.
Qed.

(** A turn that calls no [checkForUpdates()] and is no settlement leaves
    the cycles and the set alone. *)
Lemma step_quiet s i :
  callsCheckForUpdates s i = false → ¬ isSettle i →
  cycles (step s i) = cycles s ∧ pending (step s i) = pending s.
Proof.
  destruct i as [| | |id|c t r|e]; cbn [step callsCheckForUpdates];
    try done; intros Hq Hi.
  - unfold start. destruct (cfg_enabled (getConfig s)); simpl; [|done].
    simpl in Hq. rewrite Hq.
    match goal with |- context [startArm ?cfg ?x] =>
      destruct (resume_frame (AwaitedByStart cfg) x) as (Hh & Hc & _ & _ & Hw & _)
    end.
    split; [done|]. by apply pending_heap.
  - by destruct (stop_frame s) as (_ & -> & _ & -> & _).
  - by rewrite Hq.
Qed.

(** A settlement takes the cycle it is for one step along its schedule. *)
Lemma settle_cycles s c t r cyc :
  cycles s !! c = Some cyc →
  cycles (settle c t r s) = <[c := cycleAfter cyc [(t, r)]]> (cycles s).
Proof.
  intros Hc. by destruct (cycle_run [(t, r)] s c cyc Hc) as (Hcy & _).
Qed.

Lemma step_cycle_lookup s i c cyc :
  cycles s !! c = Some cyc →
  cycles (step s i) !! c = Some (cycleAfter cyc (scheduleOf c [i])).
Proof.
  intros Hc.
  destruct (decide (isSettle i)) as [Hi|Hi].
  - destruct i as [| | | |c' t r|]; try done. simpl.
    destruct (decide (c' = c)) as [->|Hne].
    + rewrite (settle_cycles _ _ _ _ _ Hc), scheduleOf_here, scheduleOf_nil.
      apply list_lookup_insert_eq. by eapply lookup_lt_Some.
    + rewrite scheduleOf_other, scheduleOf_nil, cycleAfter_nil by done.
      destruct (cycles s !! c') as [cyc'|] eqn:Hc';
        [|by rewrite settle_no_cycle].
      rewrite (settle_cycles _ _ _ _ _ Hc').
      by rewrite list_lookup_insert_ne.
  - destruct (step_cycles s i Hi) as [new ->].
    rewrite scheduleOf_skip, scheduleOf_nil, cycleAfter_nil by done.
    by apply lookup_app_l_Some.
Qed.

Lemma scheduleOf_cons c i inputs :
  scheduleOf c (i :: inputs) = scheduleOf c [i] ++ scheduleOf c inputs.
Proof. unfold scheduleOf. by rewrite (omap_app _ [i] inputs). Qed.

(** Whatever else happens, a cycle goes along its own schedule: the
    settlements of other cycles, the calls and the changes of the
    surroundings do not touch it. *)
Lemma run_cycle inputs : ∀ s c cyc,
  cycles s !! c = Some cyc →
  cycles (run s inputs) !! c = Some (cycleAfter cyc (scheduleOf c inputs)).
Proof.
  induction inputs as [|i inputs IH]; intros s c cyc Hc.
  - by rewrite scheduleOf_nil, cycleAfter_nil.
  - change (run s (i :: inputs)) with (run (step s i) inputs).
    rewrite (IH _ _ _ (step_cycle_lookup s i c cyc Hc)).
    by rewrite cycleAfter_app, <- scheduleOf_cons.
Qed.

(** Turns that call no [checkForUpdates()] start no cycle. *)
Lemma step_quiet_length s i :
  callsCheckForUpdates s i = false → length (cycles (step s i)) = length (cycles s).
Proof.
  intros Hq. destruct (decide (isSettle i)) as [Hi|Hi].
  - destruct i as [| | | |c t r|]; try done. simpl.
    destruct (cycles s !! c) as [cyc|] eqn:Hc; [|by rewrite settle_no_cycle].
    by rewrite (settle_cycles _ _ _ _ _ Hc), length_insert.
  - by destruct (step_quiet s i Hq Hi) as [-> _].
Qed.

Lemma step_quiet_lookup s i c cyc' :
  callsCheckForUpdates s i = false →
  cycles (step s i) !! c = Some cyc' →
  ∃ cyc, cycles s !! c = Some cyc ∧ cyc' = cycleAfter cyc (scheduleOf c [i]).
Proof.
  intros Hq Hc'.
  destruct (cycles s !! c) as [cyc|] eqn:Hc.
  - exists cyc. split; [done|].
    rewrite (step_cycle_lookup s i c cyc Hc) in Hc'. by injection Hc'.
  - apply lookup_lt_Some in Hc'. rewrite step_quiet_length in Hc' by done.
    apply lookup_ge_None in Hc. lia.
Qed.

(** The set after one settlement. *)
Lemma settle_pending s c t r cyc n :
  cycles s !! c = Some cyc →
  n ∈ pending (settle c t r s)
  ↔ n ∈ pending s
    ∨ ∃ t' p st, tasks cyc !! t' = Some (p, st) ∧ name p = n
        ∧ 0 < foundCount (autoMerge (cyc_config cyc)) p st
                (outcomes t' [(t, r)]).
Proof. intros Hc. apply (cycle_run_pending [(t, r)] s c cyc n Hc). Qed.

(** One turn earlier or later, the same names are in the set or are found
    by some callback. *)
Lemma foundDuring_step s i inputs n :
  callsCheckForUpdates s i = false →
  (n ∈ pending (step s i) ∨ foundDuring (step s i) inputs n)
  ↔ (n ∈ pending s ∨ foundDuring s (i :: inputs) n).
Proof.
  intros Hq. unfold foundDuring.
  destruct (decide (isSettle i)) as [Hi|Hi].
  - destruct i as [| | | |c0 t0 r|]; try done. clear Hi Hq.
    change (step s (Settle c0 t0 r)) with (settle c0 t0 r s).
    destruct (cycles s !! c0) as [cyc0|] eqn:Hc0.
    + pose proof (settle_pending s c0 t0 r cyc0 n Hc0) as Hp.
      pose proof (settle_cycles s c0 t0 r cyc0 Hc0) as Hcy.
      assert (c0 < length (cycles s)) as Hlen by by eapply lookup_lt_Some.
      split.
      * intros [[Hn|(t & p & st & Ht & Hname & Hf)]%Hp
               |(c & cyc1 & t & p & st1 & Hc & Ht & Hname & Hf)].
        -- by left.
        -- right. exists c0, cyc0, t, p, st. split_and!; [done..|].
           rewrite scheduleOf_cons, scheduleOf_here, scheduleOf_nil,
             outcomes_app, foundCount_app. simpl. lia.
        -- right. rewrite Hcy in Hc.
           destruct (decide (c = c0)) as [->|Hne].
           ++ rewrite list_lookup_insert_eq in Hc by done.
              injection Hc as <-.
              apply cycleAfter_lookup in Ht as (st & Ht & ->).
              exists c0, cyc0, t, p, st. split_and!; [done..|].
              rewrite scheduleOf_cons, scheduleOf_here, scheduleOf_nil,
                outcomes_app, foundCount_app. simpl in *. lia.
           ++ rewrite list_lookup_insert_ne in Hc by done.
              exists c, cyc1, t, p, st1. split_and!; [done..|].
              by rewrite scheduleOf_other.
      * intros [Hn|(c & cyc & t & p & st & Hc & Ht & Hname & Hf)].
        -- left. apply Hp. by left.
        -- destruct (decide (c = c0)) as [->|Hne].
           ++ assert (cyc = cyc0) as -> by congruence.
              rewrite scheduleOf_cons, scheduleOf_here, scheduleOf_nil,
                outcomes_app, foundCount_app in Hf. simpl in Hf.
              destruct (decide (0 < foundCount (autoMerge (cyc_config cyc0))
                                      p st (outcomes t [(t0, r)])))
                as [Hnow|Hlater].
              ** left. apply Hp. right. by exists t, p, st.
              ** right. exists c0, (cycleAfter cyc0 [(t0, r)]), t, p,
                   (stageAfter (autoMerge (cyc_config cyc0)) p st
                      (outcomes t [(t0, r)])).
                 split_and!; [|by apply cycleAfter_lookup; eauto|done|].
                 { rewrite Hcy. by apply list_lookup_insert_eq. }
                 simpl. lia.
           ++ right. exists c, cyc, t, p, st. split_and!; [|done..|].
              { rewrite Hcy. by rewrite list_lookup_insert_ne. }
              by rewrite scheduleOf_other in Hf.
    + rewrite settle_no_cycle by done.
      apply or_iff_compat_l.
      split; intros (c & cyc & t & p & st & Hc & Ht & Hname & Hf);
        exists c, cyc, t, p, st; (split_and!; [done..|]);
        assert (c0 ≠ c) by congruence.
      * by rewrite scheduleOf_other.
      * by rewrite scheduleOf_other in Hf.
  - destruct (step_quiet s i Hq Hi) as [-> ->].
    apply or_iff_compat_l.
    split; intros (c & cyc & t & p & st & Hc & Ht & Hname & Hf);
      exists c, cyc, t, p, st; (split_and!; [done..|]).
    + by rewrite scheduleOf_skip.
    + by rewrite scheduleOf_skip in Hf.
Qed.

(** While no [checkForUpdates()] is called, a name is in the set exactly
    when it was there before or some callback for a project of that name,
    of whatever cycle, has found its project behind. *)
Lemma run_pending inputs : ∀ s n,
  noCheckForUpdates s inputs = true →
  n ∈ pending (run s inputs) ↔ n ∈ pending s ∨ foundDuring s inputs n.
Proof.
  induction inputs as [|i inputs IH]; intros s n Hq.
  - change (run s []) with s. split; [by left|].
    intros [?|(c & cyc & t & p & st & _ & _ & _ & Hf)]; [done|].
    rewrite scheduleOf_nil in Hf. simpl in Hf. lia.
  - simpl in Hq. apply andb_true_iff in Hq as [Hi%negb_true_iff Hq].
    change (run s (i :: inputs)) with (run (step s i) inputs).
    rewrite (IH _ _ Hq). by apply foundDuring_step.
Qed.

(** ** The effects of a run *)

(** Effects are only added. *)
Lemma step_trace s i : ∃ evs, trace (step s i) = trace s ++ evs.
Proof.
  destruct i as [| | |id|c t r|e]; cbn [step].
  - destruct (start_trace s) as (evs & ? & _). by exists evs.
  - destruct (stop_frame s) as (_ & _ & _ & _ & _ & ?). by eexists.
  - destruct (checkForUpdates_trace Detached s) as (evs & ? & _).
    by exists evs.
  - case_match; [|exists []; by rewrite app_nil_r].
    destruct (checkForUpdates_trace Detached s) as (evs & ? & _).
    by exists evs.
  - destruct (settle_sim s s c t r eq_refl eq_refl) as (_ & _ & evs & ? & _).
    by exists evs.
  - exists []. by rewrite app_nil_r.
Qed.

Lemma run_trace inputs : ∀ s, ∃ evs, trace (run s inputs) = trace s ++ evs.
Proof.
  induction inputs as [|i inputs IH]; intros s.
  - exists []. by rewrite app_nil_r.
  - change (run s (i :: inputs)) with (run (step s i) inputs).
    destruct (IH (step s i)) as [evs2 ->].
    destruct (step_trace s i) as [evs1 ->].
    exists (evs1 ++ evs2). by rewrite (assoc_L (++)).
Qed.

Lemma elem_of_newEvents s1 s2 s3 e :
  (∃ evs, trace s2 = trace s1 ++ evs) →
  (∃ evs, trace s3 = trace s2 ++ evs) →
  e ∈ newEvents s1 s2 ∨ e ∈ newEvents s2 s3 → e ∈ newEvents s1 s3.
Proof.
  intros [evs1 H1] [evs2 H2].
  rewrite (newEvents_app _ _ _ H1), (newEvents_app _ _ _ H2).
  rewrite (newEvents_app s1 s3 (evs1 ++ evs2))
    by (by rewrite H2, H1, (assoc_L (++))).
  rewrite elem_of_app. tauto.
Qed.

(** What a callback does when the operation that it awaits settles is
    among the effects of the settlement. *)
Lemma settle_events s c t r cyc p st e :
  cycles s !! c = Some cyc → tasks cyc !! t = Some (p, st) →
  e ∈ eventsOf (autoMerge (cyc_config cyc)) p st [r] →
  e ∈ newEvents s (settle c t r s).
Proof.
  intros Hc Ht He. destruct (isFinished st) eqn:Hst.
  { destruct st; try done. by apply elem_of_nil in He. }
  destruct (settle_active s c t r cyc p st Hc Ht Hst) as (_ & _ & Htr & _).
  rewrite (newEvents_app _ _ _ Htr). simpl in He. rewrite app_nil_r in He.
  apply elem_of_app. by left.
Qed.

(** The effects of a callback are among the effects of the run, whatever
    else happens in between. *)
Lemma run_callback_events inputs : ∀ s c cyc t p st e,
  cycles s !! c = Some cyc → tasks cyc !! t = Some (p, st) →
  e ∈ eventsOf (autoMerge (cyc_config cyc)) p st
        (outcomes t (scheduleOf c inputs)) →
  e ∈ newEvents s (run s inputs).
Proof.
  induction inputs as [|i inputs IH]; intros s c cyc t p st e Hc Ht He.
  - rewrite scheduleOf_nil in He. by apply elem_of_nil in He.
  - change (run s (i :: inputs)) with (run (step s i) inputs).
    apply (elem_of_newEvents s (step s i)); [apply step_trace|apply run_trace|].
    rewrite scheduleOf_cons, outcomes_app, eventsOf_app in He.
    apply elem_of_app in He as [He|He].
    + left. destruct i as [| | | |c' t' r|];
        try (rewrite scheduleOf_skip, scheduleOf_nil in He by (by intros ?);
             by apply elem_of_nil in He).
      destruct (decide (c' = c)) as [->|Hne];
        [|rewrite scheduleOf_other, scheduleOf_nil in He by done;
          by apply elem_of_nil in He].
      rewrite scheduleOf_here, scheduleOf_nil in He.
      destruct (decide (t' = t)) as [->|Hne];
        [|rewrite outcomes_other in He by done; by apply elem_of_nil in He].
      rewrite outcomes_here in He. by eapply settle_events.
    + right.
      apply (IH (step s i) c (cycleAfter cyc (scheduleOf c [i])) t p
               (stageAfter (autoMerge (cyc_config cyc)) p st
                  (outcomes t (scheduleOf c [i]))) e);
        [by apply step_cycle_lookup|by apply cycleAfter_lookup; eauto|done].
Qed.

(** ** A call of [checkForUpdates()] and what follows it *)

(** When no cycle is in flight, no callback finds anything. *)
Lemma foundDuring_none s inputs n :
  Forall (λ cyc, inFlight cyc = false) (cycles s) → ¬ foundDuring s inputs n.
Proof.
  intros Hall (c & cyc & t & p & st & Hc & Ht & _ & Hf).
  rewrite Forall_lookup in Hall. specialize (Hall _ _ Hc).
  apply negb_false_iff in Hall.
  rewrite (allFinished_lookup _ _ _ _ Hall Ht), foundCount_Finished in Hf.
  lia.
Qed.

(** The set after a call of [checkForUpdates()] and inputs that call it no
    more: the projects that the new cycle has found behind, and those that
    callbacks of the older cycles have found behind since. *)
Lemma call_pending aw s inputs n :
  noCheckForUpdates (checkForUpdates aw s) inputs = true →
  n ∈ pending (run (checkForUpdates aw s) inputs)
  ↔ (∃ t p, gitProjects (env s) !! t = Some p ∧ name p = n
            ∧ foundBehind (outcomes t (scheduleOf (length (cycles s)) inputs))
              = true)
    ∨ foundDuring s inputs n.
Proof.
  intros Hq. rewrite (run_pending _ _ _ Hq).
  destruct (decide (gitProjects (env s) = [])) as [Hnone|Hsome].
  - destruct (checkForUpdates_none aw s Hnone) as (Hp & Hc & _).
    rewrite Hp. unfold foundDuring. rewrite Hc, Hnone. split.
    + intros [?%elem_of_nil|?]; [done|by right].
    + intros [(t & p & ? & _)|?]; [done|by right].
  - destruct (checkForUpdates_some aw s Hsome) as (Hp & Hc & _).
    rewrite Hp. unfold foundDuring. rewrite Hc. split.
    + intros [?%elem_of_nil|(c & cyc & t & p & st & Hcyc & Ht & Hn & Hf)];
        [done|].
      apply lookup_app_Some in Hcyc as [Hcyc|[Hlen Hcyc]];
        [right; exists c, cyc, t, p, st; by split_and!|].
      left. apply list_lookup_singleton_Some in Hcyc as [Hc0 <-].
      assert (c = length (cycles s)) as -> by lia.
      simpl in Ht. rewrite list_lookup_fmap in Ht.
      destruct (gitProjects (env s) !! t) as [q|] eqn:Hq'; [|done].
      injection Ht as <- <-. exists t, q. split_and!; [done..|].
      simpl in Hf. rewrite foundCount_AwaitFetch in Hf.
      destruct (foundBehind _); [done|lia].
    + intros [(t & p & Ht & Hn & Hf)|(c & cyc & t & p & st & Hcyc & ?)].
      * right. exists (length (cycles s)), (startedCycle aw s), t, p,
          AwaitFetch.
        split_and!; [by apply list_lookup_middle| |done|].
        -- simpl. by rewrite list_lookup_fmap, Ht.
        -- simpl. rewrite foundCount_AwaitFetch, Hf. lia.
      * right. exists c, cyc, t, p, st. split; [|done].
        by apply lookup_app_l_Some.
Qed.

(** The cycle that the call has started goes along its own schedule. *)
Lemma call_cycle aw s inputs :
  gitProjects (env s) ≠ [] →
  cycles (run (checkForUpdates aw s) inputs) !! length (cycles s)
  = Some (cycleAfter (startedCycle aw s)
            (scheduleOf (length (cycles s)) inputs)).
Proof.
  intros Hsome. apply run_cycle.
  destruct (checkForUpdates_some aw s Hsome) as (_ & -> & _).
  by apply list_lookup_middle.
Qed.

(** The callbacks of the new cycle. *)
Lemma call_callback aw s inputs t p :
  gitProjects (env s) !! t = Some p →
  let c := length (cycles s) in
  let s' := run (checkForUpdates aw s) inputs in
  let am := autoMerge (getConfig s) in
  (∃ cyc', cycles s' !! c = Some cyc'
     ∧ tasks cyc' !! t
       = Some (p, stageAfter am p AwaitFetch (outcomes t (scheduleOf c inputs)))
     ∧ updatesFound cyc'
       = length (foundNames 0 (gitProjects (env s)) (scheduleOf c inputs)))
  ∧ (∀ e, e ∈ eventsOf am p AwaitFetch (outcomes t (scheduleOf c inputs)) →
          e ∈ newEvents s s').
Proof.
  intros Ht c s' am.
  assert (gitProjects (env s) ≠ []) as Hsome.
  { intros Hnil. by rewrite Hnil in Ht. }
  assert (tasks (startedCycle aw s) !! t = Some (p, AwaitFetch)) as Ht0.
  { simpl. by rewrite list_lookup_fmap, Ht. }
  split.
  - eexists. split; [by apply call_cycle|]. split.
    + apply cycleAfter_lookup. by exists AwaitFetch.
    + simpl. by rewrite (length_foundNames am).
  - intros e He. subst s'.
    destruct (checkForUpdates_some aw s Hsome) as (_ & Hc & Htr & _).
    apply (elem_of_newEvents s (checkForUpdates aw s));
      [by eexists|apply run_trace|right].
    apply (run_callback_events inputs _ c (startedCycle aw s) t p
             AwaitFetch); [|done..].
    rewrite Hc. by apply list_lookup_middle.
Qed.

(** Every input that makes the service call [checkForUpdates()] does so
    in a state with the surroundings and the cycles of the state before. *)
Lemma step_calls s i :
  callsCheckForUpdates s i = true →
  ∃ aw s0, step s i = checkForUpdates aw s0
           ∧ env s0 = env s ∧ cycles s0 = cycles s.
Proof.
  destruct i as [| | |id|c t r|e]; cbn [step callsCheckForUpdates];
    try done; intros Hq.
  - apply andb_true_iff in Hq as [Hen Hro]. unfold start.
    rewrite Hen, Hro. cbn [negb]. by eexists _, _.
  - by exists Detached, s.
  - rewrite Hq. by exists Detached, s.
Qed.

(** A call of [checkForUpdates()] empties the set. *)
Lemma checkForUpdates_pending aw s : pending (checkForUpdates aw s) = [].
Proof.
  destruct (decide (gitProjects (env s) = [])) as [Hnone|Hsome].
  - by destruct (checkForUpdates_none aw s Hnone) as (-> & _).
  - by destruct (checkForUpdates_some aw s Hsome) as (-> & _).
Qed.

Lemma step_calls_pending s i :
  callsCheckForUpdates s i = true → pending (step s i) = [].
Proof.
  intros (aw & s0 & -> & _)%step_calls. apply checkForUpdates_pending.
Qed.

Lemma noCheckForUpdates_app inputs1 inputs2 : ∀ s,
  noCheckForUpdates s (inputs1 ++ inputs2)
  = noCheckForUpdates s inputs1
    && noCheckForUpdates (run s inputs1) inputs2.
Proof.
  induction inputs1 as [|i inputs1 IH]; intros s; [done|].
  simpl. by rewrite IH, andb_assoc.
Qed.

Lemma noCheckForUpdates_settles c sched : ∀ s,
  noCheckForUpdates s (settles c sched) = true.
Proof. induction sched as [|[t r] sched IH]; intros s; simpl; [done|apply IH]. Qed.

Lemma run_app s inputs1 inputs2 :
  run s (inputs1 ++ inputs2) = run (run s inputs1) inputs2.
Proof. apply fold_left_app. Qed.

(** ** One settlement *)

(** What the settlement for a suspended callback does to the cycle, to
    the set and to the effects. *)
Lemma settle_callback s c t r cyc p st :
  cycles s !! c = Some cyc → tasks cyc !! t = Some (p, st) →
  isFinished st = false →
  let am := autoMerge (cyc_config cyc) in
  let s' := settle c t r s in
  (∃ cyc', cycles s' !! c = Some cyc'
     ∧ cyc_config cyc' = cyc_config cyc
     ∧ tasks cyc' = <[t := (p, (taskStep am p st r).1.1)]> (tasks cyc)
     ∧ updatesFound cyc'
       = (if (taskStep am p st r).1.2 then S (updatesFound cyc)
          else updatesFound cyc))
  ∧ pending s'
    = (if (taskStep am p st r).1.2 then setAdd (name p) (pending s)
       else pending s)
  ∧ (∀ e, e ∈ (taskStep am p st r).2 → e ∈ newEvents s s').
Proof.
  intros Hc Ht Hst am s'.
  destruct (settle_active s c t r cyc p st Hc Ht Hst) as (Hcy & Hp & Htr & _).
  fold am s' in Hcy, Hp, Htr. split_and!.
  - match type of Hcy with _ = <[_ := ?x]> _ => exists x end.
    split; [|done]. rewrite Hcy. apply list_lookup_insert_eq.
    by eapply lookup_lt_Some.
  - done.
  - intros e He. rewrite (newEvents_app _ _ _ Htr). apply elem_of_app. by left.
Qed.

(** A callback awaits at most four operations, wherever it is. *)
Lemma stageAfter_enough_from am p st outs :
  (4 ≤ length outs)%nat → stageAfter am p st outs = Finished.
Proof.
  destruct st; [by apply stageAfter_enough| | | |by rewrite stageAfter_Finished];
    (destruct outs as [|[o1|e1] [|[o2|e2] [|[o3|e3] outs]]];
     simpl; intros Hlen; try lia; rewrite ?stageAfter_Finished; try done;
     repeat case_match; simpl; by rewrite ?stageAfter_Finished).
Qed.

(** The name of a project that a callback has found behind is in the set
    until [checkForUpdates()] is called again. *)
Lemma found_stays_pending s c t cyc p revOut post :
  cycles s !! c = Some cyc → tasks cyc !! t = Some (p, AwaitRevList) →
  isBehind revOut = true →
  let s1 := settle c t (Fulfilled revOut) s in
  noCheckForUpdates s1 post = true →
  name p ∈ pending (run s1 post).
Proof.
  intros Hc Ht Hbehind s1 Hq.
  apply (run_pending post s1 (name p) Hq). left.
  destruct (settle_callback s c t (Fulfilled revOut) cyc p AwaitRevList
              Hc Ht eq_refl) as (_ & Hp & _).
  fold s1 in Hp. rewrite Hp. simpl. rewrite Hbehind.
  destruct (autoMerge (cyc_config cyc)); simpl; apply elem_of_setAdd; by left.
Qed.

(** ** Projects that are not eligible, with cycles that overlap *)

(** C8, as the code has it.  A project that is switched off, or whose
    folder has no [.git] marker, when [checkForUpdates()] is called has no
    callback in the cycle that this call starts, whatever happens later.
    While [checkForUpdates()] is not called again, its name is in the set
    exactly when a callback of an older cycle, started when a project of its
    name was eligible, or a callback for another project of its name, has
    found its project behind; so it is not in the set when names identify
    projects and no older cycle is in flight.  In a run of the cycle alone
    no git process is run in its folder. *)
Theorem C8_ineligible_projects_excluded :
  (∀ (s : State) (aw : Awaiter) (p : Project) (inputs : list Input),
     enabled p = false ∨ gitMarker (env s) (folderPath p) = false →
     let c := length (cycles s) in
     let s' := run (checkForUpdates aw s) inputs in
     (gitProjects (env s) = [] → cycles (checkForUpdates aw s) = cycles s)
     ∧ (gitProjects (env s) ≠ [] →
        ∃ cyc, cycles s' !! c = Some cyc ∧ p ∉ (tasks cyc).*1)
     ∧ (noCheckForUpdates (checkForUpdates aw s) inputs = true →
        (name p ∈ pending s'
         ↔ (∃ t q, gitProjects (env s) !! t = Some q ∧ q ≠ p
                   ∧ name q = name p
                   ∧ foundBehind (outcomes t (scheduleOf c inputs)) = true)
           ∨ foundDuring s inputs (name p))
        ∧ (p ∈ projects (env s) → NoDup (name <$> projects (env s)) →
           Forall (λ cyc, inFlight cyc = false) (cycles s) →
           name p ∉ pending s')))
  ∧ (∀ (s : State) (p : Project) (sched : list (nat * Settled)),
       p ∈ projects (env s) →
       NoDup (name <$> projects (env s)) →
       (∀ q, q ∈ projects (env s) → q ≠ p → folderPath q ≠ folderPath p) →
       enabled p = false ∨ gitMarker (env s) (folderPath p) = false →
       let s' := cycleRun s sched in
       (∀ cyc, cycles s' !! length (cycles s) = Some cyc → p ∉ (tasks cyc).*1)
       ∧ countEv (isGitIn (folderPath p)) (newEvents s s') = 0
       ∧ name p ∉ pending s').
Proof.
  split; [|apply cycleRun_ineligible].
  intros s aw p inputs Hoff c s'.
  assert (p ∉ gitProjects (env s)) as Hnot.
  { rewrite elem_of_gitProjects. intros (_ & He & Hg).
    destruct Hoff; congruence. }
  assert ((name p ∈ pending s'
          ↔ (∃ t q, gitProjects (env s) !! t = Some q ∧ q ≠ p
                    ∧ name q = name p
                    ∧ foundBehind (outcomes t (scheduleOf c inputs)) = true)
            ∨ foundDuring s inputs (name p))
         ∨ noCheckForUpdates (checkForUpdates aw s) inputs = false) as Hiff.
  { destruct (noCheckForUpdates _ inputs) eqn:Hq; [left|by right].
    subst s'. rewrite (call_pending aw s inputs (name p) Hq).
    apply or_iff_compat_r. fold c.
    split; intros (t & q & Ht & H); exists t, q; (split; [done|]).
    - split; [|done]. intros ->. by apply list_elem_of_lookup_2 in Ht.
    - tauto. }
  split_and!.
  - intros Hnone. by destruct (checkForUpdates_none aw s Hnone) as (_ & -> & _).
  - intros Hsome. eexists. split; [by apply call_cycle|].
    simpl. rewrite stagesAfter_projects, <- list_fmap_compose.
    by rewrite list_fmap_id.
  - intros Hq. destruct Hiff as [Hiff|Hiff]; [|congruence].
    split; [done|]. intros Hp Hnd Hall. rewrite Hiff.
    intros [(t & q & Ht & Hne & Hn & _)|Hf].
    + apply Hne. apply list_elem_of_lookup_2 in Ht.
      apply (NoDup_fmap_eq name (projects (env s))); try done.
      by apply elem_of_gitProjects in Ht as [? _].
    + by apply (foundDuring_none s inputs (name p)).
Qed.

(** The switched-off repository D next to A, which is 3 commits behind;
    [stop()] is called while the cycle is in flight. *)
Lemma C8_ineligible_witness :
  let s := newAutoSyncService
             (Scenario.world Scenario.notifyOnly
                [Scenario.A; Scenario.D]) in
  let inputs := [Settle 0 0 Scenario.ok; CallStop;
                 Settle 0 0 (Scenario.count "3")] in
  let sched := [(0, Scenario.ok); (0, Scenario.count "3")] in
  let s' := run (checkForUpdates Detached s) inputs in
  (∃ cyc, cycles s' !! length (cycles s) = Some cyc
          ∧ Scenario.D ∉ (tasks cyc).*1)
  ∧ (name Scenario.D ∉ pending s')
  ∧ pending s' = ["A"]
  ∧ countEv (isGitIn (folderPath Scenario.D)) (newEvents s (cycleRun s sched))
    = 0.
Proof.
  intros s inputs sched s'.
  destruct C8_ineligible_projects_excluded as [Hgen Halone].
  destruct (Hgen s Detached Scenario.D inputs (or_introl eq_refl))
    as (_ & Hcyc & Hpend).
  assert (noCheckForUpdates (checkForUpdates Detached s) inputs = true)
    as Hquiet by by_evaluation.
  destruct (Hpend Hquiet) as [_ Hnot].
  assert (Scenario.D ∈ projects (env s)) as HD.
  { apply list_elem_of_In. simpl. tauto. }
  assert (NoDup (name <$> projects (env s))) as Hnd.
  { apply (bool_decide_unpack _). by_evaluation. }
  assert (gitProjects (env s) ≠ []) as Hsome by by_evaluation.
  split_and!.
  - exact (Hcyc Hsome).
  - exact (Hnot HD Hnd (Forall_nil_2 _)).
  - by_evaluation.
  - refine (proj1 (proj2 (Halone s Scenario.D sched HD Hnd _ _))).
    + intros q Hq Hne. apply list_elem_of_In in Hq. simpl in Hq.
      destruct Hq as [<-|[<-|[]]]; [discriminate|congruence].
    + by left.
Defined.

(** C8, as the spec states it, fails.  Project A is switched off while a
    cycle that has a callback for it is in flight, and [checkForUpdates()]
    is called again.  The second cycle has no callback for A; yet a
    rev-list is run in the folder of A after A was switched off, A is
    found behind, and when the second cycle has ended A, with
    [enabled = false], is in the set. *)
Lemma C8_switched_off_project_pending_counterexample :
  let A' := {| name := "A"; folderPath := "/contexts/A"; enabled := false |} in
  let s0 := newAutoSyncService
              (Scenario.world Scenario.notifyOnly [Scenario.A; Scenario.B]) in
  let s1 := run s0 [CallCheckForUpdates;
                    EnvChanges (Scenario.world Scenario.notifyOnly
                                  [A'; Scenario.B])] in
  let s' := run s1 [CallCheckForUpdates;
                    Settle 0 0 Scenario.ok; Settle 0 0 (Scenario.count "2");
                    Settle 1 0 Scenario.ok; Settle 1 0 (Scenario.count "0")] in
  projects (env s') = [A'; Scenario.B]
  ∧ gitProjects (env s1) = [Scenario.B]
  ∧ tasks <$> cycles s' !! 1 = Some [(Scenario.B, Finished)]
  ∧ newEvents s1 s'
    = [Console (LogChecking 1);
       ExecGit fetchArgs "/contexts/B";
       ExecGit revListArgs "/contexts/A";
       ExecGit revListArgs "/contexts/B"]
  ∧ pending s' = ["A"]
  ∧ ¬ (name A' ∉ pending s').
Proof.
  intros A' s0 s1 s'.
  assert (pending s' = ["A"]) as Hp by by_evaluation.
  split_and!; try by_evaluation.
  intros Hnot. apply Hnot. rewrite Hp. apply list_elem_of_here.
Qed.

(** ** Auto-merge, with cycles that overlap *)

(** C2, as the code has it.  A project that a callback finds behind is
    put in the set when the rev-list settles, and with autoMerge on a pull
    that succeeds does not remove it: it is in the set after every later
    input, before and after its pull has settled and at the end of its
    cycle, until [checkForUpdates()] is called again, which empties the set
    (with cycles that overlap, that can be before its own cycle has ended).
    The pull that succeeds makes the callback call [updateGitProject] for
    it; in a run of the cycle alone, with names that identify the eligible
    projects, the registry gets exactly one such call for it. *)
Theorem C2_auto_merged_project_stays_pending :
  (∀ (s : State) (c t : nat) (cyc : Cycle) (p : Project)
     (revOut : string) (post : list Input),
     cycles s !! c = Some cyc → tasks cyc !! t = Some (p, AwaitRevList) →
     isBehind revOut = true →
     let s1 := settle c t (Fulfilled revOut) s in
     noCheckForUpdates s1 post = true →
     let s' := run s1 post in
     name p ∈ pending s'
     ∧ (∀ pullOut rest,
          autoMerge (cyc_config cyc) = true →
          outcomes t (scheduleOf c post) = Fulfilled pullOut :: rest →
          UpdateGitProject (name p) ∈ newEvents s s')
     ∧ (∀ i, callsCheckForUpdates s' i = true → pending (step s' i) = []))
  ∧ (∀ (s : State) (sched : list (nat * Settled)) (t : nat) (p : Project)
       (fetchOut revOut pullOut : string) (rest : list Settled),
       autoMerge (getConfig s) = true →
       NoDup (name <$> gitProjects (env s)) →
       gitProjects (env s) !! t = Some p →
       outcomes t sched
       = Fulfilled fetchOut :: Fulfilled revOut :: Fulfilled pullOut :: rest →
       isBehind revOut = true →
       let s' := cycleRun s sched in
       name p ∈ pending s'
       ∧ countEv (isUpdateGitProject (name p)) (newEvents s s') = 1).
Proof.
  split; [|apply cycleRun_auto_merged].
  intros s c t cyc p revOut post Hc Ht Hbehind s1 Hq s'.
  split_and!.
  - by apply (found_stays_pending s c t cyc p revOut post).
  - intros pullOut rest Ham Hout.
    destruct (settle_callback s c t (Fulfilled revOut) cyc p AwaitRevList
                Hc Ht eq_refl) as ((cyc1 & Hc1 & Hcfg & Ht1 & _) & _).
    fold s1 in Hc1. rewrite Ham in Ht1. simpl in Ht1. rewrite Hbehind in Ht1.
    simpl in Ht1.
    apply (elem_of_newEvents s s1 s');
      [apply (step_trace s (Settle c t (Fulfilled revOut)))
      |apply run_trace|right].
    apply (run_callback_events post s1 c cyc1 t p AwaitPull); [done| |].
    + rewrite Ht1. apply list_lookup_insert_eq. by eapply lookup_lt_Some.
    + rewrite Hcfg, Ham, Hout. simpl. apply list_elem_of_here.
  - intros i. apply step_calls_pending.
Qed.

(** A is 3 commits behind and its pull succeeds; B is up to date; a cycle
    that was started earlier is in flight all the time. *)
Lemma C2_auto_merged_witness :
  let s0 := newAutoSyncService
              (Scenario.world Scenario.autoMerging [Scenario.A; Scenario.B]) in
  let s := run s0 [CallCheckForUpdates; CallCheckForUpdates;
                   Settle 1 0 Scenario.ok; Settle 1 1 Scenario.ok] in
  let post := [Settle 0 0 Scenario.ok; Settle 1 1 (Scenario.count "0");
               Settle 1 0 Scenario.ok; CallStop; Settle 1 0 Scenario.ok] in
  let s' := run (settle 1 0 (Scenario.count "3") s) post in
  let sched := [(0, Scenario.ok); (1, Scenario.ok); (0, Scenario.count "3");
                (1, Scenario.count "0"); (0, Scenario.ok); (0, Scenario.ok)] in
  name Scenario.A ∈ pending s'
  ∧ UpdateGitProject (name Scenario.A) ∈ newEvents s s'
  ∧ pending (step s' CallCheckForUpdates) = []
  ∧ countEv (isUpdateGitProject (name Scenario.A))
      (newEvents s0 (cycleRun s0 sched)) = 1.
Proof.
  intros s0 s post s' sched.
  destruct C2_auto_merged_project_stays_pending as [Hgen Halone].
  assert (∃ cyc, cycles s !! 1 = Some cyc
                 ∧ tasks cyc !! 0 = Some (Scenario.A, AwaitRevList)
                 ∧ autoMerge (cyc_config cyc) = true) as (cyc & Hc & Ht & Ham).
  { eexists. split_and!; by_evaluation. }
  assert (noCheckForUpdates (settle 1 0 (Scenario.count "3") s) post = true)
    as Hquiet by by_evaluation.
  assert (outcomes 0 (scheduleOf 1 post) = [Scenario.ok; Scenario.ok])
    as Hout by by_evaluation.
  destruct (Hgen s 1 0 cyc Scenario.A ("3" +:+ String "010"%char "")
              post Hc Ht eq_refl Hquiet)
    as (Hin & Hupd & Hclear).
  split_and!;
    [exact Hin|exact (Hupd "" [Scenario.ok] Ham Hout)|by apply Hclear|].
  refine (proj2 (Halone s0 sched 0 Scenario.A "" ("3" +:+ String "010"%char "")
                   "" [Scenario.ok] _ _ _ _ _)).
  - by_evaluation.
  - apply (bool_decide_unpack _). by_evaluation.
  - by_evaluation.
  - by_evaluation.
  - by_evaluation.
Defined.

(** ** Notifications, with cycles that overlap *)

Lemma filter_none {A} (f : A → bool) (l : list A) :
  Forall (λ x, f x = false) l → List.filter f l = [].
Proof. induction 1 as [|x l Hx _ IH]; simpl; [done|]. by rewrite Hx. Qed.

(** A callback shows no aggregated notification. *)
Lemma taskStep_no_aggregate am p st r :
  List.filter isAggregate (taskStep am p st r).2 = [].
Proof. destruct st, r; simpl; by repeat case_match. Qed.

(** [checkForUpdates()] up to its [await] shows no notification. *)
Lemma checkForUpdates_no_notification aw s :
  ∃ evs, trace (checkForUpdates aw s) = trace s ++ evs
         ∧ Forall (λ e, isNotification e = false) evs.
Proof.
  destruct (decide (gitProjects (env s) = [])) as [Hnone|Hsome].
  - destruct (checkForUpdates_none aw s Hnone) as (_ & _ & Htr & _).
    eexists. split; [done|]. destruct aw; by repeat constructor.
  - destruct (checkForUpdates_some aw s Hsome) as (_ & _ & Htr & _).
    eexists. split; [done|]. unfold fanOutEvents.
    constructor; [done|]. by apply Forall_fmap, Forall_true.
Qed.

(** A turn that is no settlement shows no notification. *)
Lemma step_no_notification s i :
  ¬ isSettle i →
  ∃ evs, trace (step s i) = trace s ++ evs
         ∧ Forall (λ e, isNotification e = false) evs.
Proof.
  destruct i as [| | |id|c t r|e]; cbn [step]; intros Hi.
  - unfold start. destruct (cfg_enabled (getConfig s)); simpl;
      [|eexists; split; [done|by repeat constructor]].
    destruct (runOnStartup (getConfig s)).
    + destruct (checkForUpdates_no_notification
                  (AwaitedByStart (getConfig s))
                  (emit [Console (LogStarting (intervalMinutes (getConfig s)))]
                     s))
        as (evs & -> & Hevs).
      simpl. eexists. split; [by rewrite <- (assoc_L (++))|].
      by constructor.
    + exists [Console (LogStarting (intervalMinutes (getConfig s)));
              Console LogStarted].
      split; [|by repeat constructor]. unfold startArm. simpl.
      by rewrite trace_updateStatusBar; simpl; rewrite <- (assoc_L (++)).
  - destruct (stop_frame s) as (_ & _ & _ & _ & _ & ->).
    eexists. split; [done|by repeat constructor].
  - apply checkForUpdates_no_notification.
  - case_match; [apply checkForUpdates_no_notification|].
    exists []. by rewrite app_nil_r.
  - by destruct Hi.
  - exists []. by rewrite app_nil_r.
Qed.

Lemma isAggregate_isNotification e :
  isNotification e = false → isAggregate e = false.
Proof. by destruct e as [| |[]| |]. Qed.

(** C7, as the code has it.  The settlement that ends a cycle shows one
    aggregated notification when notifyOnUpdates, as the cycle read it at
    its start, is on and the counter [updatesFound] of the cycle is
    positive, and none otherwise; the notification names the counter and
    lists the set as it is then, phrased as completed ("Auto-synced", one
    action) under autoMerge and as actionable ("have updates", with "Sync
    Now") without.  A cycle that has ended does nothing more, and a turn
    that ends no cycle shows no aggregated notification.  In a run of the
    cycle alone the counter is the size of the set when names identify the
    eligible projects: a cycle that has ended with a set that is not empty
    has shown exactly one aggregated notification; without autoMerge this
    is the only notification of the cycle, with autoMerge [pullProject] has
    shown, in addition, one notification of its own for every project found
    behind. *)
Theorem C7_one_aggregated_notification :
  (∀ (s : State) (c t : nat) (r : Settled) (cyc cyc' : Cycle),
     cycles s !! c = Some cyc → inFlight cyc = true →
     let s' := settle c t r s in
     cycles s' !! c = Some cyc' → inFlight cyc' = false →
     let n := updatesFound cyc' in
     let projectsList := join ", " (pending s') in
     List.filter isAggregate (newEvents s s')
     = if bool_decide (0 < n) && notifyOnUpdates (cyc_config cyc)
       then [if autoMerge (cyc_config cyc)
             then ShowInformationMessage (MsgAutoSynced n projectsList)
                    ["Show Changes"]
             else ShowInformationMessage (MsgHaveUpdates n projectsList)
                    ["Sync Now"; "Show Changes"; "Dismiss"]]
       else [])
  ∧ (∀ (s : State) (c t : nat) (r : Settled) (cyc : Cycle),
       cycles s !! c = Some cyc → inFlight cyc = false →
       settle c t r s = s)
  ∧ (∀ (s : State) (i : Input),
       (∀ c cyc cyc', cycles s !! c = Some cyc → inFlight cyc = true →
          cycles (step s i) !! c = Some cyc' → inFlight cyc' = true) →
       List.filter isAggregate (newEvents s (step s i)) = [])
  ∧ (∀ (s : State) (sched : list (nat * Settled)),
       notifyOnUpdates (getConfig s) = true →
       NoDup (name <$> gitProjects (env s)) →
       let s' := cycleRun s sched in
       cycleEnded s s' →
       pending s' ≠ [] →
       let n := length (pending s') in
       let projectsList := join ", " (pending s') in
       countEv isAggregate (newEvents s s') = 1
       ∧ (if autoMerge (getConfig s)
          then ShowInformationMessage (MsgAutoSynced n projectsList)
                 ["Show Changes"] ∈ newEvents s s'
               ∧ countEv isIndividual (newEvents s s') = n
          else ShowInformationMessage (MsgHaveUpdates n projectsList)
                 ["Sync Now"; "Show Changes"; "Dismiss"] ∈ newEvents s s'
               ∧ countEv isNotification (newEvents s s') = 1)).
Proof.
  assert (∀ s c t r cyc,
            cycles s !! c = Some cyc → inFlight cyc = true →
            ∃ cyc', cycles (settle c t r s) !! c = Some cyc'
              ∧ cyc_config cyc' = cyc_config cyc
              ∧ List.filter isAggregate (newEvents s (settle c t r s))
                = if inFlight cyc' then []
                  else List.filter isAggregate
                         (finishEvents cyc' (pending (settle c t r s))))
    as Hsettle.
  { intros s c t r cyc Hc Hfl.
    destruct (tasks cyc !! t) as [[p st]|] eqn:Ht;
      [destruct (isFinished st) eqn:Hst|].
    - destruct st; try done.
      rewrite (settle_idle _ _ _ _ _ Hc) by eauto.
      exists cyc. rewrite Hfl. split_and!; [done..|].
      unfold newEvents. by rewrite drop_all.
    - destruct (settle_active s c t r cyc p st Hc Ht Hst) as (Hcy & _ & Htr & _).
      match type of Hcy with _ = <[_ := ?x]> _ => exists x end.
      split_and!; [|done|].
      + rewrite Hcy. apply list_lookup_insert_eq. by eapply lookup_lt_Some.
      + rewrite (newEvents_app _ _ _ Htr), List.filter_app,
          taskStep_no_aggregate. unfold inFlight. cbn [tasks app].
        by destruct (allFinished _).
    - rewrite (settle_idle _ _ _ _ _ Hc) by eauto.
      exists cyc. rewrite Hfl. split_and!; [done..|].
      unfold newEvents. by rewrite drop_all. }
  split_and!.
  - intros s c t r cyc cyc' Hc Hfl s' Hc' Hfl' n projectsList.
    destruct (Hsettle s c t r cyc Hc Hfl) as (cyc1 & Hc1 & Hcfg & Hev).
    fold s' in Hc1, Hev. assert (cyc1 = cyc') as -> by congruence.
    rewrite Hev, Hfl'. unfold finishEvents, updatesNotification.
    rewrite Hcfg. fold n projectsList.
    rewrite List.filter_app.
    assert (List.filter isAggregate (resumeEvents (awaiter cyc')) = []) as ->
      by by destruct (awaiter cyc').
    rewrite app_nil_r.
    destruct (bool_decide (0 < n) && notifyOnUpdates (cyc_config cyc));
      [|done].
    by destruct (autoMerge (cyc_config cyc)).
  - intros s c t r cyc Hc Hfl. apply (settle_idle _ _ _ _ cyc Hc).
    apply negb_false_iff in Hfl.
    destruct (tasks cyc !! t) as [[p st]|] eqn:Ht; [|by left].
    right. exists p. by pose proof (allFinished_lookup _ _ _ _ Hfl Ht) as ->.
  - intros s i Hkeep. destruct (decide (isSettle i)) as [Hi|Hi].
    + destruct i as [| | | |c t r|]; try done. cbn [step] in *.
      destruct (cycles s !! c) as [cyc|] eqn:Hc.
      * destruct (inFlight cyc) eqn:Hfl.
        -- destruct (Hsettle s c t r cyc Hc Hfl) as (cyc1 & Hc1 & _ & ->).
           by rewrite (Hkeep c cyc cyc1 Hc Hfl Hc1).
        -- rewrite (settle_idle _ _ _ _ _ Hc).
           ++ unfold newEvents. by rewrite drop_all.
           ++ apply negb_false_iff in Hfl.
              destruct (tasks cyc !! t) as [[p st]|] eqn:Ht; [|by left].
              right. exists p.
              by pose proof (allFinished_lookup _ _ _ _ Hfl Ht) as ->.
      * rewrite settle_no_cycle by done. unfold newEvents. by rewrite drop_all.
    + destruct (step_no_notification s i Hi) as (evs & Htr & Hevs).
      rewrite (newEvents_app _ _ _ Htr). apply filter_none.
      eapply Forall_impl; [done|]. apply isAggregate_isNotification.
  - apply cycleRun_one_aggregated.
Qed.

(** A project 3 commits behind, without autoMerge; and two projects behind
    under autoMerge, both pulls succeed. *)
Lemma C7_one_aggregated_witness :
  let s0 := newAutoSyncService
              (Scenario.world Scenario.notifyOnly [Scenario.A]) in
  let s := run s0 [CallCheckForUpdates; Settle 0 0 Scenario.ok] in
  let s' := settle 0 0 (Scenario.count "3") s in
  let s2 := newAutoSyncService
              (Scenario.world Scenario.autoMerging [Scenario.A; Scenario.B]) in
  let sched := [(0, Scenario.ok); (1, Scenario.ok); (1, Scenario.count "1");
                (0, Scenario.count "3"); (0, Scenario.ok); (1, Scenario.ok);
                (1, Scenario.ok); (0, Scenario.ok)] in
  List.filter isAggregate (newEvents s s')
  = [ShowInformationMessage (MsgHaveUpdates 1 "A")
       ["Sync Now"; "Show Changes"; "Dismiss"]]
  ∧ settle 0 0 Scenario.ok s' = s'
  ∧ List.filter isAggregate (newEvents s (step s CallStop)) = []
  ∧ countEv isAggregate (newEvents s2 (cycleRun s2 sched)) = 1
  ∧ countEv isIndividual (newEvents s2 (cycleRun s2 sched)) = 2.
Proof.
  intros s0 s s' s2 sched.
  destruct C7_one_aggregated_notification
    as (Hend & Hdone & Hnone & Halone).
  split_and!.
  - etrans.
    + apply (Hend s 0 0 (Scenario.count "3")
               (cycleAfter (startedCycle Detached s0) [(0, Scenario.ok)])
               (cycleAfter (startedCycle Detached s0)
                  [(0, Scenario.ok); (0, Scenario.count "3")]));
        by_evaluation.
    + by_evaluation.
  - apply (Hdone s' 0 0 Scenario.ok
             (cycleAfter (startedCycle Detached s0)
                [(0, Scenario.ok); (0, Scenario.count "3")]));
      by_evaluation.
  - apply Hnone. intros c cyc cyc' Hc Hfl Hc'.
    assert (cycles (step s CallStop) = cycles s) as Heq by by_evaluation.
    rewrite Heq in Hc'. congruence.
  - destruct (Halone s2 sched) as [Hagg _]; [by_evaluation| | | |exact Hagg].
    + apply (bool_decide_unpack _). by_evaluation.
    + eexists. split; by_evaluation.
    + by_evaluation.
  - destruct (Halone s2 sched) as [_ Hind]; [by_evaluation| | | |exact (proj2 Hind)].
    + apply (bool_decide_unpack _). by_evaluation.
    + eexists. split; by_evaluation.
    + by_evaluation.
Defined.

(** ** Failures of git, with cycles that overlap *)

(** C5, as the code has it.  A failure of git in one project never reaches
    the cycle.  A failed fetch or rev-list is caught in
    [checkProjectForUpdates] and logged, and counts as no update: the
    callback ends, the set and the counter of the cycle stay as they are.
    A failed pull, or a failed update of the registry, is caught in
    [pullProject], logged and shown as an error message; the callback ends,
    and the set and the counter stay as they are: the project, which was
    found behind, is still counted, and it is in the set until
    [checkForUpdates()] is called again.  Every callback of a cycle goes on
    with the outcomes of its own operations, whatever happens to the
    others; the cycle counts the projects for which
    [checkProjectForUpdates] returned true, and it ends as soon as the
    operations of every callback have settled, whatever their outcomes.
    While [checkForUpdates()] is not called again, the set holds the
    projects that the callbacks of this cycle and of the older cycles have
    found behind. *)
Theorem C5_git_failures_are_isolated :
  (∀ (s : State) (c t : nat) (cyc : Cycle) (p : Project) (st : Stage)
     (e : Thrown),
     cycles s !! c = Some cyc → tasks cyc !! t = Some (p, st) →
     st = AwaitFetch ∨ st = AwaitRevList →
     let s' := settle c t (Rejected e) s in
     Console (ErrCheckingForUpdates e) ∈ newEvents s s'
     ∧ pending s' = pending s
     ∧ ∃ cyc', cycles s' !! c = Some cyc'
         ∧ tasks cyc' = <[t := (p, Finished)]> (tasks cyc)
         ∧ updatesFound cyc' = updatesFound cyc)
  ∧ (∀ (s : State) (c t : nat) (cyc : Cycle) (p : Project) (st : Stage)
       (e : Thrown),
       cycles s !! c = Some cyc → tasks cyc !! t = Some (p, st) →
       st = AwaitPull ∨ st = AwaitUpdateGitProject →
       let s' := settle c t (Rejected e) s in
       Console (ErrFailedToPull (name p) e) ∈ newEvents s s'
       ∧ ShowErrorMessage (MsgFailedToAutoSync (name p) (errorMessage e))
         ∈ newEvents s s'
       ∧ pending s' = pending s
       ∧ ∃ cyc', cycles s' !! c = Some cyc'
           ∧ tasks cyc' = <[t := (p, Finished)]> (tasks cyc)
           ∧ updatesFound cyc' = updatesFound cyc)
  ∧ (∀ (s : State) (c t : nat) (cyc : Cycle) (p : Project) (revOut : string)
       (e : Thrown) (post : list Input) (rest : list Settled),
       cycles s !! c = Some cyc → tasks cyc !! t = Some (p, AwaitRevList) →
       autoMerge (cyc_config cyc) = true → isBehind revOut = true →
       let s1 := settle c t (Fulfilled revOut) s in
       noCheckForUpdates s1 post = true →
       outcomes t (scheduleOf c post) = Rejected e :: rest →
       let s' := run s1 post in
       name p ∈ pending s'
       ∧ ∃ cyc', cycles s' !! c = Some cyc'
           ∧ tasks cyc' !! t = Some (p, Finished)
           ∧ updatesFound cyc < updatesFound cyc')
  ∧ (∀ (s : State) (aw : Awaiter) (inputs : list Input),
       gitProjects (env s) ≠ [] →
       let c := length (cycles s) in
       let s' := run (checkForUpdates aw s) inputs in
       ∃ cyc', cycles s' !! c = Some cyc'
         ∧ (∀ t p, gitProjects (env s) !! t = Some p →
              tasks cyc' !! t
              = Some (p, stageAfter (autoMerge (getConfig s)) p AwaitFetch
                           (outcomes t (scheduleOf c inputs))))
         ∧ updatesFound cyc'
           = length (foundNames 0 (gitProjects (env s)) (scheduleOf c inputs))
         ∧ ((∀ t, t < length (gitProjects (env s)) →
               (4 ≤ length (outcomes t (scheduleOf c inputs)))%nat) →
            inFlight cyc' = false)
         ∧ (noCheckForUpdates (checkForUpdates aw s) inputs = true →
            ∀ n, n ∈ pending s'
                 ↔ (∃ t p, gitProjects (env s) !! t = Some p ∧ name p = n
                           ∧ foundBehind (outcomes t (scheduleOf c inputs))
                             = true)
                   ∨ foundDuring s inputs n))
  ∧ (∀ (s : State) (sched : list (nat * Settled)),
       NoDup (name <$> gitProjects (env s)) →
       let s' := cycleRun s sched in
       (∀ t p e,
          gitProjects (env s) !! t = Some p →
          (∃ rest, outcomes t sched = Rejected e :: rest)
          ∨ (∃ o rest, outcomes t sched = Fulfilled o :: Rejected e :: rest) →
          (name p ∉ pending s')
          ∧ Console (ErrCheckingForUpdates e) ∈ newEvents s s'
          ∧ callbackEnded s s' t p)
       ∧ (∀ t p o1 o2 e rest,
            gitProjects (env s) !! t = Some p →
            autoMerge (getConfig s) = true →
            outcomes t sched
            = Fulfilled o1 :: Fulfilled o2 :: Rejected e :: rest →
            isBehind o2 = true →
            name p ∈ pending s'
            ∧ Console (ErrFailedToPull (name p) e) ∈ newEvents s s'
            ∧ ShowErrorMessage (MsgFailedToAutoSync (name p) (errorMessage e))
              ∈ newEvents s s'
            ∧ callbackEnded s s' t p)
       ∧ (∀ n, n ∈ pending s'
               ↔ ∃ t p, gitProjects (env s) !! t = Some p ∧ name p = n
                        ∧ foundBehind (outcomes t sched) = true)
       ∧ (gitProjects (env s) ≠ [] →
          (∀ t, t < length (gitProjects (env s)) →
                (4 ≤ length (outcomes t sched))%nat) →
          cycleEnded s s')).
Proof.
  assert (∀ s c t cyc p st e,
            cycles s !! c = Some cyc → tasks cyc !! t = Some (p, st) →
            isFinished st = false →
            let s' := settle c t (Rejected e) s in
            (∀ ev, ev ∈ (taskStep (autoMerge (cyc_config cyc)) p st
                           (Rejected e)).2 → ev ∈ newEvents s s')
            ∧ pending s' = pending s
            ∧ ∃ cyc', cycles s' !! c = Some cyc'
                ∧ tasks cyc' = <[t := (p, Finished)]> (tasks cyc)
                ∧ updatesFound cyc' = updatesFound cyc) as Hrej.
  { intros s c t cyc p st e Hc Ht Hst s'.
    destruct (settle_callback s c t (Rejected e) cyc p st Hc Ht Hst)
      as ((cyc' & Hc' & _ & Ht' & Hu) & Hp & Hev).
    fold s' in Hc', Hp, Hev.
    assert ((taskStep (autoMerge (cyc_config cyc)) p st (Rejected e)).1
            = (Finished, false)) as Hstep by by destruct st.
    rewrite Hstep in Ht', Hu, Hp. split_and!; [done..|]. by exists cyc'. }
  split_and!.
  - intros s c t cyc p st e Hc Ht Hst s'.
    destruct (Hrej s c t cyc p st e Hc Ht) as (Hev & Hp & Hcyc);
      [by destruct Hst as [-> | ->]|].
    split_and!; [|done..]. apply Hev.
    destruct Hst as [-> | ->]; apply list_elem_of_here.
  - intros s c t cyc p st e Hc Ht Hst s'.
    destruct (Hrej s c t cyc p st e Hc Ht) as (Hev & Hp & Hcyc);
      [by destruct Hst as [-> | ->]|].
    split_and!; [| |done..]; apply Hev; destruct Hst as [-> | ->]; simpl.
    + apply list_elem_of_here.
    + apply list_elem_of_here.
    + apply list_elem_of_further, list_elem_of_here.
    + apply list_elem_of_further, list_elem_of_here.
  - intros s c t cyc p revOut e post rest Hc Ht Ham Hbehind s1 Hq Hout s'.
    split; [by apply (found_stays_pending s c t cyc p revOut post)|].
    destruct (settle_callback s c t (Fulfilled revOut) cyc p AwaitRevList
                Hc Ht eq_refl) as ((cyc1 & Hc1 & Hcfg & Ht1 & Hu1) & _).
    fold s1 in Hc1. rewrite Ham in Ht1, Hu1. simpl in Ht1, Hu1.
    rewrite Hbehind in Ht1, Hu1. simpl in Ht1, Hu1.
    exists (cycleAfter cyc1 (scheduleOf c post)).
    split_and!; [by apply run_cycle| |simpl; lia].
    apply cycleAfter_lookup. exists AwaitPull. split.
    + rewrite Ht1. apply list_lookup_insert_eq. by eapply lookup_lt_Some.
    + rewrite Hout. simpl. by rewrite stageAfter_Finished.
  - intros s aw inputs Hsome c s'.
    exists (cycleAfter (startedCycle aw s) (scheduleOf c inputs)).
    split_and!.
    + by apply call_cycle.
    + intros t p Ht. apply cycleAfter_lookup. exists AwaitFetch.
      split; [|done]. simpl. by rewrite list_lookup_fmap, Ht.
    + simpl. by rewrite (length_foundNames (autoMerge (getConfig s))).
    + intros Hall. unfold inFlight. apply negb_false_iff. simpl.
      apply allFinished_stagesAfter.
      intros t p st [q [[= -> ->] Hq]]%list_lookup_fmap_Some.
      apply stageAfter_enough, Hall. by eapply lookup_lt_Some.
    + intros Hq n. by apply call_pending.
  - apply cycleRun_git_failures.
Qed.

(** The fetch of A fails; B is found 2 commits behind and its pull fails,
    after a [stop()]: A is not pending, B is, and the cycle has ended. *)
Lemma C5_git_failures_witness :
  let s0 := newAutoSyncService
              (Scenario.world Scenario.autoMerging [Scenario.A; Scenario.B]) in
  let s := checkForUpdates Detached s0 in
  let s1 := settle 0 0 (Rejected (ErrorObject "network")) s in
  let s2 := settle 0 1 Scenario.ok s1 in
  let behind := "2" +:+ String "010"%char "" in
  let post := [CallStop; Settle 0 1 (Rejected (ErrorObject "conflict"))] in
  let s' := run (settle 0 1 (Fulfilled behind) s2) post in
  let s4 := stop (settle 0 1 (Fulfilled behind) s2) in
  let failures := [Settle 0 0 (Rejected (ErrorObject "network"));
                   Settle 0 1 (Rejected (ErrorObject "network"))] in
  let sched := [(0, Rejected (ErrorObject "network")); (1, Scenario.ok);
                (1, Scenario.count "2");
                (1, Rejected (ErrorObject "conflict"))] in
  (Console (ErrCheckingForUpdates (ErrorObject "network")) ∈ newEvents s s1
   ∧ pending s1 = pending s)
  ∧ (ShowErrorMessage
       (MsgFailedToAutoSync (name Scenario.B)
          (errorMessage (ErrorObject "conflict")))
     ∈ newEvents s4 (settle 0 1 (Rejected (ErrorObject "conflict")) s4)
     ∧ pending (settle 0 1 (Rejected (ErrorObject "conflict")) s4)
       = pending s4)
  ∧ (name Scenario.B ∈ pending s'
     ∧ ∃ cyc', cycles s' !! 0 = Some cyc'
               ∧ tasks cyc' !! 1 = Some (Scenario.B, Finished)
               ∧ 0 < updatesFound cyc')
  ∧ (∃ cyc', cycles (run (checkForUpdates Detached s0) failures)
             !! length (cycles s0) = Some cyc'
             ∧ tasks cyc' !! 0 = Some (Scenario.A, Finished)
             ∧ updatesFound cyc' = 0)
  ∧ ((name Scenario.A ∉ pending (cycleRun s0 sched))
     ∧ name Scenario.B ∈ pending (cycleRun s0 sched)).
Proof.
  intros s0 s s1 s2 behind post s' s4 failures sched.
  destruct C5_git_failures_are_isolated
    as (Hcheck & Hpull & Hstays & Hcycle & Halone).
  split; [|split; [|split; [|split]]].
  - assert (∃ cyc, cycles s !! 0 = Some cyc
                   ∧ tasks cyc !! 0 = Some (Scenario.A, AwaitFetch))
      as (cyc & Hc & Ht) by (eexists; split; by_evaluation).
    destruct (Hcheck s 0 0 cyc Scenario.A AwaitFetch (ErrorObject "network")
                Hc Ht (or_introl eq_refl)) as (Hlog & Hp & _).
    split; [exact Hlog|exact Hp].
  - assert (∃ cyc, cycles s4 !! 0 = Some cyc
                   ∧ tasks cyc !! 1 = Some (Scenario.B, AwaitPull))
      as (cyc & Hc & Ht) by (eexists; split; by_evaluation).
    destruct (Hpull s4 0 1 cyc Scenario.B AwaitPull (ErrorObject "conflict")
                Hc Ht (or_introl eq_refl)) as (_ & Hmsg & Hp & _).
    split; [exact Hmsg|exact Hp].
  - assert (∃ cyc, cycles s2 !! 0 = Some cyc
                   ∧ tasks cyc !! 1 = Some (Scenario.B, AwaitRevList)
                   ∧ autoMerge (cyc_config cyc) = true)
      as (cyc & Hc & Ht & Ham) by (eexists; split_and!; by_evaluation).
    assert (isBehind behind = true) as Hbehind by by_evaluation.
    assert (noCheckForUpdates (settle 0 1 (Fulfilled behind) s2) post = true)
      as Hquiet by by_evaluation.
    assert (outcomes 1 (scheduleOf 0 post)
            = [Rejected (ErrorObject "conflict")]) as Hout by by_evaluation.
    destruct (Hstays s2 0 1 cyc Scenario.B behind (ErrorObject "conflict")
                post [] Hc Ht Ham Hbehind Hquiet Hout)
      as (Hin & cyc' & Hc' & Ht' & Hu).
    split; [exact Hin|]. exists cyc'. split_and!; [exact Hc'|exact Ht'|lia].
  - assert (gitProjects (env s0) ≠ []) as Hsome by by_evaluation.
    destruct (Hcycle s0 Detached failures Hsome)
      as (cyc' & Hc' & Ht' & Hu & _).
    assert (gitProjects (env s0) !! 0 = Some Scenario.A) as HA by by_evaluation.
    exists cyc'. split_and!; [exact Hc'| |].
    + etrans; [exact (Ht' 0 Scenario.A HA)|]. by_evaluation.
    + etrans; [exact Hu|]. by_evaluation.
  - assert (NoDup (name <$> gitProjects (env s0))) as Hnd.
    { apply (bool_decide_unpack _). by_evaluation. }
    destruct (Halone s0 sched Hnd) as (Hi & Hii & _ & _).
    assert (outcomes 0 sched = [Rejected (ErrorObject "network")]) as HoA
      by by_evaluation.
    assert (outcomes 1 sched
            = [Fulfilled ""; Fulfilled behind;
               Rejected (ErrorObject "conflict")]) as HoB by by_evaluation.
    assert (gitProjects (env s0) !! 0 = Some Scenario.A) as HA by by_evaluation.
    assert (gitProjects (env s0) !! 1 = Some Scenario.B) as HB by by_evaluation.
    assert (autoMerge (getConfig s0) = true) as Ham by by_evaluation.
    assert (isBehind behind = true) as Hbehind by by_evaluation.
    destruct (Hi 0 Scenario.A (ErrorObject "network") HA) as (HnA & _ & _).
    { left. by eexists. }
    destruct (Hii 1 Scenario.B "" behind (ErrorObject "conflict") []
                HB Ham HoB Hbehind) as (HinB & _ & _ & _).
    split; [exact HnA|exact HinB].
Defined.

(** ** The output of [git rev-list --count] *)

Lemma append_String x (a b : string) : String x a +:+ b = String x (a +:+ b).
Proof. reflexivity. Qed.

Lemma append_nil_l (b : string) : "" +:+ b = b.
Proof. reflexivity. Qed.

Lemma append_nil_r (a : string) : a +:+ "" = a.
Proof. induction a as [|x a IH]; [done|]. by rewrite append_String, IH. Qed.

Lemma append_assoc (a b c : string) : (a +:+ b) +:+ c = a +:+ (b +:+ c).
Proof. induction a as [|x a IH]; [done|]. by rewrite !append_String, IH. Qed.

Lemma append_length (a b : string) :
  String.length (a +:+ b) = (String.length a + String.length b)%nat.
Proof.
  induction a as [|x a IH]; [done|]. rewrite append_String. simpl.
  by rewrite IH.
Qed.

(** The functions on white space, one character at a time. *)
Lemma trimStart_eq s :
  trimStart s
  = match whiteSpacePrefix s with Some r => trimStart r | None => s end.
Proof.
  destruct s as [|a [|b [|c r3]]]; [done|..];
    cbn [whiteSpacePrefix]; unfold trimStart at 1; fold trimStart;
    destruct (Ascii.is_space a); try reflexivity;
    destruct (isSpace2 a b); try reflexivity;
    destruct (isSpace3 a b c); reflexivity.
Qed.

Lemma allSpace_eq s :
  allSpace s
  = match s with
    | "" => true
    | _ => match whiteSpacePrefix s with
           | Some r => allSpace r
           | None => false
           end
    end.
Proof.
  destruct s as [|a [|b [|c r3]]]; [done|..];
    cbn [whiteSpacePrefix]; unfold allSpace at 1; fold allSpace;
    destruct (Ascii.is_space a); try reflexivity;
    destruct (isSpace2 a b); try reflexivity;
    destruct (isSpace3 a b c); reflexivity.
Qed.

(** A white space character is one to three bytes, and the first one is
    neither a digit nor a sign. *)
Lemma whiteSpacePrefix_Some s r :
  whiteSpacePrefix s = Some r →
  ∃ a w, s = String a w +:+ r ∧ (String.length w ≤ 2)%nat
         ∧ Ascii.is_nat a = None ∧ a ≠ "-"%char ∧ a ≠ "+"%char
         ∧ ∀ t, whiteSpacePrefix (String a w +:+ t) = Some t.
Proof.
  assert (∀ a, Ascii.is_space a = true →
            Ascii.is_nat a = None ∧ a ≠ "-"%char ∧ a ≠ "+"%char) as H1.
  { intros [[] [] [] [] [] [] [] []]; by simpl. }
  assert (∀ a, (N_of_ascii a =? 194)%N || (N_of_ascii a =? 225)%N
               || (N_of_ascii a =? 226)%N || (N_of_ascii a =? 227)%N
               || (N_of_ascii a =? 239)%N = true →
            Ascii.is_nat a = None ∧ a ≠ "-"%char ∧ a ≠ "+"%char) as H2.
  { intros [[] [] [] [] [] [] [] []]; by vm_compute. }
  destruct s as [|a r1]; [done|]. simpl.
  destruct (Ascii.is_space a) eqn:Ha.
  { intros [= ->]. exists a, "". split_and!; [done|simpl; lia|by apply H1..|].
    intros t. simpl. by rewrite Ha. }
  destruct r1 as [|b r2]; [done|].
  destruct (isSpace2 a b) eqn:Hab.
  { intros [= ->]. exists a, (String b ""). split_and!; [done|simpl; lia| | | |].
    1-3: apply H2; unfold isSpace2 in Hab;
      apply andb_true_iff in Hab as [-> _]; done.
    intros t. simpl. by rewrite Ha, Hab. }
  destruct r2 as [|c r3]; [done|].
  destruct (isSpace3 a b c) eqn:Habc; [|done].
  intros [= ->]. exists a, (String b (String c "")).
  split_and!; [done|simpl; lia| | | |].
  1-3: apply H2; unfold isSpace3 in Habc; simpl in Habc;
    repeat (apply orb_true_iff in Habc as [Habc|Habc]);
    repeat (apply andb_true_iff in Habc as [Habc ?]);
    rewrite Habc; by rewrite ?orb_true_r.
  intros t. simpl. by rewrite Ha, Hab, Habc.
Qed.

Lemma whiteSpacePrefix_length s r :
  whiteSpacePrefix s = Some r → (String.length r < String.length s)%nat.
Proof.
  intros (a & w & -> & _)%whiteSpacePrefix_Some.
  rewrite append_length. simpl. lia.
Qed.

Lemma whiteSpacePrefix_append s r t :
  whiteSpacePrefix s = Some r → whiteSpacePrefix (s +:+ t) = Some (r +:+ t).
Proof.
  intros (a & w & -> & _ & _ & _ & _ & Hall)%whiteSpacePrefix_Some.
  by rewrite append_assoc.
Qed.

(** Induction on a string, one white space character at a time. *)
Lemma whiteSpace_ind (P : string → Prop) :
  P "" →
  (∀ s r, whiteSpacePrefix s = Some r → P r → P s) →
  (∀ s, s ≠ "" → whiteSpacePrefix s = None → P s) →
  ∀ s, P s.
Proof.
  intros Hnil Hstep Hstop s.
  remember (String.length s) as n eqn:Hn. revert s Hn.
  induction (lt_wf n) as [n _ IH]. intros s ->.
  destruct (whiteSpacePrefix s) as [r|] eqn:Hs.
  - apply (Hstep s r Hs).
    apply (IH (String.length r)); [by apply whiteSpacePrefix_length|done].
  - destruct s; [done|by apply Hstop].
Qed.

Lemma allSpace_append w s : allSpace w = true → allSpace (w +:+ s) = allSpace s.
Proof.
  induction w as [|w r Hw IH|w Hne Hw] using whiteSpace_ind; intros Hall.
  - done.
  - rewrite allSpace_eq, Hw in Hall.
    assert (w ≠ "") as Hne by (by intros ->).
    rewrite (allSpace_eq (w +:+ s)), (whiteSpacePrefix_append _ _ _ Hw).
    rewrite <- IH by (by destruct w). destruct w; [done|by destruct s].
  - rewrite allSpace_eq, Hw in Hall. by destruct w.
Qed.

(** [trimStart] removes a white space prefix. *)
Lemma trimStart_allSpace w s :
  allSpace w = true → trimStart (w +:+ s) = trimStart s.
Proof.
  induction w as [|w r Hw IH|w Hne Hw] using whiteSpace_ind; intros Hall.
  - done.
  - rewrite allSpace_eq, Hw in Hall.
    rewrite trimStart_eq, (whiteSpacePrefix_append _ _ _ Hw).
    apply IH. by destruct w.
  - rewrite allSpace_eq, Hw in Hall. by destruct w.
Qed.

Lemma trimStart_of_allSpace w : allSpace w = true → trimStart w = "".
Proof.
  intros Hw. rewrite <- (append_nil_r w). by rewrite trimStart_allSpace.
Qed.

Lemma trimStart_split s :
  ∃ w, s = w +:+ trimStart s ∧ allSpace w = true.
Proof.
  induction s as [|s r Hs (w & Hr & Hw)|s Hne Hs] using whiteSpace_ind.
  - by exists "".
  - destruct (whiteSpacePrefix_Some _ _ Hs) as (a & v & -> & _ & _ & _ & _ & Hv).
    exists (String a v +:+ w). rewrite trimStart_eq, Hv, append_assoc, <- Hr.
    split; [done|].
    by rewrite allSpace_eq, Hv, append_String.
  - exists "". by rewrite trimStart_eq, Hs.
Qed.

Lemma trimEnd_split s :
  ∃ w, s = trimEnd s +:+ w ∧ allSpace w = true.
Proof.
  induction s as [|a r (w & Hr & Hw)]; [by exists ""|].
  cbn [trimEnd]. destruct (allSpace (String a r)) eqn:Hall.
  - by exists (String a r).
  - exists w. by rewrite append_String, <- Hr.
Qed.

Lemma length_trimStart s : (String.length (trimStart s) ≤ String.length s)%nat.
Proof.
  destruct (trimStart_split s) as (w & Hs & _).
  rewrite Hs at 2. rewrite append_length. lia.
Qed.

(** What [trimStart] leaves does not start with white space. *)
Lemma trimStart_fixed s :
  trimStart s = s → s = "" ∨ whiteSpacePrefix s = None.
Proof.
  intros Hfix. destruct (whiteSpacePrefix s) as [r|] eqn:Hs; [|by right].
  rewrite trimStart_eq, Hs in Hfix.
  pose proof (length_trimStart r) as Hle.
  pose proof (whiteSpacePrefix_length _ _ Hs) as Hlt.
  rewrite Hfix in Hle. lia.
Qed.

Lemma trimStart_idem s : trimStart (trimStart s) = trimStart s.
Proof.
  induction s as [|s r Hs IH|s Hne Hs] using whiteSpace_ind.
  - done.
  - by rewrite (trimStart_eq s), Hs.
  - rewrite (trimStart_eq s), Hs. by rewrite (trimStart_eq s), Hs.
Qed.

(** White space does not start with a digit. *)
Lemma allSpace_head a r :
  allSpace (String a r) = true → Ascii.is_nat a = None.
Proof.
  rewrite allSpace_eq.
  destruct (whiteSpacePrefix (String a r)) as [t|] eqn:Hs; [|done].
  destruct (whiteSpacePrefix_Some _ _ Hs) as (a' & w & Heq & _ & Hn & _).
  rewrite append_String in Heq. by injection Heq as <- _.
Qed.

Lemma is_nat_whiteSpacePrefix c r d :
  Ascii.is_nat c = Some d → whiteSpacePrefix (String c r) = None.
Proof.
  intros Hd. destruct (whiteSpacePrefix (String c r)) as [t|] eqn:Hs; [|done].
  destruct (whiteSpacePrefix_Some _ _ Hs) as (a' & w & Heq & _ & Hn & _).
  rewrite append_String in Heq. injection Heq as <- _. congruence.
Qed.

Lemma trimStart_digit c r d :
  Ascii.is_nat c = Some d → trimStart (String c r) = String c r.
Proof.
  intros Hd. by rewrite trimStart_eq, (is_nat_whiteSpacePrefix _ _ _ Hd).
Qed.

(** White space after the digits does not change what is read. *)
Lemma leadingDigits_allSpace w : allSpace w = true →
  ∀ s acc, leadingDigits acc (s +:+ w) = leadingDigits acc s.
Proof.
  intros Hw. induction s as [|x s IH]; intros acc.
  - rewrite append_nil_l. destruct w as [|y w]; [done|]. simpl.
    by rewrite (allSpace_head _ _ Hw).
  - rewrite append_String. simpl. destruct (Ascii.is_nat x); [apply IH|done].
Qed.

(** [parseInt] skips the white space that [trim] removes at the start and
    ignores what follows the digits, so it reads the same number with or
    without [trim]. *)
Lemma parseInt_trim s : parseInt (trim s) = parseInt s.
Proof.
  unfold parseInt, trim.
  pose proof (trimStart_idem s) as Ht. set (t := trimStart s) in *.
  destruct (trimEnd_split t) as (w & Hsplit & Hw).
  destruct (trimEnd t) as [|x y] eqn:Hy.
  - (* only white space was left *)
    rewrite append_nil_l in Hsplit. subst w.
    rewrite (trimStart_of_allSpace _ Hw) in Ht. by rewrite <- Ht.
  - assert (whiteSpacePrefix (String x y) = None) as Hx.
    { destruct (whiteSpacePrefix (String x y)) as [r|] eqn:Hr; [|done].
      pose proof (whiteSpacePrefix_append _ _ w Hr) as Hr'.
      rewrite <- Hsplit in Hr'.
      destruct (trimStart_fixed t Ht) as [Hnil|Hnone]; [|congruence].
      by rewrite Hnil in Hsplit. }
    rewrite (trimStart_eq (String x y)), Hx.
    rewrite Hsplit, append_String.
    destruct x as [[] [] [] [] [] [] [] []]; simpl;
      by rewrite ?leadingDigits_allSpace.
Qed.

Lemma isBehind_parseInt_raw stdout :
  isBehind stdout
  = match parseInt stdout with
    | Some commitsBehind => bool_decide (0 < commitsBehind)%Z
    | None => false
    end.
Proof.
  unfold isBehind. rewrite parseInt_trim. destruct (parseInt stdout) as [n|]; [|done].
  destruct (Z.ltb_spec 0 n);
    [by rewrite bool_decide_eq_true_2|by rewrite bool_decide_eq_false_2 by lia].
Qed.

Lemma is_nat_pretty_N_char x :
  (x < 10)%N → Ascii.is_nat (pretty_N_char x) = Some (N.to_nat x).
Proof.
  intros Hx.
  assert (x = 0 ∨ x = 1 ∨ x = 2 ∨ x = 3 ∨ x = 4 ∨ x = 5 ∨ x = 6 ∨ x = 7
          ∨ x = 8 ∨ x = 9)%N as Hcases by lia.
  repeat destruct Hcases as [->|Hcases]; try done. by subst.
Qed.

Lemma pretty_N_go_append x : ∀ s r,
  pretty_N_go x s +:+ r = pretty_N_go x (s +:+ r).
Proof.
  induction (N.lt_wf_0 x) as [x _ IH]; intros s r.
  destruct (decide (x = 0)%N) as [->|Hx]; [done|].
  rewrite (pretty_N_go_step x s), (pretty_N_go_step x (s +:+ r)) by lia.
  rewrite IH by (apply N.div_lt; lia). reflexivity.
Qed.

(** The decimal text of a positive number starts with a digit. *)
Lemma pretty_N_go_head x : (0 < x)%N → ∀ s,
  ∃ c r d, pretty_N_go x s = String c r ∧ Ascii.is_nat c = Some d.
Proof.
  induction (N.lt_wf_0 x) as [x _ IH]; intros Hx s.
  rewrite pretty_N_go_step by done.
  destruct (decide (x `div` 10 = 0)%N) as [->|Hdiv].
  - rewrite pretty_N_go_0. eexists _, _, _. split; [done|].
    apply is_nat_pretty_N_char. by apply N.mod_lt.
  - apply IH.
    + apply N.div_lt; lia.
    + apply N.neq_0_lt_0, Hdiv.
Qed.

(** Reading the decimal text of a number gives the number. *)
Lemma leadingDigits_pretty_N_go x : (0 < x)%N →
  ∃ k : nat, ∀ acc s,
    leadingDigits acc (pretty_N_go x s)
    = leadingDigits (Some (default 0 acc * 10 ^ Z.of_nat k + Z.of_N x)%Z) s.
Proof.
  induction (N.lt_wf_0 x) as [x _ IH]; intros Hx.
  pose proof (N.div_mod x 10) as Hdm.
  pose proof (N.mod_lt x 10) as Hmod.
  destruct (decide (x `div` 10 = 0)%N) as [Hdiv|Hdiv].
  - exists 1. intros acc s. rewrite pretty_N_go_step, Hdiv, pretty_N_go_0 by done.
    simpl. rewrite is_nat_pretty_N_char by lia. f_equal. f_equal. lia.
  - destruct (IH (x `div` 10)%N) as [k Hk];
      [apply N.div_lt; lia|apply N.neq_0_lt_0, Hdiv|].
    exists (S k). intros acc s.
    rewrite pretty_N_go_step, Hk by done. simpl.
    rewrite is_nat_pretty_N_char by lia. f_equal. f_equal.
    rewrite Nat2Z.inj_succ, Z.pow_succ_r by lia. lia.
Qed.

Lemma leadingDigits_no_digit acc s :
  startsWithDigit s = false → leadingDigits acc s = acc.
Proof.
  destruct s as [|c s]; [done|]. simpl.
  destruct (Ascii.is_nat c); [|done].
  intros Hc. apply bool_decide_eq_false in Hc. destruct Hc. by eexists.
Qed.

Lemma parseInt_digit c r d :
  Ascii.is_nat c = Some d → parseInt (String c r) = leadingDigits None (String c r).
Proof.
  intros Hd. unfold parseInt. rewrite (trimStart_digit _ _ _ Hd).
  destruct c as [[] [] [] [] [] [] [] []]; simpl in *; by simplify_eq.
Qed.

(** [parseInt] reads back the decimal text of a number, whatever follows
    it, as long as that is no digit. *)
Lemma parseInt_pretty (n : N) rest :
  startsWithDigit rest = false →
  parseInt (pretty n +:+ rest) = Some (Z.of_N n).
Proof.
  intros Hrest. unfold pretty, pretty_N. case_decide as Hn.
  - subst n. rewrite append_String, append_nil_l.
    rewrite (parseInt_digit _ _ 0) by done. simpl.
    by apply leadingDigits_no_digit.
  - rewrite pretty_N_go_append, append_nil_l.
    destruct (pretty_N_go_head n ltac:(lia) rest) as (c & r & d & Heq & Hd).
    rewrite Heq, (parseInt_digit _ _ _ Hd), <- Heq.
    destruct (leadingDigits_pretty_N_go n ltac:(lia)) as [k ->].
    rewrite leadingDigits_no_digit by done. simpl. f_equal.
Qed.

(** X1. What [git rev-list --count] prints is read as intended: for the
    decimal text of a number [n], after any white space and before anything
    that does not start with a digit (the line feed that git prints, or
    nothing), [isBehind] holds exactly when [n] is positive. *)
Theorem isBehind_of_printed_count (n : N) (lead rest : string) :
  allSpace lead = true → startsWithDigit rest = false →
  isBehind (lead +:+ pretty n +:+ rest) = bool_decide (0 < n)%N.
Proof.
  intros Hlead Hrest. rewrite isBehind_parseInt_raw.
  assert (parseInt (lead +:+ pretty n +:+ rest) = parseInt (pretty n +:+ rest))
    as ->.
  { unfold parseInt. by rewrite trimStart_allSpace. }
  rewrite parseInt_pretty by done.
  apply bool_decide_ext. lia.
Qed.

Lemma isBehind_of_printed_count_witness :
  isBehind ("12" +:+ String "010"%char "") = true
  ∧ isBehind (" 0" +:+ String "013"%char (String "010"%char "")) = false.
Proof.
  split.
  - apply (isBehind_of_printed_count 12 "" (String "010"%char "")); reflexivity.
  - apply (isBehind_of_printed_count 0 " "
             (String "013"%char (String "010"%char ""))); reflexivity.
Defined.

Lemma leadingDigits_nonneg s : ∀ acc n,
  (∀ a, acc = Some a → (0 ≤ a)%Z) →
  leadingDigits acc s = Some n → (0 ≤ n)%Z.
Proof.
  induction s as [|c s IH]; intros acc n Hacc; simpl; [by apply Hacc|].
  destruct (Ascii.is_nat c) as [d|]; [|by apply Hacc].
  apply IH. intros a [= <-].
  destruct acc as [a|]; simpl; [specialize (Hacc a eq_refl)|]; lia.
Qed.

(** X2. An output that does not begin, after its white space (that of
    Unicode included), with a digit or a plus sign counts as no update: the
    empty output, a text, a negative number. *)
Theorem isBehind_without_count (stdout : string) :
  startsWithDigit (trimStart stdout) = false →
  (∀ r, trimStart stdout ≠ String "+"%char r) →
  isBehind stdout = false.
Proof.
  intros Hd Hplus. rewrite isBehind_parseInt_raw. unfold parseInt.
  destruct (trimStart stdout) as [|c r] eqn:Hs; [done|].
  assert (leadingDigits None (String c r) = None) as Hnone.
  { by rewrite leadingDigits_no_digit. }
  destruct (decide (c = "-"%char)) as [->|Hminus].
  - destruct (leadingDigits None r) as [n|] eqn:Hn; [|done]. simpl.
    apply bool_decide_eq_false_2.
    pose proof (leadingDigits_nonneg r None n) as Hnn.
    specialize (Hnn ltac:(done) Hn). lia.
  - destruct (decide (c = "+"%char)) as [->|Hp]; [by destruct (Hplus r)|].
    assert (match String c r with
            | String "-"%char r0 => Z.opp <$> leadingDigits None r0
            | String "+"%char r0 => leadingDigits None r0
            | r0 => leadingDigits None r0
            end = leadingDigits None (String c r)) as ->; [|by rewrite Hnone].
    destruct c as [[] [] [] [] [] [] [] []]; done.
Qed.

Lemma isBehind_without_count_witness :
  isBehind "" = false ∧ isBehind "fatal: bad revision" = false
  ∧ isBehind " -3" = false
  ∧ isBehind (String "194" (String "160" "-3")) = false.
Proof.
  split_and!.
  - apply isBehind_without_count; [reflexivity|]. intros r. discriminate.
  - apply isBehind_without_count; [reflexivity|]. intros r. discriminate.
  - apply isBehind_without_count; [reflexivity|]. intros r. discriminate.
  - apply isBehind_without_count; [reflexivity|]. intros r. discriminate.
Defined.

(** X3. The [trim()] before [parseInt] changes nothing: [parseInt] reads
    the same number from the raw output, and [isBehind] gives the same
    answer. *)
Theorem trim_before_parseInt_is_redundant (stdout : string) :
  parseInt (trim stdout) = parseInt stdout
  ∧ isBehind (trim stdout) = isBehind stdout.
Proof.
  split; [apply parseInt_trim|]. unfold isBehind. by rewrite !parseInt_trim.
Qed.

(** ** The git processes of a cycle *)

(** The effects of a cycle, for counting: what the fan-out, the callbacks
    and the end of the cycle contribute add up. *)
Lemma countEv_cycleRun f s sched :
  gitProjects (env s) ≠ [] →
  let s' := cycleRun s sched in
  let cyc' := cycleAfter (startedCycle Detached s) sched in
  countEv f (newEvents s s')
  = countEv f (fanOutEvents (env s))
    + countEv f (taskEvents (autoMerge (getConfig s)) 0
                   ((λ p, (p, AwaitFetch)) <$> gitProjects (env s)) sched)
    + countEv f (if allFinished (tasks cyc')
                 then finishEvents cyc' (pending s') else []).
Proof.
  intros Hsome s' cyc'. destruct (cycleRun_some s sched Hsome) as (_ & Hperm & _).
  rewrite (countEv_Permutation _ _ _ Hperm), !countEv_app.
  apply Nat.add_assoc.
Qed.

Lemma countEv_isPull_fanOut e : countEv isPull (fanOutEvents e) = 0.
Proof. unfold fanOutEvents; simpl. by apply countEv_fmap_none. Qed.

Lemma countEv_isPull_finish (b : bool) cyc elems :
  countEv isPull (if b then finishEvents cyc elems else []) = 0.
Proof.
  destruct b; [|done].
  unfold finishEvents, updatesNotification, resumeEvents.
  by repeat case_match.
Qed.

(** A callback that has passed its rev-list spawns no git process. *)
Lemma eventsOf_after_revList am p st outs e :
  st ≠ AwaitFetch → st ≠ AwaitRevList →
  e ∈ eventsOf am p st outs → ∀ args cwd, e ≠ ExecGit args cwd.
Proof.
  revert st. induction outs as [|r outs IH]; intros st H1 H2; simpl;
    [by intros ?%elem_of_nil|].
  intros [Hin|Hin]%elem_of_app.
  - destruct st, r; simpl in Hin; try done;
      repeat (apply elem_of_cons in Hin as [->|Hin]; [done|]);
      by apply elem_of_nil in Hin.
  - revert Hin. apply IH; by destruct st, r.
Qed.

Lemma countEv_git_after_revList f am p st outs :
  (∀ e, f e = true → ∃ args cwd, e = ExecGit args cwd) →
  st ≠ AwaitFetch → st ≠ AwaitRevList →
  countEv f (eventsOf am p st outs) = 0.
Proof.
  intros Hf H1 H2.
  pose proof (λ e, eventsOf_after_revList am p st outs e H1 H2) as Hno.
  induction (eventsOf am p st outs) as [|e evs IH]; simpl; [done|].
  rewrite IH by (intros e' He'; apply Hno; by apply list_elem_of_further).
  destruct (f e) eqn:He; [|done].
  destruct (Hf e He) as (args & cwd & ->).
  by destruct (Hno (ExecGit args cwd) ltac:(apply list_elem_of_here) args cwd).
Qed.

Lemma isPull_git e : isPull e = true → ∃ args cwd, e = ExecGit args cwd.
Proof. destruct e; try done. by eexists _, _. Qed.

Lemma countEv_isPull_notifyOnly p st outs :
  countEv isPull (eventsOf false p st outs) = 0.
Proof.
  apply countEv_eventsOf_none. clear st.
  intros st r. destruct st, r; simpl; by repeat case_match.
Qed.

Lemma countEv_isUpdateGitProject_notifyOnly n p outs :
  countEv (isUpdateGitProject n) (eventsOf false p AwaitFetch outs) = 0.
Proof.
  destruct outs as [|[o1|e1] [|[o2|e2] outs]]; simpl;
    rewrite ?eventsOf_Finished; try done.
  destruct (isBehind o2); simpl; by rewrite ?eventsOf_Finished.
Qed.

(** Under autoMerge a callback starts one pull when it finds its project
    behind, and none otherwise. *)
Lemma countEv_isPull_autoMerge p outs :
  countEv isPull (eventsOf true p AwaitFetch outs)
  = foundCount true p AwaitFetch outs.
Proof.
  destruct outs as [|[o1|e1] [|[o2|e2] outs]]; simpl;
    rewrite ?eventsOf_Finished, ?foundCount_Finished; try done.
  destruct (isBehind o2) eqn:Hb; simpl;
    rewrite ?eventsOf_Finished, ?foundCount_Finished; try done.
  rewrite (countEv_git_after_revList isPull) by (done || apply isPull_git).
  f_equal. clear. revert outs.
  assert (∀ st outs, st ≠ AwaitFetch → st ≠ AwaitRevList →
            foundCount true p st outs = 0) as H; [|by intros; rewrite H].
  intros st outs. revert st.
  induction outs as [|r outs IH]; intros st H1 H2; simpl; [done|].
  rewrite IH by (by destruct st, r). by destruct st, r.
Qed.

Lemma countEv_taskEvents_each f am ts sched : ∀ k,
  (∀ p st outs, (p, st) ∈ ts →
     countEv f (eventsOf am p st outs) = foundCount am p st outs) →
  countEv f (taskEvents am k ts sched) = taskFound am k ts sched.
Proof.
  induction ts as [|[q sq] ts IH]; intros k Hts; [done|]. simpl.
  rewrite countEv_app, Hts, IH; [done| |apply list_elem_of_here].
  intros p st outs Hp. apply Hts. by apply list_elem_of_further.
Qed.

(** X4. With autoMerge off when the cycle starts, the cycle runs no
    [git pull] and never calls [contextManager.updateGitProject], whatever
    the git processes answer and in whatever order. *)
Theorem notify_only_cycle_never_pulls
    (s : State) (sched : list (nat * Settled)) :
  autoMerge (getConfig s) = false →
  let s' := cycleRun s sched in
  countEv isPull (newEvents s s') = 0
  ∧ (∀ n, countEv (isUpdateGitProject n) (newEvents s s') = 0).
Proof.
  intros Ham s'. subst s'.
  destruct (decide (gitProjects (env s) = [])) as [Hnone|Hsome].
  { destruct (cycleRun_none s sched Hnone) as (_ & _ & -> & _). done. }
  split; [|intros n]; rewrite (countEv_cycleRun _ s sched Hsome), Ham.
  - rewrite countEv_isPull_fanOut, countEv_isPull_finish.
    rewrite countEv_taskEvents_none; [done|].
    intros p st outs _. apply countEv_isPull_notifyOnly.
  - rewrite countEv_isUpdateGitProject_fanOut,
      countEv_isUpdateGitProject_finish.
    rewrite countEv_taskEvents_none; [done|].
    intros p st outs [q [[= -> ->] _]]%list_elem_of_fmap.
    apply countEv_isUpdateGitProject_notifyOnly.
Qed.

Lemma notify_only_cycle_never_pulls_witness :
  let s := newAutoSyncService
             (Scenario.world Scenario.notifyOnly [Scenario.A; Scenario.B]) in
  let s' := cycleRun s [(0, Scenario.ok); (0, Scenario.count "2");
                        (1, Scenario.ok)] in
  countEv isPull (newEvents s s') = 0
  ∧ (∀ n, countEv (isUpdateGitProject n) (newEvents s s') = 0).
Proof.
  intros s s'.
  apply (notify_only_cycle_never_pulls s
           [(0, Scenario.ok); (0, Scenario.count "2"); (1, Scenario.ok)]).
  reflexivity.
Defined.

(** ** The pulls of a run *)

Lemma mergedCount_app cs1 cs2 :
  mergedCount (cs1 ++ cs2) = mergedCount cs1 + mergedCount cs2.
Proof. induction cs1 as [|cyc cs1 IH]; simpl; [done|]. rewrite IH. lia. Qed.

Lemma mergedCount_insert cs c cyc cyc' :
  cs !! c = Some cyc →
  mergedCount (<[c := cyc']> cs)
  + (if autoMerge (cyc_config cyc) then updatesFound cyc else 0)
  = mergedCount cs
    + (if autoMerge (cyc_config cyc') then updatesFound cyc' else 0).
Proof.
  revert c. induction cs as [|cyc0 cs IH]; intros [|c] Hc; simplify_eq/=.
  - lia.
  - specialize (IH c Hc). lia.
Qed.

(** A callback spawns a pull exactly when it finds its project behind
    under autoMerge. *)
Lemma taskStep_pulls am p st r :
  countEv isPull (taskStep am p st r).2
  = if (taskStep am p st r).1.2 && am then 1 else 0.
Proof. destruct st, r; simpl; by repeat case_match. Qed.

(** A turn that is no settlement spawns no pull and counts nothing. *)
Lemma step_no_pull s i :
  ¬ isSettle i →
  countEv isPull (newEvents s (step s i)) = 0
  ∧ mergedCount (cycles (step s i)) = mergedCount (cycles s).
Proof.
  assert (∀ aw x, countEv isPull (newEvents x (checkForUpdates aw x)) = 0
                  ∧ mergedCount (cycles (checkForUpdates aw x))
                    = mergedCount (cycles x)) as Hcheck.
  { intros aw x.
    destruct (decide (gitProjects (env x) = [])) as [Hnone|Hsome].
    - destruct (checkForUpdates_none aw x Hnone) as (_ & -> & Htr & _).
      rewrite (newEvents_app _ _ _ Htr). by destruct aw.
    - destruct (checkForUpdates_some aw x Hsome) as (_ & -> & Htr & _).
      rewrite (newEvents_app _ _ _ Htr), countEv_isPull_fanOut,
        mergedCount_app. simpl. split; [done|]. case_match; lia. }
  destruct i as [| | |id|c t r|e]; cbn [step]; intros Hi.
  - unfold start. destruct (cfg_enabled (getConfig s)); simpl;
      [|split; [|done]; unfold newEvents; simpl;
        by rewrite drop_app_length].
    destruct (runOnStartup (getConfig s)).
    + match goal with |- context [checkForUpdates ?aw ?x] =>
        destruct (Hcheck aw x) as [Hev Hm];
        destruct (checkForUpdates_trace aw x) as (evs & Htr & _)
      end.
      split; [|by rewrite Hm].
      rewrite (newEvents_app _ _ _ Htr) in Hev.
      rewrite (newEvents_app _ _ (Console (LogStarting
                 (intervalMinutes (getConfig s))) :: evs)).
      * done.
      * rewrite Htr. simpl. by rewrite <- (assoc_L (++)).
    + match goal with |- context [startArm ?cfg ?x] =>
        destruct (resume_frame (AwaitedByStart cfg) x)
          as (_ & Hc & _ & _ & _ & Htr)
      end.
      cbn [resume] in Hc, Htr. rewrite Hc. split; [|done].
      rewrite (newEvents_app _ _ [Console (LogStarting
                 (intervalMinutes (getConfig s))); Console LogStarted]);
        [done|].
      rewrite Htr. simpl. by rewrite <- (assoc_L (++)).
  - destruct (stop_frame s) as (_ & _ & _ & -> & _ & Htr).
    by rewrite (newEvents_app _ _ _ Htr).
  - apply Hcheck.
  - case_match; [apply Hcheck|]. split; [|done].
    unfold newEvents. by rewrite drop_all.
  - by destruct Hi.
  - split; [|done]. unfold newEvents. simpl. by rewrite drop_all.
Qed.

(** One turn: the pulls that it spawns are the projects that cycles with
    autoMerge find behind in it. *)
Lemma step_pulls s i :
  countEv isPull (newEvents s (step s i)) + mergedCount (cycles s)
  = mergedCount (cycles (step s i)).
Proof.
  destruct (decide (isSettle i)) as [Hi|Hi];
    [|destruct (step_no_pull s i Hi) as [-> ->]; lia].
  destruct i as [| | | |c t r|]; try done. cbn [step].
  assert (settle c t r s = s → 
          countEv isPull (newEvents s (settle c t r s))
          + mergedCount (cycles s)
          = mergedCount (cycles (settle c t r s))) as Hidle.
  { intros ->. unfold newEvents. by rewrite drop_all. }
  destruct (cycles s !! c) as [cyc|] eqn:Hc;
    [|by apply Hidle, settle_no_cycle].
  destruct (tasks cyc !! t) as [[p st]|] eqn:Ht;
    [destruct (isFinished st) eqn:Hst|].
  - destruct st; try done. apply Hidle, (settle_idle _ _ _ _ cyc); eauto.
  - destruct (settle_active s c t r cyc p st Hc Ht Hst) as (Hcy & _ & Htr & _).
    rewrite (newEvents_app _ _ _ Htr), Hcy, countEv_app, taskStep_pulls,
      countEv_isPull_finish.
    match goal with |- context [<[c := ?x]> _] =>
      pose proof (mergedCount_insert (cycles s) c cyc x Hc) as Hm
    end.
    simpl in Hm. revert Hm.
    destruct (autoMerge (cyc_config cyc)), ((taskStep _ p st r).1.2);
      simpl; lia.
  - apply Hidle, (settle_idle _ _ _ _ cyc); eauto.
Qed.

(** X5. Every pull is the pull of a project that a cycle with autoMerge
    has found behind: in every run, whatever the inputs and however the
    cycles overlap, the number of pulls spawned is the number of projects
    that the cycles which read autoMerge on at their start have found
    behind in it, one pull for each.  In a run of one cycle alone, with
    autoMerge on and names that identify the eligible projects, this is at
    every moment the number of projects in the set. *)
Theorem auto_merge_pulls_each_pending_project_once :
  (∀ (s : State) (inputs : list Input),
     countEv isPull (newEvents s (run s inputs)) + mergedCount (cycles s)
     = mergedCount (cycles (run s inputs)))
  ∧ (∀ (s : State) (sched : list (nat * Settled)),
       autoMerge (getConfig s) = true →
       NoDup (name <$> gitProjects (env s)) →
       let s' := cycleRun s sched in
       countEv isPull (newEvents s s') = length (pending s')).
Proof.
  split.
  - intros s inputs. revert s.
    induction inputs as [|i inputs IH]; intros s.
    + unfold newEvents. change (run s []) with s. by rewrite drop_all.
    + change (run s (i :: inputs)) with (run (step s i) inputs).
      destruct (step_trace s i) as [evs1 H1].
      destruct (run_trace inputs (step s i)) as [evs2 H2].
      rewrite (newEvents_app s _ (evs1 ++ evs2))
        by (by rewrite H2, H1, (assoc_L (++))).
      rewrite countEv_app.
      rewrite <- (newEvents_app _ _ _ H1), <- (newEvents_app _ _ _ H2).
      specialize (IH (step s i)). pose proof (step_pulls s i). lia.
  - intros s sched Ham Hnd s'. subst s'.
    destruct (decide (gitProjects (env s) = [])) as [Hnone|Hsome].
    { destruct (cycleRun_none s sched Hnone) as (-> & _ & -> & _). done. }
    rewrite (countEv_cycleRun _ s sched Hsome), cycleRun_pending_length by done.
    rewrite countEv_isPull_fanOut, countEv_isPull_finish, Ham.
    rewrite countEv_taskEvents_each; [lia|].
    intros p st outs [q [[= -> ->] _]]%list_elem_of_fmap.
    apply countEv_isPull_autoMerge.
Qed.

Lemma auto_merge_pulls_each_pending_project_once_witness :
  let s := newAutoSyncService
             (Scenario.world Scenario.autoMerging [Scenario.A; Scenario.B]) in
  let s' := cycleRun s [(0, Scenario.ok); (0, Scenario.count "2");
                        (1, Scenario.ok); (1, Scenario.count "0")] in
  countEv isPull (newEvents s s') = length (pending s').
Proof.
  intros s s'.
  apply (proj2 auto_merge_pulls_each_pending_project_once s
           [(0, Scenario.ok); (0, Scenario.count "2");
            (1, Scenario.ok); (1, Scenario.count "0")]).
  - reflexivity.
  - apply (bool_decide_unpack _). vm_compute. exact I.
Defined.

(** ** The git processes in a folder *)

Lemma countEv_le f g evs :
  (∀ e, f e = true → g e = true) → (countEv f evs ≤ countEv g evs)%nat.
Proof.
  intros Hfg. induction evs as [|e evs IH]; simpl; [done|].
  destruct (f e) eqn:Hf; [rewrite (Hfg e Hf)|destruct (g e)]; lia.
Qed.

Lemma countEv_fmap_one {A} f (g : A → Event) (l : list A) (x : A) :
  NoDup l → x ∈ l → f (g x) = true →
  (∀ y, y ∈ l → f (g y) = true → y = x) →
  countEv f (g <$> l) = 1.
Proof.
  induction l as [|y l IH]; intros Hnd Hx Hfx Huniq; csimpl;
    [by apply elem_of_nil in Hx|].
  apply NoDup_cons in Hnd as [Hy Hnd].
  apply elem_of_cons in Hx as [->|Hx].
  - rewrite Hfx, countEv_fmap_none; [done|].
    intros z Hz. destruct (f (g z)) eqn:Hfz; [|done].
    destruct Hy. by rewrite <- (Huniq z (list_elem_of_further _ _ _ Hz) Hfz).
  - rewrite IH; [|done..|].
    + destruct (f (g y)) eqn:Hfy; [|done].
      destruct Hy. by rewrite (Huniq y (list_elem_of_here _ _) Hfy).
    + intros z Hz. apply Huniq. by apply list_elem_of_further.
Qed.

Lemma isGitIn_git cwd e : isGitIn cwd e = true → ∃ args cwd', e = ExecGit args cwd'.
Proof. destruct e; try done. by eexists _, _. Qed.

(** The git processes of one callback: after the fetch, which the fan-out
    has spawned, at most one rev-list and, under autoMerge, at most one
    pull. *)
Lemma countEv_git_eventsOf f am p outs :
  (∀ e, f e = true → ∃ args cwd, e = ExecGit args cwd) →
  (countEv f (eventsOf am p AwaitFetch outs)
   ≤ (if f (ExecGit revListArgs (folderPath p)) then 1 else 0)
     + (if am && f (ExecGit pullArgs (folderPath p)) then 1 else 0))%nat.
Proof.
  intros Hf.
  assert (∀ l, f (Console l) = false) as Hcon.
  { intros l. destruct (f (Console l)) eqn:Hl; [|done].
    by destruct (Hf _ Hl) as (? & ? & ?). }
  destruct outs as [|[o1|e1] outs]; simpl;
    rewrite ?eventsOf_Finished, ?Hcon; simpl;
    [repeat case_match; lia| |repeat case_match; lia].
  destruct outs as [|[o2|e2] outs]; simpl;
    rewrite ?eventsOf_Finished, ?Hcon; simpl;
    try (repeat case_match; lia).
  destruct (isBehind o2), am; simpl;
    rewrite ?eventsOf_Finished, ?Hcon; simpl;
    try (repeat case_match; lia).
  rewrite (countEv_git_after_revList f) by done.
  repeat case_match; lia.
Qed.

(** X6. One cycle runs, in the folder of each eligible project, exactly
    one fetch, at most one rev-list and at most one pull: at most three git
    processes, and at most two without autoMerge (no two eligible projects
    share a folder). *)
Theorem one_cycle_runs_few_git_processes
    (s : State) (sched : list (nat * Settled)) (t : nat) (p : Project) :
  NoDup (folderPath <$> gitProjects (env s)) →
  gitProjects (env s) !! t = Some p →
  let evs := newEvents s (cycleRun s sched) in
  countEv (isEvent (ExecGit fetchArgs (folderPath p))) evs = 1
  ∧ (countEv (isEvent (ExecGit revListArgs (folderPath p))) evs ≤ 1)%nat
  ∧ (countEv (isEvent (ExecGit pullArgs (folderPath p))) evs ≤ 1)%nat
  ∧ (countEv (isGitIn (folderPath p)) evs
     ≤ if autoMerge (getConfig s) then 3 else 2)%nat.
Proof.
  intros Hnd Ht evs. subst evs.
  assert (p ∈ gitProjects (env s)) as Hp by by eapply list_elem_of_lookup_2.
  assert (gitProjects (env s) ≠ []) as Hsome.
  { intros Hnil. by rewrite Hnil in Ht. }
  assert (NoDup (gitProjects (env s))) as Hnd'.
  { by apply (NoDup_fmap_1 folderPath). }
  set (ts := (λ q, (q, AwaitFetch)) <$> gitProjects (env s)).
  assert (ts !! t = Some (p, AwaitFetch)) as Hts.
  { unfold ts. by rewrite list_lookup_fmap, Ht. }
  assert (∀ f, (∀ e, f e = true → isGitIn (folderPath p) e = true) →
            countEv f (if allFinished
                            (tasks (cycleAfter (startedCycle Detached s) sched))
                       then finishEvents
                              (cycleAfter (startedCycle Detached s) sched)
                              (pending (cycleRun s sched))
                       else []) = 0) as Hfin.
  { intros f Hf. case_match; [|done].
    pose proof (countEv_le f _ (finishEvents
      (cycleAfter (startedCycle Detached s) sched)
      (pending (cycleRun s sched))) Hf) as Hle.
    rewrite countEv_isGitIn_finishEvents in Hle. lia. }
  assert (∀ f, (∀ e, f e = true → isGitIn (folderPath p) e = true) →
            countEv f (taskEvents (autoMerge (getConfig s)) 0 ts sched)
            = countEv f (eventsOf (autoMerge (getConfig s)) p AwaitFetch
                           (outcomes t sched))) as Htask.
  { intros f Hf.
    rewrite (countEv_taskEvents_one _ _ _ _ 0 t p AwaitFetch Hts); [done|].
    intros t' q sq outs Hne Hq. unfold ts in Hq.
    rewrite list_lookup_fmap in Hq.
    destruct (gitProjects (env s) !! t') as [q'|] eqn:Hq'; [|done].
    injection Hq as <- <-.
    pose proof (countEv_le f _ (eventsOf (autoMerge (getConfig s)) q'
                                  AwaitFetch outs) Hf) as Hle.
    rewrite countEv_isGitIn_eventsOf in Hle; [lia|].
    intros Heq. destruct Hne.
    apply (NoDup_lookup (folderPath <$> gitProjects (env s)) t' t
             (folderPath p) Hnd); rewrite list_lookup_fmap.
    - rewrite Hq'. simpl. by rewrite Heq.
    - by rewrite Ht. }
  assert (∀ args e, isEvent (ExecGit args (folderPath p)) e = true →
            isGitIn (folderPath p) e = true) as Hev.
  { intros args e ->%bool_decide_eq_true. by apply bool_decide_eq_true_2. }
  assert (∀ args e, isEvent (ExecGit args (folderPath p)) e = true →
            ∃ args' cwd, e = ExecGit args' cwd) as Hgit.
  { intros args e ->%bool_decide_eq_true. by eexists _, _. }
  split_and!; rewrite (countEv_cycleRun _ s sched Hsome);
    fold ts; rewrite Hfin, Htask by eauto.
  - pose proof (countEv_git_eventsOf _ (autoMerge (getConfig s)) p
                  (outcomes t sched) (Hgit fetchArgs)) as Hle.
    unfold isEvent at 2 3 in Hle.
    rewrite !bool_decide_eq_false_2, andb_false_r in Hle by done.
    unfold fanOutEvents. simpl.
    rewrite (countEv_fmap_one _ _ _ p); [lia|done..| |].
    + by apply bool_decide_eq_true_2.
    + intros q Hq [= Heq]%bool_decide_eq_true.
      by apply (NoDup_fmap_eq folderPath (gitProjects (env s))).
  - pose proof (countEv_git_eventsOf _ (autoMerge (getConfig s)) p
                  (outcomes t sched) (Hgit revListArgs)) as Hle.
    unfold isEvent at 2 3 in Hle.
    rewrite (bool_decide_eq_false_2 (ExecGit pullArgs _ = _)),
      andb_false_r in Hle by done.
    rewrite bool_decide_eq_true_2 in Hle by done.
    unfold fanOutEvents. simpl.
    rewrite countEv_fmap_none; [lia|]. intros q _.
    by apply bool_decide_eq_false_2.
  - pose proof (countEv_git_eventsOf _ (autoMerge (getConfig s)) p
                  (outcomes t sched) (Hgit pullArgs)) as Hle.
    unfold isEvent at 2 3 in Hle.
    rewrite (bool_decide_eq_false_2 (ExecGit revListArgs _ = _)) in Hle
      by done.
    unfold fanOutEvents. simpl.
    rewrite countEv_fmap_none; [destruct (_ && _); lia|]. intros q _.
    by apply bool_decide_eq_false_2.
  - pose proof (countEv_git_eventsOf _ (autoMerge (getConfig s)) p
                  (outcomes t sched) (isGitIn_git (folderPath p))) as Hle.
    simpl in Hle. rewrite !bool_decide_eq_true_2 in Hle by done.
    unfold fanOutEvents. simpl.
    rewrite (countEv_fmap_one _ _ _ p); [|done..| |].
    + destruct (autoMerge (getConfig s)); simpl in Hle; lia.
    + by apply bool_decide_eq_true_2.
    + intros q Hq Heq%bool_decide_eq_true.
      by apply (NoDup_fmap_eq folderPath (gitProjects (env s))).
Qed.

Lemma one_cycle_runs_few_git_processes_witness :
  let s := newAutoSyncService
             (Scenario.world Scenario.autoMerging [Scenario.A; Scenario.B]) in
  let evs := newEvents s
               (cycleRun s [(0, Scenario.ok); (0, Scenario.count "2");
                            (1, Scenario.ok); (0, Scenario.ok)]) in
  countEv (isEvent (ExecGit fetchArgs "/contexts/A")) evs = 1
  ∧ (countEv (isEvent (ExecGit revListArgs "/contexts/A")) evs ≤ 1)%nat
  ∧ (countEv (isEvent (ExecGit pullArgs "/contexts/A")) evs ≤ 1)%nat
  ∧ (countEv (isGitIn "/contexts/A") evs ≤ 3)%nat.
Proof.
  intros s evs.
  apply (one_cycle_runs_few_git_processes s
           [(0, Scenario.ok); (0, Scenario.count "2");
            (1, Scenario.ok); (0, Scenario.ok)] 0 Scenario.A).
  - apply (bool_decide_unpack _). vm_compute. exact I.
  - reflexivity.
Defined.

(** ** States that the service reaches *)

Lemma run_invariant (P : State → Prop) :
  (∀ s i, P s → P (step s i)) → ∀ inputs s, P s → P (run s inputs).
Proof.
  intros Hstep. induction inputs as [|i inputs IH]; intros s Hs; [done|].
  apply (IH (step s i)). by apply Hstep.
Qed.

Lemma pendingChecked_frame s s' :
  pending s' = pending s → cycles s' = cycles s →
  pendingChecked s → pendingChecked s'.
Proof. unfold pendingChecked. by intros -> ->. Qed.

Lemma pendingChecked_checkForUpdates aw s :
  pendingChecked s → pendingChecked (checkForUpdates aw s).
Proof.
  intros [Hen _].
  destruct (decide (gitProjects (env s) = [])) as [Hnone|Hsome].
  - destruct (checkForUpdates_none aw s Hnone) as (Hp & Hc & _).
    split; [by rewrite Hc|]. rewrite Hp. by intros n ?%elem_of_nil.
  - destruct (checkForUpdates_some aw s Hsome) as (Hp & Hc & _).
    split; [|rewrite Hp; by intros n ?%elem_of_nil].
    rewrite Hc. intros cyc p st [Hcyc|Hcyc]%elem_of_app; [by apply Hen|].
    apply list_elem_of_singleton in Hcyc as ->. simpl.
    intros [q [[= -> ->] Hq]]%list_elem_of_fmap.
    by apply elem_of_gitProjects in Hq as (_ & ? & _).
Qed.

Lemma taskStep_found am p st r :
  (taskStep am p st r).1.2 = true →
  pastRevList (taskStep am p st r).1.1 = true.
Proof. destruct st, r; simpl; by repeat case_match. Qed.

Lemma taskStep_pastRevList am p st r :
  pastRevList st = true → pastRevList (taskStep am p st r).1.1 = true.
Proof. destruct st, r; simpl; by repeat case_match. Qed.

Lemma pendingChecked_settle c t r s :
  pendingChecked s → pendingChecked (settle c t r s).
Proof.
  intros [Hen Hpend].
  destruct (cycles s !! c) as [cyc|] eqn:Hc; [|by rewrite settle_no_cycle].
  destruct (tasks cyc !! t) as [[p st]|] eqn:Ht;
    [destruct (isFinished st) eqn:Hst|].
  - destruct st; try done. by rewrite (settle_idle _ _ _ _ _ Hc) by eauto.
  - destruct (settle_active s c t r cyc p st Hc Ht Hst) as (Hcy & Hp & _).
    set (am := autoMerge (cyc_config cyc)) in *.
    set (cyc' := Build_Cycle _ _ _ _) in Hcy.
    assert (cycles (settle c t r s) !! c = Some cyc') as Hc'.
    { rewrite Hcy. apply list_lookup_insert_eq. by eapply lookup_lt_Some. }
    assert (tasks cyc' !! t = Some (p, (taskStep am p st r).1.1)) as Ht'.
    { simpl. apply list_lookup_insert_eq. by eapply lookup_lt_Some. }
    (* what was the case for a callback before is the case after *)
    assert (∀ cyc0 q sq, cyc0 ∈ cycles s → (q, sq) ∈ tasks cyc0 →
              ∃ cyc1 sq', cyc1 ∈ cycles (settle c t r s)
                          ∧ (q, sq') ∈ tasks cyc1
                          ∧ (pastRevList sq = true → pastRevList sq' = true))
      as Hkeep.
    { intros cyc0 q sq [c0 Hc0]%list_elem_of_lookup [t0 Ht0]%list_elem_of_lookup.
      destruct (decide (c0 = c)) as [->|Hne].
      - assert (cyc0 = cyc) as -> by congruence.
        exists cyc'. destruct (decide (t0 = t)) as [->|Hnet].
        + assert (q = p ∧ sq = st) as [-> ->] by (split; congruence).
          eexists. split_and!; [by eapply list_elem_of_lookup_2..|].
          apply taskStep_pastRevList.
        + exists sq. split_and!; [by eapply list_elem_of_lookup_2| |done].
          apply (list_elem_of_lookup_2 _ t0). simpl.
          by rewrite list_lookup_insert_ne.
      - exists cyc0, sq.
        split_and!; [|by eapply list_elem_of_lookup_2|done].
        apply (list_elem_of_lookup_2 _ c0). rewrite Hcy.
        by rewrite list_lookup_insert_ne. }
    split.
    + intros cyc1 q sq [c1 Hc1]%list_elem_of_lookup Hq.
      rewrite Hcy in Hc1. destruct (decide (c1 = c)) as [->|Hne].
      * rewrite list_lookup_insert_eq in Hc1 by by eapply lookup_lt_Some.
        injection Hc1 as <-. simpl in Hq.
        apply list_elem_of_lookup in Hq as [t1 Hq].
        destruct (decide (t1 = t)) as [->|Hnet].
        -- rewrite list_lookup_insert_eq in Hq by by eapply lookup_lt_Some.
           injection Hq as <- <-.
           apply (Hen cyc p st); by eapply list_elem_of_lookup_2.
        -- rewrite list_lookup_insert_ne in Hq by done.
           apply (Hen cyc q sq); by eapply list_elem_of_lookup_2.
      * rewrite list_lookup_insert_ne in Hc1 by done.
        apply (Hen cyc1 q sq); [by eapply list_elem_of_lookup_2|done].
    + intros n Hn. rewrite Hp in Hn.
      assert (n ∈ pending s ∨ ((taskStep am p st r).1.2 = true ∧ n = name p))
        as [Hold|[Hfound ->]].
      { destruct ((taskStep am p st r).1.2); [|by left].
        apply elem_of_setAdd in Hn as [->|Hn]; [by right|by left]. }
      * destruct (Hpend n Hold) as (cyc0 & q & sq & Hc0 & Hq & Hname & Hpast).
        destruct (Hkeep cyc0 q sq Hc0 Hq) as (cyc1 & sq' & ? & ? & Himp).
        exists cyc1, q, sq'. split_and!; [done..|by apply Himp].
      * exists cyc', p, (taskStep am p st r).1.1.
        split_and!; [by eapply list_elem_of_lookup_2..|done|].
        by apply taskStep_found.
  - by rewrite (settle_idle _ _ _ _ _ Hc) by eauto.
Qed.

Lemma pendingChecked_step s i : pendingChecked s → pendingChecked (step s i).
Proof.
  intros Hs. destruct i as [| | |id|c t r|e]; simpl.
  - unfold start. repeat case_match; try done.
    + by apply pendingChecked_checkForUpdates.
    + destruct (resume_frame (AwaitedByStart (getConfig s))
                  (emit [Console (LogStarting (intervalMinutes (getConfig s)))] s))
        as (Hh & Hc & _ & _ & Hw & _).
      eapply pendingChecked_frame; [by apply pending_heap|done|done].
  - destruct (stop_frame s) as (_ & Hp & _ & Hc & _).
    by eapply pendingChecked_frame.
  - by apply pendingChecked_checkForUpdates.
  - case_match; [by apply pendingChecked_checkForUpdates|done].
  - by apply pendingChecked_settle.
  - done.
Qed.

(** ** Where the names in the set come from *)

(** A callback finds its project behind only when its rev-list is
    fulfilled with a positive count. *)
Lemma taskStep_found_inv am p st r :
  (taskStep am p st r).1.2 = true →
  st = AwaitRevList ∧ ∃ out, r = Fulfilled out ∧ isBehind out = true.
Proof.
  destruct st, r as [out|e]; simpl; try done.
  destruct (isBehind out) eqn:Hb; [|done]. intros _. split; [done|].
  by exists out.
Qed.

(** X7. In every state that the service reaches, every name in the set
    was put there by a callback of some cycle for an enabled project of
    that name, when the rev-list that this callback awaited was fulfilled
    with a positive count; and [checkForUpdates()] has not been called
    since. *)
Theorem pending_names_are_checked_projects
    (e : Env) (inputs : list Input) (n : string) :
  let s0 := newAutoSyncService e in
  n ∈ pending (run s0 inputs) →
  ∃ pre c t out post cyc p,
    inputs = pre ++ Settle c t (Fulfilled out) :: post
    ∧ cycles (run s0 pre) !! c = Some cyc
    ∧ tasks cyc !! t = Some (p, AwaitRevList)
    ∧ name p = n ∧ enabled p = true ∧ isBehind out = true
    ∧ noCheckForUpdates (run s0 (pre ++ [Settle c t (Fulfilled out)])) post
      = true.
Proof.
  intros s0. revert n.
  induction inputs as [|i inputs IH] using rev_ind; intros n Hn.
  { by apply elem_of_nil in Hn. }
  rewrite run_app in Hn. change (run ?x [i]) with (step x i) in Hn.
  set (s := run s0 inputs) in *.
  assert (n ∈ pending s → callsCheckForUpdates s i = false →
          ∃ pre c t out post cyc p,
            inputs ++ [i] = pre ++ Settle c t (Fulfilled out) :: post
            ∧ cycles (run s0 pre) !! c = Some cyc
            ∧ tasks cyc !! t = Some (p, AwaitRevList)
            ∧ name p = n ∧ enabled p = true ∧ isBehind out = true
            ∧ noCheckForUpdates
                (run s0 (pre ++ [Settle c t (Fulfilled out)])) post
              = true) as Hkeep.
  { intros Hold Hq.
    destruct (IH n Hold)
      as (pre & c & t & out & post & cyc & p & -> & Hc & Ht & Hname & Hen
          & Hb & Hquiet).
    exists pre, c, t, out, (post ++ [i]), cyc, p.
    split_and!; [by rewrite <- (assoc_L (++))|done..|].
    rewrite noCheckForUpdates_app, Hquiet. simpl.
    rewrite <- run_app, <- (assoc_L (++)). simpl.
    fold s. by rewrite Hq. }
  destruct (callsCheckForUpdates s i) eqn:Hq.
  { rewrite (step_calls_pending s i Hq) in Hn. by apply elem_of_nil in Hn. }
  destruct (decide (isSettle i)) as [Hi|Hi];
    [|destruct (step_quiet s i Hq Hi) as [_ Hp]; rewrite Hp in Hn;
      by apply Hkeep].
  destruct i as [| | | |c t r|]; try done. cbn [step] in Hn.
  destruct (cycles s !! c) as [cyc|] eqn:Hc;
    [|rewrite settle_no_cycle in Hn by done; by apply Hkeep].
  apply (settle_pending s c t r cyc n Hc) in Hn
    as [Hold|(t' & p & st & Ht & Hname & Hf)]; [by apply Hkeep|].
  destruct (decide (t' = t)) as [->|Hne];
    [|rewrite outcomes_other in Hf by done;
      change (outcomes t' []) with (@nil Settled) in Hf; simpl in Hf; lia].
  rewrite outcomes_here in Hf.
  change (outcomes t []) with (@nil Settled) in Hf. simpl in Hf.
  destruct ((taskStep (autoMerge (cyc_config cyc)) p st r).1.2) eqn:Hfound;
    [|lia].
  apply taskStep_found_inv in Hfound as (-> & out & -> & Hb).
  exists inputs, c, t, out, [], cyc, p.
  split_and!; [done..| |done|done].
  assert (pendingChecked s) as [Hen _].
  { apply run_invariant; [apply pendingChecked_step|].
    split; [by intros cyc0 p0 st0 ?%elem_of_nil|].
    by intros n' ?%elem_of_nil. }
  apply (Hen cyc p AwaitRevList); by eapply list_elem_of_lookup_2.
Qed.

Lemma pending_names_are_checked_projects_witness :
  let inputs := [CallStart; TimerFires 0; Settle 0 0 Scenario.ok;
                 Settle 0 0 (Scenario.count "2"); CallStop] in
  let s0 := newAutoSyncService
              (Scenario.world Scenario.notifyOnly [Scenario.A; Scenario.B]) in
  ∃ pre c t out post cyc p,
    inputs = pre ++ Settle c t (Fulfilled out) :: post
    ∧ cycles (run s0 pre) !! c = Some cyc
    ∧ tasks cyc !! t = Some (p, AwaitRevList)
    ∧ name p = "A" ∧ enabled p = true ∧ isBehind out = true
    ∧ noCheckForUpdates (run s0 (pre ++ [Settle c t (Fulfilled out)])) post
      = true.
Proof.
  intros inputs s0.
  apply (pending_names_are_checked_projects
           (Scenario.world Scenario.notifyOnly [Scenario.A; Scenario.B])
           inputs "A").
  vm_compute. apply list_elem_of_here.
Defined.

(** ** The status bar *)

Lemma updateStatusBar_idem s :
  updateStatusBar (updateStatusBar s) = updateStatusBar s.
Proof.
  assert (getConfig (updateStatusBar s) = getConfig s) as Hg.
  { unfold getConfig. by rewrite env_updateStatusBar. }
  assert (lastCheckTime (updateStatusBar s) = lastCheckTime s) as Hl.
  { unfold updateStatusBar. by repeat case_match. }
  unfold updateStatusBar at 1. rewrite Hg, pending_updateStatusBar, Hl.
  unfold updateStatusBar. destruct (negb _); [done|].
  by destruct (bool_decide _).
Qed.

Lemma updateStatusBar_emit evs s :
  updateStatusBar (emit evs s) = emit evs (updateStatusBar s).
Proof.
  unfold updateStatusBar, getConfig, pending. simpl. by repeat case_match.
Qed.

(** What [updateStatusBar()] leaves in the status bar item. *)
Lemma statusBarItem_updateStatusBar s :
  let item := statusBarItem (updateStatusBar s) in
  visible item = cfg_enabled (getConfig s)
  ∧ (cfg_enabled (getConfig s) = true →
     text item = (if bool_decide (0 < length (pending s))
                  then TextUpdates (length (pending s)) else TextSynced)
     ∧ warningBackground item = bool_decide (0 < length (pending s))).
Proof.
  unfold updateStatusBar. destruct (cfg_enabled (getConfig s)); simpl;
    [|done].
  by destruct (bool_decide _).
Qed.

Lemma finishCycle_statusBar cyc s :
  statusBarItem (finishCycle cyc s)
  = statusBarItem (updateStatusBar (finishCycle cyc s)).
Proof.
  unfold finishCycle. set (s1 := if _ && _ then _ else s).
  destruct (awaiter cyc) as [|cfg]; simpl.
  - by rewrite updateStatusBar_idem.
  - unfold startArm. simpl.
    by rewrite updateStatusBar_emit, updateStatusBar_idem.
Qed.

(** X8. When a settlement ends a cycle, the status bar item is up to
    date: it is shown exactly when auto-sync is enabled, and then its text
    and its background say how many projects are in the set at that
    moment. *)
Theorem status_bar_is_current_when_a_cycle_ends
    (s : State) (c t : nat) (r : Settled) (cyc cyc' : Cycle) :
  let s' := settle c t r s in
  cycles s !! c = Some cyc → inFlight cyc = true →
  cycles s' !! c = Some cyc' → inFlight cyc' = false →
  visible (statusBarItem s') = cfg_enabled (getConfig s')
  ∧ (cfg_enabled (getConfig s') = true →
     text (statusBarItem s')
     = (if bool_decide (0 < length (pending s'))
        then TextUpdates (length (pending s')) else TextSynced)
     ∧ warningBackground (statusBarItem s')
       = bool_decide (0 < length (pending s'))).
Proof.
  intros s' Hc Hfl Hc' Hfl'.
  assert (statusBarItem s' = statusBarItem (updateStatusBar s')) as ->;
    [|apply statusBarItem_updateStatusBar].
  subst s'.
  destruct (tasks cyc !! t) as [[p st]|] eqn:Ht;
    [destruct (isFinished st) eqn:Hst|].
  - destruct st; try done.
    rewrite (settle_idle _ _ _ _ _ Hc) in Hc' by eauto. congruence.
  - destruct (settle_active s c t r cyc p st Hc Ht Hst) as (Hcy & _).
    rewrite Hcy, list_lookup_insert_eq in Hc' by by eapply lookup_lt_Some.
    injection Hc' as <-. unfold inFlight in Hfl'. simpl in Hfl'.
    apply negb_false_iff in Hfl'.
    unfold settle. rewrite Hc, Ht, Hst.
    destruct (taskStep _ p st r) as [[st' found] evs]. simpl in *.
    rewrite Hfl'. apply finishCycle_statusBar.
  - rewrite (settle_idle _ _ _ _ _ Hc) in Hc' by eauto. congruence.
Qed.

Lemma status_bar_is_current_when_a_cycle_ends_witness :
  let s := run (newAutoSyncService
                  (Scenario.world Scenario.notifyOnly [Scenario.A]))
             [CallStart; TimerFires 0; Settle 0 0 Scenario.ok] in
  let s' := settle 0 0 (Scenario.count "2") s in
  visible (statusBarItem s') = true
  ∧ (true = true →
     text (statusBarItem s')
     = (if bool_decide (0 < length (pending s'))
        then TextUpdates (length (pending s')) else TextSynced)
     ∧ warningBackground (statusBarItem s')
       = bool_decide (0 < length (pending s'))).
Proof.
  intros s s'.
  refine (status_bar_is_current_when_a_cycle_ends s 0 0 (Scenario.count "2")
            {| cyc_config := Scenario.notifyOnly;
               tasks := [(Scenario.A, AwaitRevList)];
               updatesFound := 0; awaiter := Detached |}
            {| cyc_config := Scenario.notifyOnly;
               tasks := [(Scenario.A, Finished)];
               updatesFound := 1; awaiter := Detached |} _ _ _ _);
    vm_compute; reflexivity.
Defined.

(** ** Timers *)

Lemma startArm_timers cfg s :
  timers (startArm cfg s)
  = timers s ++ [(nextTimer s, timerDelay (intervalMinutes cfg * 60 * 1000))]
  ∧ intervalId (startArm cfg s) = Some (nextTimer s)
  ∧ cycles (startArm cfg s) = cycles s.
Proof.
  unfold startArm, setInterval, updateStatusBar. simpl.
  by repeat case_match.
Qed.

Lemma finishCycle_timers cyc s :
  match awaiter cyc with
  | Detached =>
      timers (finishCycle cyc s) = timers s
      ∧ intervalId (finishCycle cyc s) = intervalId s
  | AwaitedByStart cfg =>
      timers (finishCycle cyc s)
      = timers s ++ [(nextTimer s, timerDelay (intervalMinutes cfg * 60 * 1000))]
      ∧ intervalId (finishCycle cyc s) = Some (nextTimer s)
  end.
Proof.
  unfold finishCycle. set (s1 := if _ && _ then _ else s).
  assert (timers (updateStatusBar s1) = timers s
          ∧ intervalId (updateStatusBar s1) = intervalId s
          ∧ nextTimer (updateStatusBar s1) = nextTimer s) as (Ht & Hi & Hn).
  { subst s1. unfold updateStatusBar, notifyUpdatesAvailable.
    by repeat case_match. }
  destruct (awaiter cyc) as [|cfg]; [exact (conj Ht Hi)|]. unfold resume.
  destruct (startArm_timers cfg (updateStatusBar s1)) as (-> & -> & _).
  by rewrite Ht, Hn.
Qed.

(** What a settlement for a suspended callback does to the timers. *)
Lemma settle_active_timers s c t r cyc p st :
  cycles s !! c = Some cyc → tasks cyc !! t = Some (p, st) →
  isFinished st = false →
  let st' := (taskStep (autoMerge (cyc_config cyc)) p st r).1.1 in
  let s' := settle c t r s in
  match allFinished (<[t := (p, st')]> (tasks cyc)), awaiter cyc with
  | true, AwaitedByStart cfg =>
      timers s' = timers s ++ [(nextTimer s, timerDelay (intervalMinutes cfg * 60 * 1000))]
      ∧ intervalId s' = Some (nextTimer s)
  | _, _ => timers s' = timers s ∧ intervalId s' = intervalId s
  end.
Proof.
  intros Hc Ht Hst st' s'. subst st' s'. unfold settle.
  rewrite Hc, Ht, Hst.
  destruct (taskStep _ p st r) as [[st1 f1] evs1]. simpl.
  set (s1 := if f1 then setPending _ s else s).
  assert (timers s1 = timers s ∧ intervalId s1 = intervalId s
          ∧ nextTimer s1 = nextTimer s) as (Htm & Hid & Hnx).
  { subst s1. by destruct f1. }
  destruct (allFinished _) eqn:Hall; [|by destruct (awaiter cyc)].
  match goal with
  | |- context [finishCycle ?cyc' ?x] =>
      pose proof (finishCycle_timers cyc' x) as Hfin
  end.
  simpl in Hfin. destruct (awaiter cyc) as [|cfg];
    destruct Hfin as [Hf1 Hf2]; rewrite Hf1, Hf2; simpl;
    by rewrite ?Htm, ?Hid, ?Hnx.
Qed.

Lemma filter_insert_count {A} (f : A → bool) (l : list A) (i : nat) (x y : A) :
  l !! i = Some x →
  length (List.filter f (<[i := y]> l)) + (if f x then 1 else 0)
  = length (List.filter f l) + (if f y then 1 else 0).
Proof.
  revert i. induction l as [|a l IH]; intros [|i] Hi; simpl in *; try done.
  - injection Hi as ->. destruct (f x), (f y); simpl; lia.
  - specialize (IH i Hi). destruct (f a); simpl; lia.
Qed.

Lemma filter_app_length {A} (f : A → bool) (l : list A) (x : A) :
  length (List.filter f (l ++ [x]))
  = length (List.filter f l) + (if f x then 1 else 0).
Proof.
  rewrite List.filter_app, length_app. simpl. by destruct (f x).
Qed.

Lemma stopped_spec s :
  stopped s = true →
  intervalId s = None ∧ length (List.filter startSuspended (cycles s)) = 0.
Proof.
  unfold stopped. intros [Hid Hall]%andb_true_iff.
  apply bool_decide_eq_true in Hid. split; [done|].
  induction (cycles s) as [|cyc l IH]; simpl in *; [done|].
  apply andb_true_iff in Hall as [Hc Hl].
  apply negb_true_iff in Hc. rewrite Hc. by apply IH.
Qed.

Lemma oneTimer_frame s s' :
  timers s' = timers s → intervalId s' = intervalId s →
  cycles s' = cycles s → oneTimer s → oneTimer s'.
Proof. unfold oneTimer, handles. by intros -> -> ->. Qed.

Lemma updateStatusBar_timers s :
  timers (updateStatusBar s) = timers s
  ∧ intervalId (updateStatusBar s) = intervalId s
  ∧ nextTimer (updateStatusBar s) = nextTimer s.
Proof. unfold updateStatusBar. by repeat case_match. Qed.

Lemma oneTimer_checkForUpdates_detached s :
  oneTimer s → oneTimer (checkForUpdates Detached s).
Proof.
  intros [Htm Hk].
  destruct (decide (gitProjects (env s) = [])) as [Hnone|Hsome].
  - unfold checkForUpdates. simpl. rewrite Hnone. simpl.
    match goal with |- oneTimer (updateStatusBar ?x) =>
      destruct (updateStatusBar_timers x) as (Ht & Hi & _)
    end.
    eapply oneTimer_frame; [exact Ht|exact Hi|apply cycles_updateStatusBar|].
    by split.
  - destruct (checkForUpdates_some Detached s Hsome)
      as (_ & Hc & _ & _ & _ & Hid & Ht).
    unfold oneTimer, handles. rewrite Hc, Hid, Ht, filter_app_length.
    unfold startSuspended at 2 4. simpl. rewrite andb_false_r, !Nat.add_0_r.
    done.
Qed.

Lemma oneTimer_settle c t r s : oneTimer s → oneTimer (settle c t r s).
Proof.
  intros [Htm Hk].
  destruct (cycles s !! c) as [cyc|] eqn:Hc; [|by rewrite settle_no_cycle].
  destruct (tasks cyc !! t) as [[p st]|] eqn:Ht;
    [destruct (isFinished st) eqn:Hst|].
  - destruct st; try done. by rewrite (settle_idle _ _ _ _ _ Hc) by eauto.
  - destruct (settle_active s c t r cyc p st Hc Ht Hst) as (Hcy & _).
    pose proof (settle_active_timers s c t r cyc p st Hc Ht Hst) as Htimers.
    simpl in Htimers.
    set (cyc' := Build_Cycle _ _ _ _) in Hcy.
    pose proof (filter_insert_count startSuspended (cycles s) c cyc cyc' Hc)
      as Hcount.
    rewrite <- Hcy in Hcount.
    assert (inFlight cyc = true) as Hfl.
    { unfold inFlight. by rewrite (allFinished_active _ _ _ _ Ht Hst). }
    assert (startSuspended cyc
            = match awaiter cyc with
              | AwaitedByStart _ => true
              | Detached => false
              end) as Hsus.
    { unfold startSuspended. by rewrite Hfl. }
    assert (startSuspended cyc'
            = negb (allFinished (tasks cyc'))
              && match awaiter cyc with
                 | AwaitedByStart _ => true
                 | Detached => false
                 end) as Hsus' by done.
    rewrite Hsus, Hsus' in Hcount. simpl in Hcount.
    unfold oneTimer, handles.
    destruct (allFinished _) eqn:Hall, (awaiter cyc) as [|cfg] eqn:Haw;
      simpl in Hcount; destruct Htimers as [-> ->].
    + split; [done|]. destruct Hk as [Hk|[Hk Hid]]; [left; lia|right].
      split; [lia|done].
    + assert (length (List.filter startSuspended (cycles s)) = 1
              ∧ intervalId s = None) as [Hk1 Hid].
      { destruct Hk as [Hk|Hk]; [lia|done]. }
      unfold handles in Htm. rewrite Hid in Htm.
      destruct (timers s); [|done]. split; [done|]. left. lia.
    + split; [done|]. destruct Hk as [Hk|[Hk Hid]]; [left; lia|right].
      split; [lia|done].
    + split; [done|]. destruct Hk as [Hk|[Hk Hid]]; [left; lia|right].
      split; [lia|done].
  - by rewrite (settle_idle _ _ _ _ _ Hc) by eauto.
Qed.

Lemma oneTimer_stop s : oneTimer s → oneTimer (stop s).
Proof.
  intros [Htm Hk]. destruct (stop_frame s) as (Hid & _ & _ & Hc & _).
  unfold oneTimer, handles. rewrite Hid, Hc. split.
  - unfold stop, clearInterval. unfold handles in Htm.
    destruct (intervalId s) as [id|]; simpl; [|done].
    destruct (timers s) as [|[id' ms] [|??]]; simplify_eq/=.
    by rewrite Nat.eqb_refl.
  - destruct Hk as [Hk|[Hk _]]; [by left|by right].
Qed.

Lemma oneTimer_start s : stopped s = true → oneTimer s → oneTimer (start s).
Proof.
  intros [Hid Hk0]%stopped_spec [Htm _].
  unfold handles in Htm. rewrite Hid in Htm.
  assert (timers s = []) as Hnil by by destruct (timers s).
  unfold start. destruct (cfg_enabled (getConfig s)); simpl;
    [|unfold oneTimer, handles; simpl; rewrite Hid, Hnil; split; [done|by left]].
  set (s0 := emit _ s).
  assert (∀ cfg, oneTimer (startArm cfg s0)) as Harm.
  { intros cfg. destruct (startArm_timers cfg s0) as (Ht & Hi & Hc).
    unfold oneTimer, handles. rewrite Ht, Hi, Hc. simpl. rewrite Hnil.
    split; [done|by left]. }
  destruct (runOnStartup (getConfig s)); [|apply Harm].
  destruct (decide (gitProjects (env s) = [])) as [Hnone|Hsome].
  - unfold checkForUpdates. simpl. rewrite Hnone. simpl.
    match goal with |- oneTimer (startArm ?cfg ?x) =>
      destruct (startArm_timers cfg x) as (Ht & Hi & Hc)
    end.
    unfold oneTimer, handles. rewrite Ht, Hi, Hc.
    rewrite cycles_updateStatusBar. simpl.
    match goal with |- context [timers (updateStatusBar ?x)] =>
      destruct (updateStatusBar_timers x) as (-> & _ & _)
    end.
    simpl. rewrite Hnil. split; [done|by left].
  - destruct (checkForUpdates_some (AwaitedByStart (getConfig s)) s0 Hsome)
      as (_ & Hc & _ & _ & _ & Hi & Ht).
    unfold oneTimer, handles. rewrite Hc, Hi, Ht, filter_app_length.
    simpl. rewrite Hid, Hnil. split; [done|]. right.
    unfold startSuspended at 2. simpl.
    rewrite startedCycle_inFlight by done. simpl. split; [lia|done].
Qed.

Lemma oneTimer_run inputs : ∀ s,
  oneTimer s → startsWhenStopped s inputs = true → oneTimer (run s inputs).
Proof.
  induction inputs as [|i inputs IH]; intros s Hs Hin; [done|].
  simpl in Hin. apply andb_true_iff in Hin as [Hi Hin].
  apply (IH (step s i)); [|done].
  destruct i as [| | |id|c t r|e]; simpl.
  - by apply oneTimer_start.
  - by apply oneTimer_stop.
  - by apply oneTimer_checkForUpdates_detached.
  - case_match; [by apply oneTimer_checkForUpdates_detached|done].
  - by apply oneTimer_settle.
  - done.
Qed.

(** X9. When every [start()] is called in a stopped state (no handle is
    held and no earlier [start()] still awaits its check at start-up), then
    in every state that the service reaches at most one timer is armed, and
    it is the one whose handle the service holds, so that [stop()] can
    cancel it. *)
Theorem at_most_one_timer_when_started_from_stopped
    (e : Env) (inputs : list Input) :
  startsWhenStopped (newAutoSyncService e) inputs = true →
  let s := run (newAutoSyncService e) inputs in
  (timers s).*1 = handles s ∧ (length (timers s) ≤ 1)%nat.
Proof.
  intros Hin s.
  assert (oneTimer s) as [Htm _].
  { apply oneTimer_run; [|done]. split; [done|by left]. }
  split; [done|]. rewrite <- (length_fmap fst), Htm.
  unfold handles. destruct (intervalId s); simpl; lia.
Qed.

Lemma at_most_one_timer_when_started_from_stopped_witness :
  let s := run (newAutoSyncService
                  (Scenario.world Scenario.startupCheck [Scenario.A]))
             [CallStart; CallStop; Settle 0 0 Scenario.ok;
              Settle 0 0 (Scenario.count "0"); CallStop; CallStart] in
  (timers s).*1 = handles s ∧ (length (timers s) ≤ 1)%nat.
Proof.
  intros s.
  apply (at_most_one_timer_when_started_from_stopped
           (Scenario.world Scenario.startupCheck [Scenario.A])
           [CallStart; CallStop; Settle 0 0 Scenario.ok;
            Settle 0 0 (Scenario.count "0"); CallStop; CallStart]).
  vm_compute. reflexivity.
Defined.

(** ** Timer handles *)

Lemma checkForUpdates_none_eq aw s :
  gitProjects (env s) = [] →
  checkForUpdates aw s
  = resume aw (updateStatusBar
      (emit [Console LogNoGitProjects]
         (setPending [] (set_lastCheckTime (Some (now (env s))) s)))).
Proof. intros Hnone. unfold checkForUpdates. simpl. by rewrite Hnone. Qed.

Lemma checkForUpdates_timers aw s :
  gitProjects (env s) ≠ [] ∨ aw = Detached →
  timers (checkForUpdates aw s) = timers s
  ∧ nextTimer (checkForUpdates aw s) = nextTimer s
  ∧ intervalId (checkForUpdates aw s) = intervalId s.
Proof.
  intros Hcase.
  destruct (decide (gitProjects (env s) = [])) as [Hnone|Hsome].
  - destruct Hcase as [?| ->]; [done|].
    unfold checkForUpdates. simpl. rewrite Hnone. simpl.
    match goal with |- context [updateStatusBar ?x] =>
      by destruct (updateStatusBar_timers x) as (-> & -> & ->)
    end.
  - unfold checkForUpdates. simpl.
    by rewrite bool_decide_eq_false_2 by (by destruct (gitProjects (env s))).
Qed.

Lemma startArm_nextTimer cfg s :
  nextTimer (startArm cfg s) = S (nextTimer s).
Proof.
  unfold startArm, setInterval, updateStatusBar. simpl. by repeat case_match.
Qed.

(** A turn leaves the timers alone, or it arms one new timer and stores
    its handle, or it is a [stop()]. *)
Lemma step_timers s i :
  (timers (step s i) = timers s ∧ nextTimer (step s i) = nextTimer s
   ∧ intervalId (step s i) = intervalId s)
  ∨ (∃ ms, timers (step s i) = timers s ++ [(nextTimer s, ms)]
           ∧ nextTimer (step s i) = S (nextTimer s)
           ∧ intervalId (step s i) = Some (nextTimer s))
  ∨ (i = CallStop ∧ nextTimer (step s i) = nextTimer s
     ∧ intervalId (step s i) = None
     ∧ timers (step s i)
       = match intervalId s with
         | Some id => List.filter (λ tm, negb (Nat.eqb tm.1 id)) (timers s)
         | None => timers s
         end).
Proof.
  assert (∀ cfg x, timers x = timers s → nextTimer x = nextTimer s →
            ∃ ms, timers (startArm cfg x) = timers s ++ [(nextTimer s, ms)]
                  ∧ nextTimer (startArm cfg x) = S (nextTimer s)
                  ∧ intervalId (startArm cfg x) = Some (nextTimer s)) as Harm.
  { intros cfg x Ht Hn. destruct (startArm_timers cfg x) as (-> & -> & _).
    rewrite startArm_nextTimer, Ht, Hn. by eexists. }
  destruct i as [| | |id|c t r|e]; simpl.
  - unfold start. destruct (cfg_enabled (getConfig s)); simpl; [|by left].
    set (s0 := emit _ s).
    destruct (runOnStartup (getConfig s)); [|right; left; by apply Harm].
    destruct (decide (gitProjects (env s) = [])) as [Hnone|Hsome].
    + right; left. rewrite checkForUpdates_none_eq by done. unfold resume.
      match goal with |- context [updateStatusBar ?x] =>
        destruct (updateStatusBar_timers x) as (Ht & _ & Hn)
      end.
      exact (Harm _ _ Ht Hn).
    + left. by apply (checkForUpdates_timers _ s0); left.
  - right; right. unfold stop, clearInterval.
    destruct (intervalId s) eqn:Hid; simpl; rewrite ?Hid;
      split_and!; reflexivity.
  - left. apply checkForUpdates_timers. by right.
  - left. case_match; [|done]. apply checkForUpdates_timers. by right.
  - destruct (cycles s !! c) as [cyc|] eqn:Hc;
      [|left; by rewrite settle_no_cycle].
    destruct (tasks cyc !! t) as [[p st]|] eqn:Ht;
      [destruct (isFinished st) eqn:Hst|].
    + left. destruct st; try done.
      by rewrite (settle_idle _ _ _ _ _ Hc) by eauto.
    + unfold settle. rewrite Hc, Ht, Hst.
      destruct (taskStep _ p st r) as [[st1 f1] evs1]. simpl.
      set (s1 := if f1 then setPending _ s else s).
      assert (timers s1 = timers s ∧ intervalId s1 = intervalId s
              ∧ nextTimer s1 = nextTimer s) as (Htm & Hid & Hnx).
      { subst s1. by destruct f1. }
      destruct (allFinished _); [|by left].
      unfold finishCycle. simpl.
      match goal with |- context [updateStatusBar ?x] =>
        destruct (updateStatusBar_timers x) as (Ht' & Hi' & Hn');
        assert (timers x = timers s ∧ intervalId x = intervalId s
                ∧ nextTimer x = nextTimer s) as (Ht2 & Hi2 & Hn2)
          by (unfold notifyUpdatesAvailable; by case_match)
      end.
      destruct (awaiter cyc) as [|cfg]; simpl.
      * left. by rewrite Ht', Hi', Hn', Ht2, Hi2, Hn2.
      * right; left. apply Harm; congruence.
    + left. by rewrite (settle_idle _ _ _ _ _ Hc) by eauto.
  - by left.
Qed.

Lemma filter_fst_sublist {A B} (f : A * B → bool) (l : list (A * B)) :
  (List.filter f l).*1 `sublist_of` l.*1.
Proof.
  induction l as [|x l IH]; csimpl; [done|].
  destruct (f x); csimpl; [by apply sublist_skip|by apply sublist_cons].
Qed.

(** X10. In every state that the service reaches the handles of the armed
    timers are distinct and the handle that the service holds is the handle
    of an armed timer; so [stop()] cancels exactly one timer when a handle
    is held, and none otherwise: every other timer stays armed. *)
Theorem stop_cancels_exactly_the_timer_of_the_handle
    (e : Env) (inputs : list Input) :
  let s := run (newAutoSyncService e) inputs in
  NoDup (timers s).*1
  ∧ (∀ id, intervalId s = Some id → id ∈ (timers s).*1)
  ∧ length (timers (stop s)) = length (timers s) - length (handles s).
Proof.
  intros s.
  assert (NoDup (timers s).*1
          ∧ Forall (λ id, id < nextTimer s) (timers s).*1
          ∧ (∀ id, intervalId s = Some id → id ∈ (timers s).*1))
    as (Hnd & Hlt & Hid).
  { subst s.
    apply (run_invariant (λ s, NoDup (timers s).*1
             ∧ Forall (λ id, id < nextTimer s) (timers s).*1
             ∧ (∀ id, intervalId s = Some id → id ∈ (timers s).*1)));
      [|split_and!; [constructor|constructor|done]].
    clear. intros s i (Hnd & Hlt & Hid).
    destruct (step_timers s i)
      as [(-> & -> & ->)|[(ms & -> & -> & ->)|(_ & -> & -> & ->)]];
      [done| |].
    - rewrite fmap_app. simpl. split_and!.
      + apply NoDup_app. split_and!; [done| |apply NoDup_singleton].
        intros id Hin ->%list_elem_of_singleton.
        rewrite Forall_forall in Hlt. specialize (Hlt _ Hin). lia.
      + apply Forall_app. split; [|by repeat constructor].
        eapply Forall_impl; [done|]. simpl. lia.
      + intros id [= <-]. apply elem_of_app. right. apply list_elem_of_here.
    - pose proof (λ f, filter_fst_sublist f (timers s)) as Hsub.
      destruct (intervalId s); (split_and!; [| |done]); try done.
      + by eapply sublist_NoDup.
      + rewrite Forall_forall in Hlt |- *. intros id Hin.
        apply Hlt. by eapply elem_of_sublist. }
  split_and!; [done..|].
  unfold stop, clearInterval, handles.
  destruct (intervalId s) as [id|]; simpl; [|lia].
  specialize (Hid id eq_refl). clear -Hnd Hid.
  induction (timers s) as [|[id' ms] l IH]; [by apply elem_of_nil in Hid|].
  csimpl in *. apply NoDup_cons in Hnd as [Hnotin Hnd].
  destruct (Nat.eqb_spec id' id) as [->|Hne]; simpl.
  - assert (List.filter (λ tm : nat * Z, negb (tm.1 =? id)%nat) l = l) as ->;
      [|lia].
    clear -Hnotin. induction l as [|[id' ms'] l IH]; [done|].
    csimpl in *. apply not_elem_of_cons in Hnotin as [Hne Hnotin].
    destruct (Nat.eqb_spec id' id); [done|]. simpl. by rewrite IH.
  - apply elem_of_cons in Hid as [->|Hid]; [done|].
    rewrite IH by done. destruct l; [by apply elem_of_nil in Hid|simpl; lia].
Qed.

(** ** Changes of the surroundings during a cycle *)













(** ** The interval of the command [configureAutoSync] *)

Lemma allDigits_pretty_N_go x : ∀ s,
  allDigits s = true → allDigits (pretty_N_go x s) = true.
Proof.
  induction (N.lt_wf_0 x) as [x _ IH]; intros s Hs.
  destruct (decide (x = 0)%N) as [->|Hx]; [by rewrite pretty_N_go_0|].
  rewrite pretty_N_go_step by lia. apply IH; [apply N.div_lt; lia|].
  simpl. rewrite Hs, andb_true_r. apply bool_decide_eq_true_2.
  rewrite is_nat_pretty_N_char by (apply N.mod_lt; lia). by eexists.
Qed.

Lemma allDigits_pretty (n : N) : allDigits (pretty n) = true.
Proof.
  unfold pretty, pretty_N. case_decide; [done|].
  by apply allDigits_pretty_N_go.
Qed.

Lemma pretty_N_nonempty (n : N) : pretty n ≠ "".
Proof.
  unfold pretty, pretty_N. case_decide; [done|].
  destruct (pretty_N_go_head n ltac:(lia) "") as (c & r & d & -> & _). done.
Qed.

(** On a string of decimal digits both ways of reading agree. *)
Lemma parseIntNoRadix_digits s :
  allDigits s = true → parseIntNoRadix s = parseInt s.
Proof.
  destruct s as [|c r]; [done|]. simpl.
  intros [Hc Hr]%andb_true_iff. apply bool_decide_eq_true in Hc as [d Hd].
  unfold parseIntNoRadix, parseInt. rewrite (trimStart_digit _ _ _ Hd).
  destruct r as [|c' r'].
  - destruct c as [[] [] [] [] [] [] [] []]; simpl in *; by simplify_eq.
  - simpl in Hr. apply andb_true_iff in Hr as [Hc' _].
    apply bool_decide_eq_true in Hc' as [d' Hd'].
    destruct c as [[] [] [] [] [] [] [] []]; simpl in Hd; simplify_eq;
      try reflexivity;
      destruct c' as [[] [] [] [] [] [] [] []]; simpl in Hd'; by simplify_eq.
Qed.

(** X12. The input box for the interval accepts the decimal text of a
    number exactly when the number is between 5 and 1440; so the value that
    the box offers, the text of the current interval, is accepted exactly
    when the current interval is in this range. *)
Theorem validateInterval_accepts_the_numerals_in_range (n : N) :
  validateInterval (pretty n) = None ↔ (5 ≤ n ≤ 1440)%N.
Proof.
  unfold validateInterval.
  rewrite parseIntNoRadix_digits by apply allDigits_pretty.
  pose proof (parseInt_pretty n "" eq_refl) as Hp.
  rewrite append_nil_r in Hp. rewrite Hp.
  destruct (Z.ltb_spec (Z.of_N n) 5), (Z.ltb_spec 1440 (Z.of_N n)); simpl;
    (split; [try done; lia|try done; lia]).
Qed.

Lemma validateInterval_accepted value :
  validateInterval value = None →
  ∃ n, parseIntNoRadix value = Some n ∧ (5 ≤ n ≤ 1440)%Z.
Proof.
  unfold validateInterval. destruct (parseIntNoRadix value) as [n|]; [|done].
  destruct (Z.ltb_spec n 5), (Z.ltb_spec 1440 n); simpl; try done.
  intros _. exists n. split; [done|lia].
Qed.

(** X13. An answer that the input box for the interval accepts is stored
    as a number of minutes between 5 and 1440, and the restart that follows
    arms, when auto-sync is enabled and no check at start-up is awaited, a
    timer with this period, which is between 300000 and 86400000
    milliseconds; the service holds its handle. *)
Theorem accepted_interval_arms_a_timer_in_range
    (value : string) (s : State) :
  validateInterval value = None →
  cfg_enabled (getConfig s) = true →
  runOnStartup (getConfig s) = false ∨ gitProjects (env s) = [] →
  ∃ s' n,
    configureInterval value s = Some s'
    ∧ parseIntNoRadix value = Some n
    ∧ intervalMinutes (getConfig s') = n
    ∧ intervalId s' = Some (nextTimer s)
    ∧ (nextTimer s, n * 60 * 1000)%Z ∈ timers s'
    ∧ (300000 ≤ n * 60 * 1000 ≤ 86400000)%Z.
Proof.
  intros Hval Hen Hcase.
  destruct (validateInterval_accepted value Hval) as (n & Hn & Hrange).
  set (s1 := stop (set_env (updateIntervalMinutes n (env s)) s)).
  exists (start s1), n.
  assert (value ≠ "") as Hne by (by intros ->).
  assert (configureInterval value s = Some (start s1)) as Hcfg.
  { unfold configureInterval. rewrite Hn. by destruct value. }
  destruct (stop_frame (set_env (updateIntervalMinutes n (env s)) s))
    as (_ & _ & _ & _ & Henv & _).
  change (env s1 = updateIntervalMinutes n (env s)) in Henv.
  assert (nextTimer s1 = nextTimer s) as Hnext.
  { subst s1. unfold stop, clearInterval. by repeat case_match. }
  assert (getConfig s1 = config (updateIntervalMinutes n (env s))) as Hg.
  { unfold getConfig. by rewrite Henv. }
  assert (∃ x, start s1 = startArm (getConfig s1) x
               ∧ nextTimer x = nextTimer s ∧ env x = env s1) as (x & Hst & Hx & Hex).
  { assert (cfg_enabled (getConfig s1) = true) as Hen1
      by (rewrite Hg; exact Hen).
    assert (runOnStartup (getConfig s1) = runOnStartup (getConfig s)) as Hro1
      by (by rewrite Hg).
    assert (gitProjects (env s1) = gitProjects (env s)) as Hgit
      by (by rewrite Henv).
    unfold start. rewrite Hen1, Hro1. cbn [negb].
    destruct (runOnStartup (getConfig s)) eqn:Hro; [|by eexists].
    destruct Hcase as [?|Hnone]; [done|].
    rewrite checkForUpdates_none_eq by (cbn [env emit]; by rewrite Hgit).
    unfold resume. eexists. split; [done|].
    match goal with |- context [updateStatusBar ?y] =>
      destruct (updateStatusBar_timers y) as (_ & _ & ->)
    end.
    by rewrite env_updateStatusBar. }
  destruct (startArm_timers (getConfig s1) x) as (Ht & Hi & _).
  split_and!; [done|done| | | |lia|lia].
  - rewrite Hst. unfold getConfig, startArm, setInterval. simpl.
    rewrite env_updateStatusBar. simpl. rewrite Hex, Henv. done.
  - by rewrite Hst, Hi, Hx.
  - rewrite Hst, Ht, Hx, Hg. simpl. apply elem_of_app. right.
    assert (timerDelay (n * 60 * 1000) = (n * 60 * 1000)%Z) as ->.
    { unfold timerDelay.
      destruct (Z.leb_spec 1 (n * 60 * 1000)),
        (Z.leb_spec (n * 60 * 1000) 2147483647); simpl; lia. }
    apply list_elem_of_here.
Qed.

Lemma accepted_interval_arms_a_timer_in_range_witness :
  let s := start (newAutoSyncService
                    (Scenario.world Scenario.notifyOnly [Scenario.A])) in
  ∃ s' n,
    configureInterval "0x10" s = Some s'
    ∧ parseIntNoRadix "0x10" = Some n
    ∧ intervalMinutes (getConfig s') = n
    ∧ intervalId s' = Some (nextTimer s)
    ∧ (nextTimer s, n * 60 * 1000)%Z ∈ timers s'
    ∧ (300000 ≤ n * 60 * 1000 ≤ 86400000)%Z.
Proof.
  intros s.
  apply (accepted_interval_arms_a_timer_in_range "0x10" s).
  - reflexivity.
  - reflexivity.
  - left. reflexivity.
Defined.

(** ** The restart after a change of the settings *)

Lemma timerDelay_in_range (minutes : Z) :
  (1 ≤ minutes ≤ 35791)%Z →
  timerDelay (minutes * 60 * 1000) = (minutes * 60 * 1000)%Z.
Proof.
  intros Hm. unfold timerDelay.
  destruct (1 <=? minutes * 60 * 1000)%Z eqn:H1;
    [|apply Z.leb_gt in H1; lia].
  destruct (minutes * 60 * 1000 <=? 2147483647)%Z eqn:H2;
    [done|apply Z.leb_gt in H2; lia].
Qed.

Lemma timerDelay_out_of_range (minutes : Z) :
  (minutes < 1 ∨ 35791 < minutes)%Z → timerDelay (minutes * 60 * 1000) = 1%Z.
Proof.
  intros Hm. unfold timerDelay.
  destruct (1 <=? minutes * 60 * 1000)%Z eqn:H1; [|done].
  destruct (minutes * 60 * 1000 <=? 2147483647)%Z eqn:H2; [|done].
  apply Z.leb_le in H1, H2. lia.
Qed.

Lemma filter_startSuspended_none cs :
  forallb (λ cyc, negb (startSuspended cyc)) cs = true →
  List.filter startSuspended cs = [].
Proof.
  induction cs as [|cyc cs IH]; simpl; [done|].
  intros [Hc Hcs]%andb_true_iff. apply negb_true_iff in Hc.
  rewrite Hc. by apply IH.
Qed.

(** X14. The restart [stop(); start()] that the listener does after a
    change of the auto-sync settings, in a state in which the armed timers
    are the ones whose handle is held and no [start()] is suspended.
    With auto-sync disabled no timer is armed afterwards.  With auto-sync
    enabled and no check at start-up to wait for (runOnStartup off, or no
    eligible project), exactly one timer is armed, its handle is held, and
    its period is the interval now configured, in milliseconds, when that
    is between 1 and 35791 minutes, and 1 millisecond otherwise; no
    [start()] is suspended.  With auto-sync enabled, runOnStartup on and an
    eligible project, no timer is armed and no handle is held when the
    listener returns: the [start()] is suspended on the cycle that it has
    started, with the configuration that it has read.  In every case the
    armed timers are the ones whose handle is held, and at most one
    [start()] is suspended, and none while a handle is held. *)
Theorem restart_on_configuration_change_applies_the_interval (s : State) :
  (timers s).*1 = handles s →
  forallb (λ cyc, negb (startSuspended cyc)) (cycles s) = true →
  let s' := onDidChangeConfiguration false true s in
  let cfg := getConfig s in
  let period := timerDelay (intervalMinutes cfg * 60 * 1000) in
  oneTimer s'
  ∧ ((1 ≤ intervalMinutes cfg ≤ 35791)%Z →
     period = (intervalMinutes cfg * 60 * 1000)%Z)
  ∧ ((intervalMinutes cfg < 1 ∨ 35791 < intervalMinutes cfg)%Z →
     period = 1%Z)
  ∧ (cfg_enabled cfg = false →
     timers s' = [] ∧ intervalId s' = None ∧ cycles s' = cycles s)
  ∧ (cfg_enabled cfg = true →
     runOnStartup cfg = false ∨ gitProjects (env s) = [] →
     timers s' = [(nextTimer s, period)]
     ∧ intervalId s' = Some (nextTimer s)
     ∧ cycles s' = cycles s)
  ∧ (cfg_enabled cfg = true → runOnStartup cfg = true →
     gitProjects (env s) ≠ [] →
     timers s' = [] ∧ intervalId s' = None
     ∧ ∃ cyc, cycles s' = cycles s ++ [cyc]
              ∧ awaiter cyc = AwaitedByStart cfg
              ∧ List.filter startSuspended (cycles s') = [cyc]).
Proof.
  intros Htm Hsus s' cfg period. subst s'. unfold onDidChangeConfiguration.
  pose proof (filter_startSuspended_none _ Hsus) as Hfil.
  assert (oneTimer (stop s)) as Hstop.
  { apply oneTimer_stop. split; [done|left]. by rewrite Hfil. }
  destruct (stop_frame s) as (Hid & _ & _ & Hc & Henv & _).
  assert (stopped (stop s) = true) as Hstopped.
  { unfold stopped. by rewrite Hid, Hc, Hsus, bool_decide_eq_true_2. }
  assert (timers (stop s) = []) as Hnil.
  { destruct Hstop as [Hh _]. unfold handles in Hh. rewrite Hid in Hh.
    by destruct (timers (stop s)). }
  assert (nextTimer (stop s) = nextTimer s) as Hnext.
  { unfold stop, clearInterval. by repeat case_match. }
  assert (getConfig (stop s) = cfg) as Hg.
  { unfold getConfig. by rewrite Henv. }
  assert (cfg_enabled cfg = true → runOnStartup cfg = false →
          timers (start (stop s)) = [(nextTimer s, period)]
          ∧ intervalId (start (stop s)) = Some (nextTimer s)
          ∧ cycles (start (stop s)) = cycles s) as Harm.
  { intros Hen Hro. unfold start. rewrite Hg, Hen, Hro. cbn [negb].
    match goal with |- context [startArm ?c ?x] =>
      destruct (startArm_timers c x) as (-> & -> & ->)
    end.
    cbn [timers nextTimer cycles emit]. by rewrite Hnil, Hnext, Hc. }
  split_and!.
  - by apply oneTimer_start.
  - apply timerDelay_in_range.
  - apply timerDelay_out_of_range.
  - intros Hen. unfold start. rewrite Hg, Hen. cbn [negb].
    cbn [timers intervalId cycles set_statusBarItem emit].
    by rewrite Hnil, Hid, Hc.
  - intros Hen [Hro|Hnone]; [by apply Harm|].
    destruct (runOnStartup cfg) eqn:Hro; [|by apply Harm].
    unfold start. rewrite Hg, Hen, Hro. cbn [negb].
    rewrite checkForUpdates_none_eq by (cbn [env emit]; by rewrite Henv).
    cbn [resume].
    match goal with |- context [startArm ?c ?x] =>
      destruct (startArm_timers c x) as (-> & -> & ->)
    end.
    match goal with |- context [updateStatusBar ?x] =>
      destruct (updateStatusBar_timers x) as (-> & _ & ->);
      rewrite (cycles_updateStatusBar x)
    end.
    cbn [timers nextTimer cycles emit setPending set_heap set_lastCheckTime].
    by rewrite Hnil, Hnext, Hc.
  - intros Hen Hro Hsome. unfold start. rewrite Hg, Hen, Hro. cbn [negb].
    match goal with |- context [checkForUpdates ?aw ?x] =>
      destruct (checkForUpdates_some aw x) as (_ & Hcy & _ & _ & _ & Hi & Ht);
        [cbn [env emit]; by rewrite Henv|]
    end.
    rewrite Ht, Hi, Hcy. cbn [timers intervalId cycles emit].
    rewrite Hnil, Hid, Hc.
    split_and!; [done..|]. eexists. split_and!; [done|done|].
    rewrite List.filter_app, Hfil.
    match goal with |- context [startedCycle ?aw ?x] =>
      pose proof (startedCycle_inFlight aw x) as Hfl
    end.
    cbn [List.filter app]. unfold startSuspended at 1. rewrite Hfl; [done|].
    cbn [env emit]. by rewrite Henv.
Qed.

Lemma restart_on_configuration_change_applies_the_interval_witness :
  let s := set_env (Scenario.world Scenario.autoMerging [Scenario.A])
             (start (newAutoSyncService
                       (Scenario.world Scenario.notifyOnly [Scenario.A]))) in
  let s' := onDidChangeConfiguration false true s in
  oneTimer s' ∧ timers s' = [(1, 1800000%Z)] ∧ intervalId s' = Some 1.
Proof.
  intros s s'.
  destruct (restart_on_configuration_change_applies_the_interval s)
    as (Hone & _ & _ & _ & Harm & _); [by_evaluation..|].
  destruct (Harm eq_refl (or_introl eq_refl)) as (Ht & Hi & _).
  split_and!; [exact Hone| |exact Hi].
  etrans; [exact Ht|]. by_evaluation.
Defined.

(** ** Properties of [getProjectFiles] and [getFileCount] *)

Lemma take_take_app {A} (n : nat) (l k : list A) :
  take n (take n l ++ k) = take n (l ++ k).
Proof.
  destruct (decide (length l ≤ n)%nat) as [Hle|Hgt].
  - by rewrite (take_ge l) by done.
  - rewrite !take_app_le by (rewrite ?length_take; lia).
    by rewrite take_take, Nat.min_id.
Qed.

Lemma scanDir_full maxFiles dir relativePath files :
  (maxFiles ≤ Z.of_nat (length files))%Z →
  scanDir maxFiles dir relativePath files = files.
Proof.
  intros Hfull. destruct dir; simpl;
    by rewrite (proj2 (Z.leb_le _ _) Hfull).
Qed.

Lemma scanEntries_listEntries maxFiles relativePath entries :
  Forall (λ e, ∀ rel files,
            (Z.of_nat (length files) ≤ maxFiles)%Z →
            scanDir maxFiles e.2 rel files
            = take (Z.to_nat maxFiles) (files ++ listing e.2 rel)) entries →
  ∀ files,
    (Z.of_nat (length files) ≤ maxFiles)%Z →
    scanEntries (scanDir maxFiles) maxFiles relativePath entries files
    = take (Z.to_nat maxFiles)
        (files ++ listEntries listing relativePath entries).
Proof.
  induction 1 as [|[entry child] entries Hchild _ IH]; intros files Hlen.
  - simpl. rewrite app_nil_r, take_ge; [done|lia].
  - cbn [scanEntries listEntries]. fold (scanEntries (scanDir maxFiles) maxFiles relativePath).
    fold (listEntries listing relativePath).
    destruct (Z.leb_spec maxFiles (Z.of_nat (length files))) as [Hfull|Hroom].
    { rewrite take_app_le by lia. rewrite take_ge; [done|lia]. }
    set (own := match child with
                | FsDir _ =>
                    if negb (bool_decide (entry ∈ ignoreDirs))
                       && negb (startsWith entry ".")
                    then listing child (pathJoin relativePath entry) else []
                | FsFile =>
                    if bool_decide (extname entry ∈ listedExtensions)
                    then [pathJoin relativePath entry] else []
                | FsOther | FsNoStat => []
                end).
    match goal with
    | |- scanEntries _ _ _ _ ?fs = _ =>
        assert (fs = take (Z.to_nat maxFiles) (files ++ own)) as ->
    end.
    { subst own. simpl in Hchild.
      destruct child as [|sub| |]; repeat case_match;
        rewrite ?app_nil_r, ?(take_ge files) by lia; try done.
      - rewrite take_ge; [done|]. rewrite length_app. simpl. lia.
      - apply Hchild. lia. }
    rewrite IH by (rewrite length_take; lia).
    by rewrite take_take_app, (assoc_L (++)).
Qed.

(** The walk with a limit stops the walk without limit when the limit is
    reached. *)
Lemma scanDir_listing maxFiles dir : ∀ relativePath files,
  (Z.of_nat (length files) ≤ maxFiles)%Z →
  scanDir maxFiles dir relativePath files
  = take (Z.to_nat maxFiles) (files ++ listing dir relativePath).
Proof.
  induction dir as [| | | |entries IH] using FsNode_induction;
    intros relativePath files Hlen;
    try (simpl; rewrite app_nil_r, (take_ge files) by lia; by case_match).
  cbn [scanDir listing].
  destruct (Z.leb_spec maxFiles (Z.of_nat (length files))) as [Hfull|Hroom].
  { rewrite take_app_le by lia. rewrite take_ge; [done|lia]. }
  by apply scanEntries_listEntries.
Qed.

Lemma getProjectFiles_listing folder maxFiles :
  getProjectFiles folder maxFiles
  = take (Z.to_nat maxFiles) (listing folder "").
Proof.
  unfold getProjectFiles.
  destruct (Z.le_gt_cases 0 maxFiles) as [Hpos|Hneg].
  - by rewrite scanDir_listing.
  - rewrite scanDir_full by (simpl; lia).
    by replace (Z.to_nat maxFiles) with 0 by lia.
Qed.

(** X15. The limit of [getProjectFiles] only cuts the result off: with a
    smaller limit the result is the beginning of the result with a larger
    limit, and it has at most as many elements as the limit says.  So the
    [slice(0, 100)] at the call with the default limit changes nothing. *)
Theorem getProjectFiles_limit_only_truncates
    (folder : FsNode) (maxFiles larger : Z) :
  (maxFiles ≤ larger)%Z →
  getProjectFiles folder maxFiles
  = take (Z.to_nat maxFiles) (getProjectFiles folder larger)
  ∧ (length (getProjectFiles folder maxFiles) ≤ Z.to_nat maxFiles)%nat
  ∧ take 100 (getProjectFiles folder 100) = getProjectFiles folder 100.
Proof.
  intros Hle. rewrite !getProjectFiles_listing. split_and!.
  - rewrite take_take. f_equal. lia.
  - rewrite length_take. lia.
  - by rewrite take_take.
Qed.

Lemma getProjectFiles_limit_only_truncates_witness :
  getProjectFiles Folder.project 2
  = take 2 (getProjectFiles Folder.project 100)
  ∧ (length (getProjectFiles Folder.project 2) ≤ 2)%nat
  ∧ take 100 (getProjectFiles Folder.project 100)
    = getProjectFiles Folder.project 100.
Proof.
  apply (getProjectFiles_limit_only_truncates Folder.project 2 100). lia.
Defined.

Lemma elem_of_listEntries relativePath entries path :
  Forall (λ e, ∀ rel p, p ∈ listing e.2 rel ↔ Listed e.2 rel p) entries →
  path ∈ listEntries listing relativePath entries
  ↔ (∃ entry, (entry, FsFile) ∈ entries
              ∧ extname entry ∈ listedExtensions
              ∧ path = pathJoin relativePath entry)
    ∨ (∃ entry sub, (entry, FsDir sub) ∈ entries
                    ∧ (entry ∉ ignoreDirs) ∧ startsWith entry "." = false
                    ∧ Listed (FsDir sub) (pathJoin relativePath entry) path).
Proof.
  induction 1 as [|[entry child] entries Hchild _ IH].
  - simpl. split; [by intros ?%elem_of_nil|].
    intros [(? & ?%elem_of_nil & _)|(? & ? & ?%elem_of_nil & _)]; done.
  - cbn [listEntries]. fold (listEntries listing relativePath).
    rewrite elem_of_app, IH. clear IH. simpl in Hchild. split.
    + intros [Hown|[(e & He & ?)|(e & sub & He & ?)]].
      * destruct child as [|sub| |]; try by apply elem_of_nil in Hown.
        -- case_bool_decide as Hext; [|by apply elem_of_nil in Hown].
           apply list_elem_of_singleton in Hown as ->.
           left. exists entry. split_and!; [apply list_elem_of_here|done..].
        -- destruct (negb _ && negb _) eqn:Hvis;
             [|by apply elem_of_nil in Hown].
           apply andb_true_iff in Hvis as [Hign Hdot].
           apply negb_true_iff in Hign, Hdot.
           apply bool_decide_eq_false in Hign.
           right. exists entry, sub.
           split_and!; [apply list_elem_of_here|done..|by apply Hchild].
      * left. exists e. split; [by apply list_elem_of_further|done].
      * right. exists e, sub. split; [by apply list_elem_of_further|done].
    + intros [(e & [[= <- <-]|He]%elem_of_cons & Hext & ->)
             |(e & sub & [[= <- <-]|He]%elem_of_cons & Hign & Hdot & Hl)].
      * left. rewrite bool_decide_eq_true_2 by done. apply list_elem_of_here.
      * right. left. by exists e.
      * left. rewrite bool_decide_eq_false_2, Hdot by done. simpl.
        by apply Hchild.
      * right. right. by exists e, sub.
Qed.

(** The walk without limit gives the files that are to be listed. *)
Lemma elem_of_listing dir : ∀ relativePath path,
  path ∈ listing dir relativePath ↔ Listed dir relativePath path.
Proof.
  induction dir as [| | | |entries IH] using FsNode_induction;
    intros relativePath path;
    try (simpl; split; [by intros ?%elem_of_nil|by inversion 1]).
  cbn [listing]. rewrite (elem_of_listEntries _ _ _ IH). split.
  - intros [(entry & He & Hext & ->)|(entry & sub & He & Hign & Hdot & Hl)].
    + by apply Listed_file.
    + by eapply Listed_below.
  - inversion 1; subst; [left|right]; eauto 10.
Qed.

(** X16. Every path that [getProjectFiles] returns leads from the folder
    to a regular file whose extension is one of the listed ones, through
    directories that are neither ignored nor hidden. *)
Theorem getProjectFiles_returns_listed_files
    (folder : FsNode) (maxFiles : Z) (path : string) :
  path ∈ getProjectFiles folder maxFiles → Listed folder "" path.
Proof.
  rewrite getProjectFiles_listing. intros Hin.
  apply elem_of_listing. eapply elem_of_sublist; [done|apply sublist_take].
Qed.

Lemma getProjectFiles_returns_listed_files_witness :
  Listed Folder.project "" "src/main.ts".
Proof.
  apply (getProjectFiles_returns_listed_files Folder.project 2 "src/main.ts").
  vm_compute. apply list_elem_of_further, list_elem_of_here.
Defined.

(** X17. When [getProjectFiles] returns fewer paths than the limit allows,
    it has missed nothing: every regular file with a listed extension that
    can be reached through directories that are neither ignored nor hidden
    is in the result. *)
Theorem getProjectFiles_below_the_limit_is_complete
    (folder : FsNode) (maxFiles : Z) (path : string) :
  (length (getProjectFiles folder maxFiles) < Z.to_nat maxFiles)%nat →
  Listed folder "" path → path ∈ getProjectFiles folder maxFiles.
Proof.
  rewrite getProjectFiles_listing, length_take. intros Hlen Hl.
  rewrite take_ge by lia. by apply elem_of_listing.
Qed.

Lemma getProjectFiles_below_the_limit_is_complete_witness :
  ".env.ts" ∈ getProjectFiles Folder.project 100.
Proof.
  apply (getProjectFiles_below_the_limit_is_complete Folder.project 100).
  - vm_compute. lia.
  - apply (Listed_file _ "" ".env.ts").
    + do 5 apply list_elem_of_further. apply list_elem_of_here.
    + apply (bool_decide_unpack _). vm_compute. exact I.
Defined.

Lemma filterThrowing_throws {A} (f : A → option bool) (l : list A) (x : A) :
  x ∈ l → f x = None → filterThrowing f l = None.
Proof.
  intros Hx Hf. induction l as [|y l IH]; [by apply elem_of_nil in Hx|].
  simpl. apply elem_of_cons in Hx as [->|Hx]; [by rewrite Hf|].
  rewrite IH by done. by destruct (f y).
Qed.

(** X18. [getFileCount] is 0 for a folder with an entry that [statSync]
    fails on (a link that points nowhere), however many regular files the
    folder has: the failure leaves the [filter] and the [catch] returns
    0. *)
Theorem getFileCount_is_zero_when_an_entry_cannot_be_read
    (entries : list (string * FsNode)) (entry : string) :
  (entry, FsNoStat) ∈ entries →
  getFileCount (FsDir (Some entries)) = 0.
Proof.
  intros Hin. unfold getFileCount. simpl.
  by rewrite (filterThrowing_throws _ _ (entry, FsNoStat)).
Qed.

Lemma getFileCount_is_zero_when_an_entry_cannot_be_read_witness :
  getFileCount Folder.project = 0.
Proof.
  apply (getFileCount_is_zero_when_an_entry_cannot_be_read _ "broken").
  vm_compute. do 4 apply list_elem_of_further. apply list_elem_of_here.
Defined.

(** ** Properties of [parseGitHubUrl] *)

Lemma stripPrefix_spec p s r : stripPrefix p s = Some r ↔ s = p +:+ r.
Proof.
  revert s. induction p as [|a p IH]; intros s; cbn [stripPrefix].
  - split; [by intros [= ->]|by intros ->].
  - destruct s as [|b s]; [done|]. rewrite append_String.
    case_decide as Hab; [subst b; rewrite IH|]; split; intros H;
      by simplify_eq.
Qed.

Local Arguments stripPrefix : simpl never.

(** What a match of the group and the rest of the expression says about
    the input. *)
Lemma captureRun_sound k excluded input : ∀ acc captures,
  captureRun k excluded input acc = Some captures →
  ∃ run rest captures',
    input = run +:+ rest ∧ run ≠ "" ∧ noneOf excluded run = true
    ∧ k rest = Some captures' ∧ captures = (acc +:+ run) :: captures'.
Proof.
  induction input as [|c input IH]; intros acc captures; simpl; [done|].
  case_bool_decide as Hc; [done|].
  destruct (captureRun k excluded input (acc +:+ String c "")) as [caps|] eqn:Hrun.
  - intros [= <-].
    destruct (IH _ _ Hrun) as (run & rest & caps' & -> & _ & Hnone & Hk & ->).
    exists (String c run), rest, caps'.
    split_and!; [done|done| |done|].
    + simpl. by rewrite bool_decide_eq_false_2, Hnone.
    + by rewrite append_assoc.
  - destruct (k input) as [caps'|] eqn:Hk; [|done]. intros [= <-].
    exists (String c ""), input, caps'.
    split_and!; [done|done| |done|done].
    simpl. by rewrite bool_decide_eq_false_2.
Qed.

(** The group takes a run that cannot be made longer when the rest of the
    expression matches what follows it. *)
Lemma captureRun_complete k excluded run : ∀ rest acc captures,
  run ≠ "" → noneOf excluded run = true →
  (rest = "" ∨ ∃ c r, rest = String c r ∧ c ∈ excluded) →
  k rest = Some captures →
  captureRun k excluded (run +:+ rest) acc = Some ((acc +:+ run) :: captures).
Proof.
  induction run as [|c run IH]; intros rest acc captures Hne Hnone Hmax Hk;
    [done|].
  rewrite append_String. simpl in *.
  apply andb_true_iff in Hnone as [Hc Hnone]. apply negb_true_iff in Hc.
  rewrite Hc. destruct run as [|c' run'].
  - rewrite append_nil_l.
    assert (captureRun k excluded rest (acc +:+ String c "") = None) as ->.
    { destruct Hmax as [->|(c0 & r & -> & Hin)]; simpl; [done|].
      by rewrite bool_decide_eq_true_2. }
    by rewrite Hk.
  - rewrite (IH rest (acc +:+ String c "") captures) by done.
    by rewrite append_assoc.
Qed.

(** The addresses that one pattern matches. *)
Lemma matchTokens_repositoryPattern prefix url captures :
  matchTokens (repositoryPattern prefix) url = Some captures
  ↔ ∃ o r suffix,
      captures = [o; r] ∧ suffix ∈ [""; ".git"]
      ∧ url = prefix +:+ o +:+ "/" +:+ r +:+ suffix
      ∧ o ≠ "" ∧ r ≠ ""
      ∧ noneOf ["/"%char] o = true ∧ noneOf ["/"%char; "."%char] r = true.
Proof.
  unfold repositoryPattern. cbn [matchTokens]. split.
  - destruct (stripPrefix prefix url) as [u1|] eqn:H1; simpl; [|done].
    apply stripPrefix_spec in H1 as ->.
    intros (o & rest1 & caps1 & -> & Ho & Hno & Hk1 & ->)%captureRun_sound.
    destruct (stripPrefix "/" rest1) as [u2|] eqn:H2; simpl in Hk1; [|done].
    apply stripPrefix_spec in H2 as ->.
    apply captureRun_sound in Hk1
      as (r & rest2 & caps2 & -> & Hr & Hnr & Hk2 & ->).
    rewrite !append_nil_l.
    assert (caps2 = [] ∧ rest2 ∈ [""; ".git"]) as [-> Hsuffix].
    { destruct (stripPrefix ".git" rest2) as [u3|] eqn:H3; simpl in Hk2.
      - apply stripPrefix_spec in H3 as ->.
        destruct (decide (u3 = "")) as [->|Hne].
        + simplify_eq/=. split; [done|]. rewrite append_nil_r.
          apply list_elem_of_further, list_elem_of_here.
        + by case_decide.
      - case_decide as Hnil; [|done]. subst rest2. simplify_eq.
        split; [done|apply list_elem_of_here]. }
    by exists o, r, rest2.
  - intros (o & r & suffix & -> & Hsuffix & -> & Ho & Hr & Hno & Hnr).
    assert (stripPrefix prefix
              (prefix +:+ o +:+ "/" +:+ r +:+ suffix)
            = Some (o +:+ "/" +:+ r +:+ suffix)) as ->
      by by apply stripPrefix_spec.
    simpl. rewrite (captureRun_complete _ _ o _ "" [r]); [done..| |].
    { right. by exists "/"%char, (r +:+ suffix); split; [|left]. }
    assert (stripPrefix "/" ("/" +:+ r +:+ suffix) = Some (r +:+ suffix))
      as -> by by apply stripPrefix_spec.
    simpl. rewrite (captureRun_complete _ _ r _ "" []); [done..| |].
    { apply elem_of_cons in Hsuffix as [->|Hsuffix]; [by left|].
      apply list_elem_of_singleton in Hsuffix as ->. right.
      exists "."%char, "git". split; [done|].
      apply list_elem_of_further, list_elem_of_here. }
    apply elem_of_cons in Hsuffix as [->|Hsuffix]; [done|].
    by apply list_elem_of_singleton in Hsuffix as ->.
Qed.

(** X19. [parseGitHubUrl] accepts exactly the addresses that consist of
    one of the three beginnings, an owner without [/], a [/], a repository
    name without [/] and without a dot, and nothing else or [.git]; owner
    and repository are the ones it returns.  So an address whose repository
    name has a dot, or with anything after the name, is refused. *)
Theorem parseGitHubUrl_accepts_exactly (url o r : string) :
  (∃ info, parseGitHubUrl url = Some info ∧ owner info = o ∧ repo info = r
           ∧ fullName info = o +:+ "/" +:+ r)
  ↔ ∃ prefix suffix,
      prefix ∈ ["https://github.com/"; "git@github.com:";
                "https://www.github.com/"]
      ∧ suffix ∈ [""; ".git"]
      ∧ url = prefix +:+ o +:+ "/" +:+ r +:+ suffix
      ∧ o ≠ "" ∧ r ≠ ""
      ∧ noneOf ["/"%char] o = true ∧ noneOf ["/"%char; "."%char] r = true.
Proof.
  unfold parseGitHubUrl, patterns. split.
  - intros (info & Hparse & <- & <- & _). revert Hparse.
    assert (∀ prefix rest,
              (match matchTokens (repositoryPattern prefix) url with
               | Some [o; r] =>
                   Some {| owner := o; repo := r;
                           fullName := o +:+ "/" +:+ r |}
               | _ => rest
               end = Some info) →
              (∃ suffix, suffix ∈ [""; ".git"]
                 ∧ url = prefix +:+ owner info +:+ "/" +:+ repo info +:+ suffix
                 ∧ owner info ≠ "" ∧ repo info ≠ ""
                 ∧ noneOf ["/"%char] (owner info) = true
                 ∧ noneOf ["/"%char; "."%char] (repo info) = true)
              ∨ rest = Some info) as Hone.
    { intros prefix rest.
      destruct (matchTokens (repositoryPattern prefix) url) as [caps|] eqn:Hm;
        [|by right].
      apply matchTokens_repositoryPattern in Hm
        as (o' & r' & suffix & -> & ? & ? & ? & ? & ? & ?).
      intros [= <-]. left. by exists suffix. }
    cbn [firstMatch].
    intros [(suffix & ?)|[(suffix & ?)|[(suffix & ?)|?]%Hone]%Hone]%Hone;
      [exists "https://github.com/", suffix
      |exists "git@github.com:", suffix
      |exists "https://www.github.com/", suffix|done];
      (split; [|done]).
    + apply list_elem_of_here.
    + apply list_elem_of_further, list_elem_of_here.
    + do 2 apply list_elem_of_further. apply list_elem_of_here.
  - intros (prefix & suffix & Hprefix & Hsuffix & -> & Ho & Hr & Hno & Hnr).
    exists {| owner := o; repo := r; fullName := o +:+ "/" +:+ r |}.
    split; [|done].
    assert (matchTokens (repositoryPattern prefix)
              (prefix +:+ o +:+ "/" +:+ r +:+ suffix) = Some [o; r]) as Hm.
    { apply matchTokens_repositoryPattern. by exists o, r, suffix. }
    assert (∀ other, (∀ x, stripPrefix other (prefix +:+ x) = None) →
              matchTokens (repositoryPattern other)
                (prefix +:+ o +:+ "/" +:+ r +:+ suffix) = None) as Hother.
    { intros other Hno'. unfold repositoryPattern. cbn [matchTokens].
      by rewrite Hno'. }
    cbn [firstMatch].
    repeat (apply elem_of_cons in Hprefix as [->|Hprefix]);
      [| |
       |by apply elem_of_nil in Hprefix].
    + by rewrite Hm.
    + rewrite (Hother "https://github.com/") by done. by rewrite Hm.
    + rewrite (Hother "https://github.com/") by done.
      rewrite (Hother "git@github.com:") by done. by rewrite Hm.
Qed.
